(** * The Fir external scanner (src/scanner.c): model and verified properties

    A shallow embedding of the layout/delimiter state machine of
    [src/scanner.c]: the frame stack, the low-level token scanners, the
    top-level [scan] procedure and the state (de)serialisation, followed by
    the properties proved about them. *)

From Stdlib Require Import ZArith List Bool Lia Ascii String.
Import ListNotations.

Local Open Scope Z_scope.

(* ================================================================== *)
(** ** Characters *)

(** Code points are [int32_t] values; [chr] gives the code of an ASCII
    character literal of the source ('a', '#', ...). *)
Definition chr (a : ascii) : Z := Z.of_N (N_of_ascii a).

Definition TAB : Z := 9.       (* '\t' *)
Definition LF : Z := 10.       (* '\n' *)
Definition CR : Z := 13.       (* '\r' *)
Definition SPACE : Z := 32.    (* ' '  *)
Definition DQUOTE : Z := 34.   (* the double quote *)
Definition SQUOTE : Z := 39.   (* '\'' *)
Definition BSLASH : Z := 92.   (* '\\' *)
Definition BTICK : Z := 96.    (* the backtick *)

(** The bytes of a C string literal. *)
Definition cstr (s : string) : list Z := map chr (list_ascii_of_string s).

Definition is_upper (c : Z) : bool := (chr "A" <=? c) && (c <=? chr "Z").
Definition is_lower (c : Z) : bool := (chr "a" <=? c) && (c <=? chr "z").
Definition is_digit (c : Z) : bool := (chr "0" <=? c) && (c <=? chr "9").
Definition is_alnum (c : Z) : bool := is_upper c || is_lower c || is_digit c.
Definition is_id_char (c : Z) : bool := is_alnum c || (c =? chr "_").
Definition is_hex (c : Z) : bool :=
  is_digit c || ((chr "a" <=? c) && (c <=? chr "f"))
             || ((chr "A" <=? c) && (c <=? chr "F")).
Definition is_bin (c : Z) : bool := (c =? chr "0") || (c =? chr "1").

(** Recurring loop conditions of the source. *)
Definition is_hspace (c : Z) : bool := (c =? SPACE) || (c =? TAB).
Definition is_newline (c : Z) : bool := (c =? LF) || (c =? CR).
Definition is_space (c : Z) : bool := is_hspace c || is_newline c.
Definition is_closer (c : Z) : bool :=
  (c =? chr ")") || (c =? chr "]") || (c =? chr ",") || (c =? chr "}").

(** Integer casts of the source.  The [uint8_t] counters of the scanner are
    only incremented below a bound ([depth < MAX_DEPTH], one count per live
    frame) and only decremented when positive, so their arithmetic never
    wraps and is written without a reduction; the casts that can truncate
    ([(uint16_t)col], the bytes of the serialised state) are written out. *)
Definition u8 (x : Z) : Z := x mod 256.
Definition u16 (x : Z) : Z := x mod 65536.
Definition u32 (x : Z) : Z := x mod 4294967296.

(* ================================================================== *)
(** ** Tokens ([enum TokenType]) *)

Inductive TokenType : Set :=
  | START_BLOCK | END_BLOCK | NEWLINE
  | UPPER_ID | LOWER_ID | LABEL
  | INT_LITERAL | CHAR_LITERAL
  | BEGIN_STR | END_STR | STRING_CONTENT | BEGIN_INTERPOLATION | END_INTERPOLATION
  | BLOCK_COMMENT | LINE_COMMENT
  | LPAREN | RPAREN | LBRACKET | RBRACKET | LBRACE | RBRACE | BACKSLASH_LPAREN
  | COLON | COMMA | DOT | DOTDOT | EQ | UNDERSCORE | SLASH | SEMICOLON
  | PLUS | MINUS | STAR | EQEQ | NEQ | LT | GT | LTEQ | GTEQ | LSHIFT | RSHIFT
  | AMP | AMPAMP | PIPE | TILDE | EXCLAMATION | PERCENT | CARET
  | PLUSEQ | MINUSEQ | STAREQ | CARETEQ
  | KW_AND | KW_AS | KW_BREAK | KW_CONTINUE | KW_DO | KW_ELIF | KW_ELSE | KW_FN
  | KW_UPPER_FN | KW_FOR | KW_IF | KW_IMPL | KW_IMPORT | KW_IN | KW_IS | KW_LET
  | KW_LOOP | KW_MATCH | KW_NOT | KW_OR | KW_PRIM | KW_RETURN | KW_TRAIT
  | KW_TYPE | KW_VALUE | KW_WHILE | KW_ROW
  | TOKEN_COUNT.

(** The ordinal of a token in the enum. *)
Definition token_index (t : TokenType) : Z :=
  match t with
  | START_BLOCK => 0 | END_BLOCK => 1 | NEWLINE => 2
  | UPPER_ID => 3 | LOWER_ID => 4 | LABEL => 5
  | INT_LITERAL => 6 | CHAR_LITERAL => 7
  | BEGIN_STR => 8 | END_STR => 9 | STRING_CONTENT => 10
  | BEGIN_INTERPOLATION => 11 | END_INTERPOLATION => 12
  | BLOCK_COMMENT => 13 | LINE_COMMENT => 14
  | LPAREN => 15 | RPAREN => 16 | LBRACKET => 17 | RBRACKET => 18
  | LBRACE => 19 | RBRACE => 20 | BACKSLASH_LPAREN => 21
  | COLON => 22 | COMMA => 23 | DOT => 24 | DOTDOT => 25 | EQ => 26
  | UNDERSCORE => 27 | SLASH => 28 | SEMICOLON => 29
  | PLUS => 30 | MINUS => 31 | STAR => 32 | EQEQ => 33 | NEQ => 34 | LT => 35
  | GT => 36 | LTEQ => 37 | GTEQ => 38 | LSHIFT => 39 | RSHIFT => 40
  | AMP => 41 | AMPAMP => 42 | PIPE => 43 | TILDE => 44 | EXCLAMATION => 45
  | PERCENT => 46 | CARET => 47
  | PLUSEQ => 48 | MINUSEQ => 49 | STAREQ => 50 | CARETEQ => 51
  | KW_AND => 52 | KW_AS => 53 | KW_BREAK => 54 | KW_CONTINUE => 55
  | KW_DO => 56 | KW_ELIF => 57 | KW_ELSE => 58 | KW_FN => 59
  | KW_UPPER_FN => 60 | KW_FOR => 61 | KW_IF => 62 | KW_IMPL => 63
  | KW_IMPORT => 64 | KW_IN => 65 | KW_IS => 66 | KW_LET => 67
  | KW_LOOP => 68 | KW_MATCH => 69 | KW_NOT => 70 | KW_OR => 71
  | KW_PRIM => 72 | KW_RETURN => 73 | KW_TRAIT => 74 | KW_TYPE => 75
  | KW_VALUE => 76 | KW_WHILE => 77 | KW_ROW => 78
  | TOKEN_COUNT => 79
  end.

Definition token_eqb (a b : TokenType) : bool := token_index a =? token_index b.

(** The bitmap [const bool *valid] handed to [scan] by the parser. *)
Definition ValidSymbols : Type := TokenType -> bool.

(** A bitmap given by the list of its valid tokens. *)
Definition valid_of (l : list TokenType) : ValidSymbols :=
  fun t => existsb (token_eqb t) l.

(* ================================================================== *)
(** ** The lexer handle

    [TSLexer] is declared by the host framework (tree_sitter/parser.h);
    the scanner only uses it through [lookahead], [advance], [mark_end],
    [get_column], [eof] and [result_symbol].  The record below follows the
    description of that interface in section 2 of the specification: the
    remaining input as code points, the column of the lookahead, and the
    extent of the token being built.  At end of input the lookahead is 0 and
    advancing does nothing. *)

Record TSLexer : Type := mkLexer {
  chars : list Z;            (* input not yet consumed *)
  column : Z;                (* column of the lookahead on its line *)
  position : Z;              (* offset of the lookahead *)
  token_start : Z;           (* advanced by every skipped code point *)
  token_end : option Z;      (* set by mark_end *)
  result_symbol : TokenType
}.

Definition lookahead (lx : TSLexer) : Z :=
  match chars lx with
  | [] => 0
  | c :: _ => c
  end.

Definition eof (lx : TSLexer) : bool :=
  match chars lx with
  | [] => true
  | _ :: _ => false
  end.

Definition get_column (lx : TSLexer) : Z := u32 (column lx).

Definition ts_advance (skip : bool) (lx : TSLexer) : TSLexer :=
  match chars lx with
  | [] => lx
  | c :: rest =>
      {| chars := rest;
         column := if c =? LF then 0 else column lx + 1;
         position := position lx + 1;
         token_start := if skip then position lx + 1 else token_start lx;
         token_end := token_end lx;
         result_symbol := result_symbol lx |}
  end.

Definition mark_end (lx : TSLexer) : TSLexer :=
  {| chars := chars lx;
     column := column lx;
     position := position lx;
     token_start := token_start lx;
     token_end := Some (position lx);
     result_symbol := result_symbol lx |}.

Definition set_result (lx : TSLexer) (t : TokenType) : TSLexer :=
  {| chars := chars lx;
     column := column lx;
     position := position lx;
     token_start := token_start lx;
     token_end := token_end lx;
     result_symbol := t |}.

(** The end of the emitted token: the marked end, or the current position
    when [mark_end] was never called. *)
Definition token_extent_end (lx : TSLexer) : Z :=
  match token_end lx with
  | Some e => e
  | None => position lx
  end.

(** [advance] and [skip] of the source. *)
Definition advance (lx : TSLexer) : TSLexer := ts_advance false lx.
Definition skip (lx : TSLexer) : TSLexer := ts_advance true lx.

(** A lexer at the start of a token request. *)
Definition lexer_at (input : list Z) (col : Z) : TSLexer :=
  {| chars := input; column := col; position := 0; token_start := 0;
     token_end := None; result_symbol := START_BLOCK |}.

(** Loops of the form [while (p(lookahead)) advance/skip].  Every loop
    condition of the source is false on a lookahead of 0, so such a loop runs
    at most once per remaining code point: the remaining length is enough
    fuel. *)
Fixpoint while_step (step : TSLexer -> TSLexer) (p : Z -> bool)
    (fuel : nat) (lx : TSLexer) : TSLexer :=
  match fuel with
  | O => lx
  | S f => if p (lookahead lx) then while_step step p f (step lx) else lx
  end.

Definition while_skip (p : Z -> bool) (lx : TSLexer) : TSLexer :=
  while_step skip p (List.length (chars lx)) lx.

Definition while_advance (p : Z -> bool) (lx : TSLexer) : TSLexer :=
  while_step advance p (List.length (chars lx)) lx.

Definition skip_horizontal_ws (lx : TSLexer) : TSLexer := while_skip is_hspace lx.

Definition skip_all_ws (lx : TSLexer) : TSLexer := while_skip is_space lx.

(** [skip_blank_lines]: newlines and lines holding only blanks. *)
Fixpoint skip_blank_lines_loop (fuel : nat) (lx : TSLexer) : TSLexer :=
  match fuel with
  | O => lx
  | S f =>
      if is_newline (lookahead lx) then skip_blank_lines_loop f (skip lx)
      else if is_hspace (lookahead lx) then
        let lx1 := while_skip is_hspace lx in
        if is_newline (lookahead lx1) then skip_blank_lines_loop f lx1 else lx1
      else lx
  end.

Definition skip_blank_lines (lx : TSLexer) : TSLexer :=
  skip_blank_lines_loop (List.length (chars lx)) lx.

(* ================================================================== *)
(** ** Frames and scanner state *)

Inductive FrameKind : Set :=
  | FRAME_INDENTED
  | FRAME_PAREN
  | FRAME_BRACKET
  | FRAME_INTERPOLATION
  | FRAME_OTHER (raw : Z).   (* an enum value outside the four kinds *)

Definition FrameKind_eqb (a b : FrameKind) : bool :=
  match a, b with
  | FRAME_INDENTED, FRAME_INDENTED => true
  | FRAME_PAREN, FRAME_PAREN => true
  | FRAME_BRACKET, FRAME_BRACKET => true
  | FRAME_INTERPOLATION, FRAME_INTERPOLATION => true
  | FRAME_OTHER x, FRAME_OTHER y => x =? y
  | _, _ => false
  end.

Record Frame : Type := mkFrame {
  kind : FrameKind;
  block_col : Z              (* uint16_t *)
}.

Definition MAX_DEPTH : Z := 128.

Record Scanner : Type := mkScanner {
  stack : list Frame;        (* Frame stack[MAX_DEPTH] *)
  depth : Z;                 (* uint8_t *)
  pending_end_blocks : Z;    (* uint8_t *)
  in_string : bool;
  eof_newline_emitted : bool
}.

Definition sentinel : Frame := {| kind := FRAME_INDENTED; block_col := 0 |}.

Definition set_stack (s : Scanner) (st : list Frame) : Scanner :=
  {| stack := st; depth := depth s; pending_end_blocks := pending_end_blocks s;
     in_string := in_string s; eof_newline_emitted := eof_newline_emitted s |}.

Definition set_depth (s : Scanner) (d : Z) : Scanner :=
  {| stack := stack s; depth := d; pending_end_blocks := pending_end_blocks s;
     in_string := in_string s; eof_newline_emitted := eof_newline_emitted s |}.

Definition set_pending (s : Scanner) (n : Z) : Scanner :=
  {| stack := stack s; depth := depth s; pending_end_blocks := n;
     in_string := in_string s; eof_newline_emitted := eof_newline_emitted s |}.

Definition set_in_string (s : Scanner) (b : bool) : Scanner :=
  {| stack := stack s; depth := depth s; pending_end_blocks := pending_end_blocks s;
     in_string := b; eof_newline_emitted := eof_newline_emitted s |}.

Definition set_eof_newline_emitted (s : Scanner) (b : bool) : Scanner :=
  {| stack := stack s; depth := depth s; pending_end_blocks := pending_end_blocks s;
     in_string := in_string s; eof_newline_emitted := b |}.

(** [stack[i]].  Reading outside the array is undefined in C; here an index
    past the end reads a zeroed frame and a negative one reads slot 0.  No
    state with 1 <= depth <= MAX_DEPTH reads outside. *)
Definition frame_at (st : list Frame) (i : Z) : Frame := nth (Z.to_nat i) st sentinel.

(** [stack[i] = f]; only ever used below MAX_DEPTH. *)
Fixpoint array_set (st : list Frame) (i : nat) (f : Frame) : list Frame :=
  match st, i with
  | [], _ => []
  | _ :: tl, O => f :: tl
  | hd :: tl, S j => hd :: array_set tl j f
  end.

Definition top_frame (s : Scanner) : Frame := frame_at (stack s) (depth s - 1).

Definition push_frame (s : Scanner) (k : FrameKind) (col : Z) : Scanner :=
  if depth s <? MAX_DEPTH then
    set_depth
      (set_stack s (array_set (stack s) (Z.to_nat (depth s))
                              {| kind := k; block_col := col |}))
      (depth s + 1)
  else s.

Definition pop_frame (s : Scanner) : Scanner :=
  if 1 <? depth s then set_depth s (depth s - 1) else s.

Definition in_non_indented (s : Scanner) : bool :=
  negb (FrameKind_eqb (kind (top_frame s)) FRAME_INDENTED).

(** The loop of [indented_frames_above_delimiter], entered with [n = i + 1]. *)
Fixpoint indented_frames_loop (st : list Frame) (n : nat) (count : Z) : Z :=
  match n with
  | O => count
  | S i =>
      if FrameKind_eqb (kind (nth i st sentinel)) FRAME_INDENTED
      then indented_frames_loop st i (count + 1)
      else count
  end.

Definition indented_frames_above_delimiter (s : Scanner) : Z :=
  indented_frames_loop (stack s) (Z.to_nat (depth s)) 0.

(** The initial state built by [tree_sitter_fir_external_scanner_create]
    ([calloc] zeroes the rest of the array). *)
Definition create : Scanner :=
  {| stack := repeat sentinel (Z.to_nat MAX_DEPTH);
     depth := 1; pending_end_blocks := 0;
     in_string := false; eof_newline_emitted := false |}.

(* ================================================================== *)
(** ** Keywords *)

(** The [(char)] cast applied to a code point stored in a word buffer. *)
Definition to_char (c : Z) : Z :=
  let b := c mod 256 in if b <? 128 then b else b - 256.

Definition keywords : list (list Z * TokenType) :=
  [ (cstr "and", KW_AND); (cstr "as", KW_AS); (cstr "break", KW_BREAK);
    (cstr "continue", KW_CONTINUE); (cstr "do", KW_DO); (cstr "elif", KW_ELIF);
    (cstr "else", KW_ELSE); (cstr "fn", KW_FN); (cstr "for", KW_FOR);
    (cstr "if", KW_IF); (cstr "impl", KW_IMPL); (cstr "import", KW_IMPORT);
    (cstr "in", KW_IN); (cstr "is", KW_IS); (cstr "let", KW_LET);
    (cstr "loop", KW_LOOP); (cstr "match", KW_MATCH); (cstr "not", KW_NOT);
    (cstr "or", KW_OR); (cstr "prim", KW_PRIM); (cstr "return", KW_RETURN);
    (cstr "row", KW_ROW); (cstr "trait", KW_TRAIT); (cstr "type", KW_TYPE);
    (cstr "value", KW_VALUE); (cstr "while", KW_WHILE) ].

Fixpoint bytes_eqb (a b : list Z) : bool :=
  match a, b with
  | [], [] => true
  | x :: a', y :: b' => (x =? y) && bytes_eqb a' b'
  | _, _ => false
  end.

(** [lookup_keyword(word, len)] with [len] the length of [word]. *)
Definition lookup_keyword (word : list Z) : TokenType :=
  match find (fun kw => (Z.of_nat (List.length (fst kw)) =? Z.of_nat (List.length word))
                        && bytes_eqb (fst kw) word) keywords with
  | Some kw => snd kw
  | None => LOWER_ID
  end.

(* ================================================================== *)
(** ** Low-level token scanners *)

(** [while (p(lookahead) && len < 63) word[len++] = (char)advance(lexer)] *)
Fixpoint take_word_loop (p : Z -> bool) (fuel : nat) (word : list Z)
    (lx : TSLexer) : list Z * TSLexer :=
  match fuel with
  | O => (word, lx)
  | S f =>
      if p (lookahead lx) && (Z.of_nat (List.length word) <? 63)
      then take_word_loop p f (word ++ [to_char (lookahead lx)]) (advance lx)
      else (word, lx)
  end.

Definition take_word (p : Z -> bool) (word : list Z) (lx : TSLexer)
  : list Z * TSLexer :=
  take_word_loop p (List.length (chars lx)) word lx.

Definition is_underscore (c : Z) : bool := c =? chr "_".

Definition scan_upper_id (lx : TSLexer) (valid : ValidSymbols)
  : TokenType * TSLexer :=
  let '(word1, lx1) := take_word is_underscore [] lx in
  if negb (is_upper (lookahead lx1)) then (TOKEN_COUNT, lx1)
  else
    let '(word, lx2) :=
      take_word is_id_char (word1 ++ [to_char (lookahead lx1)]) (advance lx1) in
    let lx3 := mark_end lx2 in
    if bytes_eqb word (cstr "Fn") && valid KW_UPPER_FN then (KW_UPPER_FN, lx3)
    else (UPPER_ID, lx3).

Definition scan_lower_id_or_keyword (lx : TSLexer) (valid : ValidSymbols)
  : TokenType * TSLexer :=
  let '(word1, lx1) := take_word is_underscore [] lx in
  if negb (is_lower (lookahead lx1)) then (TOKEN_COUNT, lx1)
  else
    let '(word, lx2) :=
      take_word is_id_char (word1 ++ [to_char (lookahead lx1)]) (advance lx1) in
    let lx3 := mark_end lx2 in
    let kw := lookup_keyword word in
    if negb (token_eqb kw LOWER_ID) && valid kw then (kw, lx3)
    else (LOWER_ID, lx3).

Definition is_hex_or_underscore (c : Z) : bool := is_hex c || (c =? chr "_").
Definition is_bin_or_underscore (c : Z) : bool := is_bin c || (c =? chr "_").
Definition is_digit_or_underscore (c : Z) : bool := is_digit c || (c =? chr "_").

Definition scan_int_literal (lx : TSLexer) : bool * TSLexer :=
  if negb (is_digit (lookahead lx)) then (false, lx)
  else
    let decimal (l : TSLexer) := (true, while_advance is_digit_or_underscore l) in
    if lookahead lx =? chr "0" then
      let lx1 := advance lx in
      if (lookahead lx1 =? chr "x") || (lookahead lx1 =? chr "X") then
        let lx2 := advance lx1 in
        if negb (is_hex (lookahead lx2)) && negb (lookahead lx2 =? chr "_")
        then (false, lx2)
        else (true, while_advance is_hex_or_underscore lx2)
      else if (lookahead lx1 =? chr "b") || (lookahead lx1 =? chr "B") then
        let lx2 := advance lx1 in
        if negb (is_bin (lookahead lx2)) && negb (lookahead lx2 =? chr "_")
        then (false, lx2)
        else (true, while_advance is_bin_or_underscore lx2)
      else decimal lx1
    else decimal lx.

Definition is_string_stop (c : Z) : bool :=
  (c =? DQUOTE) || (c =? BTICK) || (c =? 0).

Fixpoint scan_string_content_loop (fuel : nat) (has_content : bool)
    (lx : TSLexer) : bool * TSLexer :=
  match fuel with
  | O => (has_content, lx)
  | S f =>
      if is_string_stop (lookahead lx) then (has_content, lx)
      else if lookahead lx =? BSLASH then
        let lx1 := advance lx in
        if lookahead lx1 =? LF then
          scan_string_content_loop f true (while_advance is_space (advance lx1))
        else if negb (lookahead lx1 =? 0) then
          scan_string_content_loop f true (advance lx1)
        else scan_string_content_loop f true lx1
      else scan_string_content_loop f true (advance lx)
  end.

Definition scan_string_content (lx : TSLexer) : bool * TSLexer :=
  scan_string_content_loop (List.length (chars lx)) false lx.

(** The nested block-comment loop, entered after [#|] with [depth = 1]. *)
Fixpoint block_comment_loop (fuel : nat) (nesting : Z) (lx : TSLexer) : TSLexer :=
  match fuel with
  | O => lx
  | S f =>
      if (0 <? nesting) && negb (lookahead lx =? 0) then
        if lookahead lx =? chr "#" then
          let lx1 := advance lx in
          if lookahead lx1 =? chr "|"
          then block_comment_loop f (nesting + 1) (advance lx1)
          else block_comment_loop f nesting lx1
        else if lookahead lx =? chr "|" then
          let lx1 := advance lx in
          if lookahead lx1 =? chr "#"
          then block_comment_loop f (nesting - 1) (advance lx1)
          else block_comment_loop f nesting lx1
        else block_comment_loop f nesting (advance lx)
      else lx
  end.

Definition not_line_end (c : Z) : bool := negb (c =? LF) && negb (c =? 0).

(* ================================================================== *)
(** ** The main scan function *)

(** What a call hands back: the returned boolean, the scanner state and the
    lexer as the call leaves them. *)
Record ScanResult : Type := mkResult {
  ok : bool;
  st : Scanner;
  lex : TSLexer
}.

Definition emit (s : Scanner) (lx : TSLexer) (t : TokenType) : ScanResult :=
  {| ok := true; st := s; lex := set_result lx t |}.

Definition fail (s : Scanner) (lx : TSLexer) : ScanResult :=
  {| ok := false; st := s; lex := lx |}.

(** A phase of [scan] either returns from the call or falls through to the
    next phase with the lexer it has reached (no phase changes the scanner
    state without returning). *)
Inductive Outcome : Type :=
  | Return (r : ScanResult)
  | Continue (lx : TSLexer).

Definition and_then (o : Outcome) (k : TSLexer -> Outcome) : Outcome :=
  match o with
  | Return r => Return r
  | Continue lx => k lx
  end.

Notation "o >>> k" := (and_then o k) (at level 50, left associativity).

Definition finish (o : Outcome) (k : TSLexer -> ScanResult) : ScanResult :=
  match o with
  | Return r => r
  | Continue lx => k lx
  end.

(** 1. Pending end_blocks. *)
Definition pending_taken (s : Scanner) (valid : ValidSymbols) : bool :=
  (0 <? pending_end_blocks s) && valid END_BLOCK.

Definition scan_pending (s : Scanner) (lx : TSLexer) : ScanResult :=
  emit (pop_frame (set_pending s (pending_end_blocks s - 1))) lx END_BLOCK.

(** 2. String mode. *)
Definition scan_string_mode (s : Scanner) (lx : TSLexer) (valid : ValidSymbols)
  : ScanResult :=
  if valid STRING_CONTENT && negb (is_string_stop (lookahead lx)) then
    let '(has_content, lx1) := scan_string_content (set_result lx STRING_CONTENT) in
    {| ok := has_content; st := s; lex := lx1 |}
  else if valid END_STR && (lookahead lx =? DQUOTE) then
    emit (set_in_string s false) (advance lx) END_STR
  else if valid BEGIN_INTERPOLATION && (lookahead lx =? BTICK) then
    emit (push_frame (set_in_string s false) FRAME_INTERPOLATION 0)
         (advance lx) BEGIN_INTERPOLATION
  else fail s lx.

(** The end-of-input rule, shared by sections 3 and 4. *)
Definition eof_rule (s : Scanner) (lx : TSLexer) (valid : ValidSymbols)
  : ScanResult :=
  if valid NEWLINE && negb (eof_newline_emitted s) then
    emit (set_eof_newline_emitted s true) lx NEWLINE
  else if valid END_BLOCK && FrameKind_eqb (kind (top_frame s)) FRAME_INDENTED
          && (1 <? depth s) then
    emit (pop_frame s) lx END_BLOCK
  else fail s lx.

Definition open_block (s : Scanner) (lx : TSLexer) : ScanResult :=
  emit (push_frame s FRAME_INDENTED (u16 (get_column lx))) lx START_BLOCK.

(** 3a. Layout inside a paren, bracket or interpolation frame. *)
Fixpoint skip_newlines_loop (fuel : nat) (lx : TSLexer) : TSLexer :=
  match fuel with
  | O => lx
  | S f =>
      if is_newline (lookahead lx)
      then skip_newlines_loop f (skip_horizontal_ws (skip lx))
      else lx
  end.

Definition layout_non_indented (s : Scanner) (lx : TSLexer) (valid : ValidSymbols)
  : Outcome :=
  let lx1 := skip_horizontal_ws lx in
  if valid NEWLINE && is_newline (lookahead lx1) then
    Return (emit s (skip_newlines_loop (List.length (chars lx1)) lx1) NEWLINE)
  else
    let lx2 := skip_all_ws lx1 in
    if valid START_BLOCK && negb (lookahead lx2 =? chr "#")
    then Return (open_block s lx2)
    else Continue lx2.

(** 3b. Layout in an indented frame.  [skip_to_line_start] skips the blanks
    of the current line and then the newlines and blank lines that follow,
    reporting whether a newline was crossed ([at_newline]). *)
Fixpoint cross_newlines_loop (fuel : nat) (lx : TSLexer) (at_newline : bool)
  : TSLexer * bool :=
  match fuel with
  | O => (lx, at_newline)
  | S f =>
      if is_newline (lookahead lx) then
        let lx1 := skip_horizontal_ws (skip lx) in
        if is_newline (lookahead lx1) then cross_newlines_loop f lx1 true
        else (lx1, true)
      else (lx, at_newline)
  end.

Definition skip_to_line_start (lx : TSLexer) : TSLexer * bool :=
  let lx1 := skip_horizontal_ws lx in
  cross_newlines_loop (List.length (chars lx1)) lx1 false.

Definition start_block_phase (s : Scanner) (valid : ValidSymbols)
    (at_newline : bool) (lx : TSLexer) : Outcome :=
  if valid START_BLOCK then
    (if negb at_newline then
       if is_newline (lookahead lx) then Continue (skip_blank_lines lx)
       else if negb (lookahead lx =? chr "#") then Return (open_block s lx)
       else Continue lx
     else Continue lx)
    >>> fun lx1 =>
          if negb (lookahead lx1 =? chr "#") then Return (open_block s lx1)
          else Continue lx1
  else Continue lx.

Definition auto_close_phase (s : Scanner) (valid : ValidSymbols) (lx : TSLexer)
  : Outcome :=
  if is_closer (lookahead lx) then
    if valid NEWLINE then
      let count := indented_frames_above_delimiter s in
      Return (emit (if 0 <? count then set_pending s count else s) lx NEWLINE)
    else if valid END_BLOCK && FrameKind_eqb (kind (top_frame s)) FRAME_INDENTED
            && (1 <? depth s) then
      Return (emit (pop_frame s) lx END_BLOCK)
    else Continue lx
  else Continue lx.

(** The dedent-counting loop, entered with [n = i + 1]; it stops above the
    bottom frame ([i >= 1]). *)
Fixpoint dedent_loop (stk : list Frame) (n : nat) (col : Z) (count : Z) : Z :=
  match n with
  | O => count
  | S i =>
      match i with
      | O => count
      | S _ =>
          if FrameKind_eqb (kind (nth i stk sentinel)) FRAME_INDENTED
             && (col <? block_col (nth i stk sentinel))
          then dedent_loop stk i col (count + 1)
          else count
      end
  end.

Definition dedent_count (s : Scanner) (col : Z) : Z :=
  let c := dedent_loop (stack s) (Z.to_nat (depth s)) col 0 in
  if c =? 0 then 1 else c.

Definition indentation_phase (s : Scanner) (valid : ValidSymbols)
    (at_newline : bool) (lx : TSLexer) : Outcome :=
  if at_newline then
    let col := get_column lx in
    let frame := top_frame s in
    if col <? block_col frame then
      let n := dedent_count s col in
      if valid NEWLINE then Return (emit (set_pending s n) lx NEWLINE)
      else if valid END_BLOCK then
        Return (emit (pop_frame (set_pending s (n - 1))) lx END_BLOCK)
      else Continue lx
    else if col =? block_col frame then
      if valid NEWLINE then Return (emit s lx NEWLINE) else Continue lx
    else Continue lx
  else Continue lx.

Definition layout_indented (s : Scanner) (lx : TSLexer) (valid : ValidSymbols)
  : Outcome :=
  let '(lx1, at_newline) := skip_to_line_start lx in
  if eof lx1 then Return (eof_rule s lx1 valid)
  else
    start_block_phase s valid at_newline lx1 >>>
    auto_close_phase s valid >>>
    indentation_phase s valid at_newline.

Definition scan_layout (s : Scanner) (lx : TSLexer) (valid : ValidSymbols)
  : Outcome :=
  if in_non_indented s then layout_non_indented s lx valid
  else layout_indented s lx valid.

(** 4. Concrete tokens. *)

(** [c] then an optional second code point: the two-character operator when
    it is there and valid, else the one-character one. *)
Definition scan_op2 (s : Scanner) (lx : TSLexer) (valid : ValidSymbols)
    (second : Z) (tok2 tok1 : TokenType) : ScanResult :=
  let lx1 := advance lx in
  if (lookahead lx1 =? second) && valid tok2 then emit s (advance lx1) tok2
  else if valid tok1 then emit s lx1 tok1
  else fail s lx1.

(** The same with two candidates for the second code point ([<] and [>]). *)
Definition scan_op3 (s : Scanner) (lx : TSLexer) (valid : ValidSymbols)
    (second : Z) (tok2 : TokenType) (second' : Z) (tok2' : TokenType)
    (tok1 : TokenType) : ScanResult :=
  let lx1 := advance lx in
  if (lookahead lx1 =? second) && valid tok2 then emit s (advance lx1) tok2
  else if (lookahead lx1 =? second') && valid tok2' then emit s (advance lx1) tok2'
  else if valid tok1 then emit s lx1 tok1
  else fail s lx1.

Definition scan_comment (s : Scanner) (lx : TSLexer) (valid : ValidSymbols)
  : ScanResult :=
  let lx1 := advance (mark_end lx) in
  if lookahead lx1 =? chr "|" then
    if valid BLOCK_COMMENT then
      let lx2 := advance lx1 in
      emit s (mark_end (block_comment_loop (List.length (chars lx2)) 1 lx2))
           BLOCK_COMMENT
    else fail s lx1
  else
    if valid LINE_COMMENT then
      emit s (mark_end (while_advance not_line_end lx1)) LINE_COMMENT
    else fail s lx1.

(** A single quote: label or character literal. *)
Definition scan_quote (s : Scanner) (lx : TSLexer) (valid : ValidSymbols)
  : ScanResult :=
  let lx1 := advance lx in
  if is_lower (lookahead lx1) && valid LABEL then
    let '(buf, lx2) := take_word is_id_char [to_char (lookahead lx1)] (advance lx1) in
    if (lookahead lx2 =? SQUOTE)
       && (Z.of_nat (List.length buf) =? 1) && valid CHAR_LITERAL
    then emit s (advance lx2) CHAR_LITERAL
    else emit s (mark_end lx2) LABEL
  else if valid CHAR_LITERAL then
    let lx2 :=
      if lookahead lx1 =? BSLASH then advance (advance lx1)
      else if negb (lookahead lx1 =? SQUOTE) && negb (lookahead lx1 =? 0)
      then advance lx1
      else lx1 in
    if lookahead lx2 =? SQUOTE then emit s (advance lx2) CHAR_LITERAL
    else fail s lx2
  else fail s lx1.

(** An identifier that starts with an underscore. *)
Definition scan_underscore (s : Scanner) (lx : TSLexer) (valid : ValidSymbols)
  : ScanResult :=
  let lx1 := mark_end (advance lx) in
  let lx2 := while_advance is_underscore lx1 in
  if is_upper (lookahead lx2) then
    emit s (mark_end (while_advance is_id_char (advance lx2))) UPPER_ID
  else if is_lower (lookahead lx2) then
    emit s (mark_end (while_advance is_id_char (advance lx2))) LOWER_ID
  else if valid UNDERSCORE then emit s lx2 UNDERSCORE
  else fail s lx2.

Definition scan_token (s : Scanner) (lx : TSLexer) (valid : ValidSymbols)
  : ScanResult :=
  let c := lookahead lx in
  if eof lx then eof_rule s lx valid
  else if c =? chr "#" then scan_comment s lx valid
  else if (c =? DQUOTE) && valid BEGIN_STR then
    emit (set_in_string s true) (advance lx) BEGIN_STR
  else if (c =? BTICK) && valid END_INTERPOLATION then
    emit (set_in_string
            (if FrameKind_eqb (kind (top_frame s)) FRAME_INTERPOLATION
             then pop_frame s else s) true)
         (advance lx) END_INTERPOLATION
  else if c =? BSLASH then
    let lx1 := advance lx in
    if (lookahead lx1 =? chr "(") && valid BACKSLASH_LPAREN then
      emit (push_frame s FRAME_PAREN 0) (advance lx1) BACKSLASH_LPAREN
    else fail s lx1
  else if (c =? chr "(") && valid LPAREN then
    emit (push_frame s FRAME_PAREN 0) (advance lx) LPAREN
  else if (c =? chr ")") && valid RPAREN then
    emit (if FrameKind_eqb (kind (top_frame s)) FRAME_PAREN
          then pop_frame s else s)
         (advance lx) RPAREN
  else if (c =? chr "[") && valid LBRACKET then
    emit (push_frame s FRAME_BRACKET 0) (advance lx) LBRACKET
  else if (c =? chr "]") && valid RBRACKET then
    emit (if FrameKind_eqb (kind (top_frame s)) FRAME_BRACKET
          then pop_frame s else s)
         (advance lx) RBRACKET
  else if (c =? chr "{") && valid LBRACE then
    emit (push_frame s FRAME_INDENTED 0) (advance lx) LBRACE
  else if (c =? chr "}") && valid RBRACE then
    emit (if FrameKind_eqb (kind (top_frame s)) FRAME_INDENTED && (1 <? depth s)
          then pop_frame s else s)
         (advance lx) RBRACE
  else if c =? SQUOTE then scan_quote s lx valid
  else if (c =? chr "_") || is_upper c then
    if c =? chr "_" then scan_underscore s lx valid
    else
      let '(tok, lx1) := scan_upper_id lx valid in
      if negb (token_eqb tok TOKEN_COUNT) && valid tok then emit s lx1 tok
      else fail s lx1
  else if is_lower c then
    let '(tok, lx1) := scan_lower_id_or_keyword lx valid in
    if negb (token_eqb tok TOKEN_COUNT) && valid tok then emit s lx1 tok
    else fail s lx1
  else if is_digit c && valid INT_LITERAL then
    let '(found, lx1) := scan_int_literal lx in
    if found then emit s (mark_end lx1) INT_LITERAL else fail s lx1
  else if c =? chr "=" then scan_op2 s lx valid (chr "=") EQEQ EQ
  else if c =? chr "!" then scan_op2 s lx valid (chr "=") NEQ EXCLAMATION
  else if c =? chr "<" then scan_op3 s lx valid (chr "<") LSHIFT (chr "=") LTEQ LT
  else if c =? chr ">" then scan_op3 s lx valid (chr ">") RSHIFT (chr "=") GTEQ GT
  else if c =? chr "+" then scan_op2 s lx valid (chr "=") PLUSEQ PLUS
  else if c =? chr "-" then scan_op2 s lx valid (chr "=") MINUSEQ MINUS
  else if c =? chr "*" then scan_op2 s lx valid (chr "=") STAREQ STAR
  else if c =? chr "^" then scan_op2 s lx valid (chr "=") CARETEQ CARET
  else if c =? chr "&" then scan_op2 s lx valid (chr "&") AMPAMP AMP
  else if c =? chr "." then scan_op2 s lx valid (chr ".") DOTDOT DOT
  else if (c =? chr "|") && valid PIPE then emit s (advance lx) PIPE
  else if (c =? chr "~") && valid TILDE then emit s (advance lx) TILDE
  else if (c =? chr "/") && valid SLASH then emit s (advance lx) SLASH
  else if (c =? chr "%") && valid PERCENT then emit s (advance lx) PERCENT
  else if (c =? chr ":") && valid COLON then emit s (advance lx) COLON
  else if (c =? chr ",") && valid COMMA then emit s (advance lx) COMMA
  else if (c =? chr ";") && valid SEMICOLON then emit s (advance lx) SEMICOLON
  else fail s lx.

Definition scan (s : Scanner) (lx : TSLexer) (valid : ValidSymbols) : ScanResult :=
  if pending_taken s valid then scan_pending s lx
  else if in_string s then scan_string_mode s lx valid
  else finish (scan_layout s lx valid) (fun lx1 => scan_token s lx1 valid).

(* ================================================================== *)
(** ** Serialisation *)

Definition FrameKind_code (k : FrameKind) : Z :=
  match k with
  | FRAME_INDENTED => 0
  | FRAME_PAREN => 1
  | FRAME_BRACKET => 2
  | FRAME_INTERPOLATION => 3
  | FRAME_OTHER raw => raw
  end.

(** [(FrameKind)buffer[pos]] for a byte [b] of the buffer. *)
Definition FrameKind_of_byte (b : Z) : FrameKind :=
  if b =? 0 then FRAME_INDENTED
  else if b =? 1 then FRAME_PAREN
  else if b =? 2 then FRAME_BRACKET
  else if b =? 3 then FRAME_INTERPOLATION
  else FRAME_OTHER (to_char b).

Definition byte_of_bool (b : bool) : Z := if b then 1 else 0.

(** The frame loop of serialize: [i] counts up from 0 while [i < depth] and
    three more bytes fit below [bufsize]; [n] bounds the iterations by the
    frames left. *)
Fixpoint serialize_frames (bufsize : Z) (s : Scanner) (n : nat) (i : Z)
    (buffer : list Z) : list Z :=
  match n with
  | O => buffer
  | S n' =>
      if (i <? depth s) && (Z.of_nat (List.length buffer) + 3 <=? bufsize) then
        let f := frame_at (stack s) i in
        serialize_frames bufsize s n' (i + 1)
          (buffer ++ [u8 (FrameKind_code (kind f));
                      Z.land (block_col f) 255;
                      Z.land (Z.shiftr (block_col f) 8) 255])
      else buffer
  end.

(** [tree_sitter_fir_external_scanner_serialize]: the bytes written, whose
    number is the value returned.  [bufsize] stands for the host constant
    TREE_SITTER_SERIALIZATION_BUFFER_SIZE. *)
Definition serialize (bufsize : Z) (s : Scanner) : list Z :=
  serialize_frames bufsize s (Z.to_nat (depth s)) 0
    [u8 (depth s); u8 (pending_end_blocks s);
     byte_of_bool (in_string s); byte_of_bool (eof_newline_emitted s)].

Definition byte_at (buffer : list Z) (pos : Z) : Z := nth (Z.to_nat pos) buffer 0.

Fixpoint deserialize_frames (buffer : list Z) (length : Z) (d : Z) (n : nat)
    (i pos : Z) (stk : list Frame) : list Frame :=
  match n with
  | O => stk
  | S n' =>
      if (i <? d) && (pos + 3 <=? length) then
        let f := {| kind := FrameKind_of_byte (byte_at buffer pos);
                    block_col := u16 (Z.lor (byte_at buffer (pos + 1))
                                            (Z.shiftl (byte_at buffer (pos + 2)) 8)) |} in
        deserialize_frames buffer length d n' (i + 1) (pos + 3)
          (array_set stk (Z.to_nat i) f)
      else stk
  end.

(** [tree_sitter_fir_external_scanner_deserialize] on the scanner [s]. *)
Definition deserialize (s : Scanner) (buffer : list Z) (length : Z) : Scanner :=
  if length =? 0 then
    {| stack := array_set (stack s) 0 sentinel;
       depth := 1; pending_end_blocks := 0;
       in_string := false; eof_newline_emitted := false |}
  else
    let d := byte_at buffer 0 in
    {| stack := deserialize_frames buffer length d (Z.to_nat d) 0 4 (stack s);
       depth := d;
       pending_end_blocks := byte_at buffer 1;
       in_string := negb (byte_at buffer 2 =? 0);
       eof_newline_emitted := negb (byte_at buffer 3 =? 0) |}.

(* ================================================================== *)
(** ** State invariants and specification-side notions *)

(** The shape of a scanner state at a call boundary: the array has its
    MAX_DEPTH slots, between one and MAX_DEPTH of them are live, and slot 0
    is the sentinel. *)
Definition Scanner_wf (s : Scanner) : Prop :=
  List.length (stack s) = Z.to_nat MAX_DEPTH /\
  1 <= depth s <= MAX_DEPTH /\
  frame_at (stack s) 0 = sentinel.

Definition four_kinds (k : FrameKind) : Prop :=
  k = FRAME_INDENTED \/ k = FRAME_PAREN \/ k = FRAME_BRACKET \/
  k = FRAME_INTERPOLATION.

(** "When in_string is true, the topmost frame is not INTERPOLATION." *)
Definition string_top_inv (s : Scanner) : Prop :=
  in_string s = true -> kind (top_frame s) <> FRAME_INTERPOLATION.

Definition state_invariants (s : Scanner) : Prop :=
  Scanner_wf s /\ string_top_inv s.

Fixpoint take_while {A : Type} (p : A -> bool) (l : list A) : list A :=
  match l with
  | [] => []
  | x :: tl => if p x then x :: take_while p tl else []
  end.

Fixpoint drop_while {A : Type} (p : A -> bool) (l : list A) : list A :=
  match l with
  | [] => []
  | x :: tl => if p x then drop_while p tl else l
  end.

(** The live frames, topmost first. *)
Definition frames_from_top (s : Scanner) : list Frame :=
  rev (firstn (Z.to_nat (depth s)) (stack s)).

Definition is_indented (f : Frame) : bool := FrameKind_eqb (kind f) FRAME_INDENTED.

Definition indented_deeper_than (col : Z) (f : Frame) : bool :=
  is_indented f && (col <? block_col f).

(** "The number of contiguous top INDENTED frames whose block_col > col." *)
Definition frames_to_pop (s : Scanner) (col : Z) : Z :=
  Z.of_nat (List.length (take_while (indented_deeper_than col) (frames_from_top s))).

(** "Count contiguous INDENTED frames at the top until a non-INDENTED frame
    is reached." *)
Definition top_indented_run (s : Scanner) : Z :=
  Z.of_nat (List.length (take_while is_indented (frames_from_top s))).

(** The digits (and underscore) allowed after the prefix [0p]. *)
Definition base_digit (p : Z) (c : Z) : bool :=
  if p =? chr "x" then is_hex_or_underscore c else is_bin_or_underscore c.

(** Tokens whose emission never touches the scanner state. *)
Definition plain_token (t : TokenType) : bool :=
  match t with
  | START_BLOCK | END_BLOCK | NEWLINE
  | BEGIN_STR | END_STR | BEGIN_INTERPOLATION | END_INTERPOLATION
  | LPAREN | RPAREN | LBRACKET | RBRACKET | LBRACE | RBRACE | BACKSLASH_LPAREN
  | TOKEN_COUNT => false
  | _ => true
  end.

(** The effect of one call on the scanner state, by returned boolean and
    emitted token: every path through [scan] is an instance of one of these. *)
Inductive Effect (s : Scanner) : bool -> TokenType -> Scanner -> Prop :=
  | Eff_fail t : Effect s false t s
  | Eff_plain t : plain_token t = true -> Effect s true t s
  | Eff_pending :
      0 < pending_end_blocks s ->
      Effect s true END_BLOCK (pop_frame (set_pending s (pending_end_blocks s - 1)))
  | Eff_end_str : Effect s true END_STR (set_in_string s false)
  | Eff_begin_interpolation :
      Effect s true BEGIN_INTERPOLATION
        (push_frame (set_in_string s false) FRAME_INTERPOLATION 0)
  | Eff_start_block col :
      in_string s = false ->
      Effect s true START_BLOCK (push_frame s FRAME_INDENTED col)
  | Eff_newline : in_string s = false -> Effect s true NEWLINE s
  | Eff_newline_eof :
      in_string s = false ->
      Effect s true NEWLINE (set_eof_newline_emitted s true)
  | Eff_newline_pending n :
      in_string s = false -> Effect s true NEWLINE (set_pending s n)
  | Eff_end_block_pop :
      in_string s = false -> Effect s true END_BLOCK (pop_frame s)
  | Eff_end_block_dedent n :
      in_string s = false ->
      Effect s true END_BLOCK (pop_frame (set_pending s n))
  | Eff_begin_str :
      in_string s = false -> Effect s true BEGIN_STR (set_in_string s true)
  | Eff_end_interpolation :
      in_string s = false ->
      Effect s true END_INTERPOLATION
        (set_in_string
           (if FrameKind_eqb (kind (top_frame s)) FRAME_INTERPOLATION
            then pop_frame s else s) true)
  | Eff_backslash_lparen :
      in_string s = false ->
      Effect s true BACKSLASH_LPAREN (push_frame s FRAME_PAREN 0)
  | Eff_lparen :
      in_string s = false -> Effect s true LPAREN (push_frame s FRAME_PAREN 0)
  | Eff_rparen :
      in_string s = false ->
      Effect s true RPAREN
        (if FrameKind_eqb (kind (top_frame s)) FRAME_PAREN then pop_frame s else s)
  | Eff_lbracket :
      in_string s = false -> Effect s true LBRACKET (push_frame s FRAME_BRACKET 0)
  | Eff_rbracket :
      in_string s = false ->
      Effect s true RBRACKET
        (if FrameKind_eqb (kind (top_frame s)) FRAME_BRACKET then pop_frame s else s)
  | Eff_lbrace :
      in_string s = false -> Effect s true LBRACE (push_frame s FRAME_INDENTED 0)
  | Eff_rbrace :
      in_string s = false ->
      Effect s true RBRACE
        (if FrameKind_eqb (kind (top_frame s)) FRAME_INDENTED && (1 <? depth s)
         then pop_frame s else s).

Definition effect_of (s : Scanner) (r : ScanResult) : Prop :=
  Effect s (ok r) (result_symbol (lex r)) (st r).

Definition outcome_effect (s : Scanner) (o : Outcome) : Prop :=
  match o with
  | Return r => effect_of s r
  | Continue _ => True
  end.

(* ------------------------------------------------------------------ *)
(** *** Concrete runs used below *)

(** A comma at the top level of a file: the first call queues one dedent for
    the bottom frame, the second call drains it. *)
Definition comma_call_1 : ScanResult :=
  scan create (lexer_at (cstr ",") 0) (valid_of [NEWLINE]).

Definition comma_call_2 : ScanResult :=
  scan (st comma_call_1) (lexer_at (cstr ",") 0) (valid_of [END_BLOCK]).

(** A string opened directly inside an interpolation hole: the three calls
    read the double quote, the backtick and the second double quote of the
    text made of these three characters. *)
Definition nested_call_1 : ScanResult :=
  scan create (lexer_at [DQUOTE; BTICK; DQUOTE] 0) (valid_of [BEGIN_STR]).

Definition nested_call_2 : ScanResult :=
  scan (st nested_call_1) (lexer_at [BTICK; DQUOTE] 1)
       (valid_of [STRING_CONTENT; END_STR; BEGIN_INTERPOLATION]).

Definition nested_call_3 : ScanResult :=
  scan (st nested_call_2) (lexer_at [DQUOTE] 2) (valid_of [BEGIN_STR]).

(** A bracket frame on top of the bottom frame, as after [[]. *)
Definition in_bracket : Scanner :=
  st (scan create (lexer_at (cstr "[") 0) (valid_of [LBRACKET])).

(** An indented block opened at column 4 on top of the bottom frame. *)
Definition in_block_4 : Scanner :=
  st (scan create (lexer_at (cstr "y") 4) (valid_of [START_BLOCK])).

(** A block at column 2 opened inside a parenthesis: the states after [(]
    and after the block has been opened. *)
Definition in_paren : Scanner :=
  st (scan create (lexer_at (cstr "(") 0) (valid_of [LPAREN])).

Definition in_paren_block : Scanner :=
  st (scan in_paren (lexer_at (cstr "y") 2) (valid_of [START_BLOCK])).

(** The lexer once [input] has been skipped from offset 0, standing at
    column [col] in front of [rest]. *)
Definition lexer_after_skip (skipped : Z) (col : Z) (rest : list Z) : TSLexer :=
  {| chars := rest; column := col; position := skipped; token_start := skipped;
     token_end := None; result_symbol := START_BLOCK |}.

(** Identifiers and a label of 64 letters. *)
Definition long_identifier : list Z := repeat (chr "a") 64.

Definition long_upper_identifier : list Z := chr "A" :: repeat (chr "a") 63.

Definition long_label : list Z := SQUOTE :: repeat (chr "a") 64.

(** The bytes that serialize writes for the frames [i], [i+1], ... ([n] of
    them). *)
Fixpoint encode_frames (stk : list Frame) (i : Z) (n : nat) : list Z :=
  match n with
  | O => []
  | S n' =>
      [u8 (FrameKind_code (kind (frame_at stk i)));
       Z.land (block_col (frame_at stk i)) 255;
       Z.land (Z.shiftr (block_col (frame_at stk i)) 8) 255]
      ++ encode_frames stk (i + 1) n'
  end.

(** A frame as deserialize reads it back from three bytes. *)
Definition decode_frame (b0 b1 b2 : Z) : Frame :=
  {| kind := FrameKind_of_byte b0;
     block_col := u16 (Z.lor b1 (Z.shiftl b2 8)) |}.

(** One call of [scan] on [input], the lookahead at column [col], with the
    tokens of [valid] accepted: the state it leaves. *)
Definition call (s : Scanner) (input : list Z) (col : Z) (valid : list TokenType)
  : Scanner :=
  st (scan s (lexer_at input col) (valid_of valid)).

(** Two interpolation frames on top of each other: a string, a hole, a string
    opened directly in the hole, and a hole in that string. *)
Definition hole_in_hole : Scanner :=
  call (call (call (call create [DQUOTE] 0 [BEGIN_STR])
                   [BTICK] 1 [BEGIN_INTERPOLATION])
             [DQUOTE] 2 [BEGIN_STR])
       [BTICK] 3 [BEGIN_INTERPOLATION].

(** A block opened inside a hole, a comma that queues its dedent with NEWLINE
    valid, the comma itself, and a string opened before the dedent is asked
    for. *)
Definition string_with_pending : Scanner :=
  call (call (call (call (call (call create [DQUOTE] 0 [BEGIN_STR])
                               [BTICK] 1 [BEGIN_INTERPOLATION])
                         (cstr "x") 2 [START_BLOCK])
                   (cstr ",") 3 [NEWLINE])
             (cstr ",") 3 [COMMA])
       [DQUOTE] 4 [BEGIN_STR].

(** A block at column 4 opened inside the block at column 2 of the
    parenthesis. *)
Definition in_paren_blocks_2_4 : Scanner :=
  call in_paren_block (cstr "z") 4 [START_BLOCK].

(** Three dedented lines that the dedent rule does not get to handle: one
    that starts with a closing parenthesis at column 3, under the blocks at
    columns 2 and 4; the end of the input after a line break in the block at
    column 4; and a line at column 0 while a block is to be opened. *)
Definition closer_on_dedented_line : ScanResult :=
  scan in_paren_blocks_2_4 (lexer_at (LF :: cstr "   )") 9) (valid_of [NEWLINE]).

Definition line_break_at_end : ScanResult :=
  scan in_block_4 (lexer_at [LF] 9) (valid_of [NEWLINE]).

Definition block_request_on_dedented_line : ScanResult :=
  scan in_block_4 (lexer_at (LF :: cstr "x") 9) (valid_of [START_BLOCK; NEWLINE]).

(** A closing parenthesis in front of the block at column 2: with a block to
    be opened; and with NEWLINE accepted, followed by a call that accepts
    the parenthesis but no END_BLOCK. *)
Definition block_request_at_closer : ScanResult :=
  scan in_paren_block (lexer_at (cstr " )") 3) (valid_of [START_BLOCK; NEWLINE]).

Definition closer_call_1 : ScanResult :=
  scan in_paren_block (lexer_at (cstr " )") 3) (valid_of [NEWLINE; RPAREN]).

Definition closer_call_2 : ScanResult :=
  scan (st closer_call_1) (lexer_at (cstr ")") 4) (valid_of [RPAREN]).

(* ------------------------------------------------------------------ *)
(** *** Notions used by the further properties *)

(** [scan_char_literal] of the source; [scan] does not call it and scans
    character literals inline ([scan_quote]).  In the escape branch only the
    backslash is consumed: the comment of line 367 ends in a backslash, so
    the line after it, with the second [advance], is part of that comment. *)
Definition scan_char_literal (lx : TSLexer) : bool * TSLexer :=
  let lx1 := advance lx in
  if lookahead lx1 =? BSLASH then
    let lx2 := advance lx1 in
    if lookahead lx2 =? SQUOTE then (true, advance lx2) else (false, lx2)
  else if negb (lookahead lx1 =? SQUOTE) && negb (lookahead lx1 =? 0) then
    let lx2 := advance lx1 in
    if lookahead lx2 =? SQUOTE then (true, advance lx2) else (false, lx2)
  else (false, lx1).

(** The array of a scanner object has its MAX_DEPTH slots. *)
Definition full_stack (s : Scanner) : Prop :=
  List.length (stack s) = Z.to_nat MAX_DEPTH.

(** Two states that agree on everything a serialised state carries: the
    four scalar fields and the live frames. *)
Definition live_eq (s s' : Scanner) : Prop :=
  depth s = depth s' /\
  pending_end_blocks s = pending_end_blocks s' /\
  in_string s = in_string s' /\
  eof_newline_emitted s = eof_newline_emitted s' /\
  forall i, 0 <= i < depth s -> frame_at (stack s) i = frame_at (stack s') i.

(** Two calls that show the same to the parser and leave states that agree
    on their live part. *)
Definition agree (r r' : ScanResult) : Prop :=
  ok r = ok r' /\ lex r = lex r' /\ live_eq (st r) (st r').

Definition outcome_agree (o o' : Outcome) : Prop :=
  match o, o' with
  | Return r, Return r' => agree r r'
  | Continue lx, Continue lx' => lx = lx'
  | _, _ => False
  end.

(** A returned token is one the parser accepts. *)
Definition gated (valid : ValidSymbols) (r : ScanResult) : Prop :=
  ok r = true -> valid (result_symbol (lex r)) = true.

(** From [lx] to [lx'] only blanks and newlines were consumed, all of them
    skipped: the token starts where the lexer stands and no end was marked. *)
Definition skips_space (lx lx' : TSLexer) : Prop :=
  token_start lx' = position lx' /\
  token_end lx' = token_end lx /\
  exists ws, chars lx = ws ++ chars lx' /\ forallb is_space ws = true.

(** An integer literal that starts with [0x], [0X], [0b] or [0B]. *)
Definition is_radix_prefix (d : Z) (rest : list Z) : bool :=
  (d =? chr "0")
  && ((hd 0 rest =? chr "x") || (hd 0 rest =? chr "X")
      || (hd 0 rest =? chr "b") || (hd 0 rest =? chr "B")).

(** Such a prefix with no digit of its base and no underscore after it. *)
Definition radix_prefix_without_digit (d : Z) (rest : list Z) : bool :=
  (d =? chr "0")
  && ((((hd 0 rest =? chr "x") || (hd 0 rest =? chr "X"))
       && negb (is_hex_or_underscore (hd 0 (tl rest))))
      || (((hd 0 rest =? chr "b") || (hd 0 rest =? chr "B"))
          && negb (is_bin_or_underscore (hd 0 (tl rest))))).

(** [n] successive calls at the same position with the same bitmap. *)
Fixpoint scan_repeat (n : nat) (s : Scanner) (lx : TSLexer) (valid : ValidSymbols)
  : Scanner :=
  match n with
  | O => s
  | S n' => scan_repeat n' (st (scan s lx valid)) lx valid
  end.

Definition is_layout_token (t : TokenType) : bool :=
  match t with
  | START_BLOCK | END_BLOCK | NEWLINE => true
  | _ => false
  end.

(** A returned token is not a layout token. *)
Definition no_layout (r : ScanResult) : Prop :=
  ok r = true -> is_layout_token (result_symbol (lex r)) = false.

(** What may follow the opening quote of a character literal scanned
    inline: an escape and a quote, a quote at once, or one code point other
    than NUL and a quote. *)
Definition char_literal_shape (rest : list Z) : bool :=
  match rest with
  | [] => false
  | c :: after =>
      if c =? BSLASH then hd 0 (tl after) =? SQUOTE
      else if c =? SQUOTE then true
      else if c =? 0 then false
      else hd 0 after =? SQUOTE
  end.

(** The stack after 127 opening parentheses: all MAX_DEPTH slots live. *)
Definition deep_parens : Scanner :=
  Nat.iter 127 (fun s => call s (cstr "(") 0 [LPAREN]) create.

(** What a call shows to the parser: the returned boolean, the symbol and
    the extent of the token. *)
Definition shown (r : ScanResult) : bool * TokenType * Z * Z :=
  (ok r, result_symbol (lex r), token_start (lex r), token_extent_end (lex r)).

(* ================================================================== *)
(** * Properties *)

(** ** The scenarios of the specification, replayed on the model *)

Example scenario_keyword :
  shown (scan create (lexer_at (cstr "if x:") 0) (valid_of [KW_IF; LOWER_ID]))
  = (true, KW_IF, 0, 2).
Proof. reflexivity. Qed.

Example scenario_newline_in_parens_suppressed :
  shown (scan in_paren (lexer_at (LF :: cstr " b)") 3) (valid_of [LOWER_ID; RPAREN]))
  = (true, LOWER_ID, 2, 3).
Proof. reflexivity. Qed.

Example scenario_label_then_identifier :
  shown (scan create (lexer_at (cstr "'loop'x") 0) (valid_of [LABEL; CHAR_LITERAL]))
  = (true, LABEL, 0, 5).
Proof. reflexivity. Qed.

Example scenario_char_literal :
  shown (scan create (lexer_at (cstr "'a'") 0) (valid_of [LABEL; CHAR_LITERAL]))
  = (true, CHAR_LITERAL, 0, 3).
Proof. reflexivity. Qed.

Example scenario_continuation_line :
  shown (scan create (lexer_at (LF :: cstr "    + b") 1)
              (valid_of [NEWLINE; PLUS; END_BLOCK]))
  = (true, PLUS, 5, 6).
Proof. reflexivity. Qed.

Example scenario_nested_block_comment :
  shown (scan create (lexer_at (cstr "#| outer #| inner |# still outer |#") 0)
              (valid_of [BLOCK_COMMENT; LINE_COMMENT]))
  = (true, BLOCK_COMMENT, 0, 35).
Proof. reflexivity. Qed.

Example scenario_empty_file :
  shown (scan create (lexer_at [] 0) (valid_of [NEWLINE])) = (true, NEWLINE, 0, 0) /\
  ok (scan (call create [] 0 [NEWLINE]) (lexer_at [] 0) (valid_of [NEWLINE])) = false.
Proof. split; reflexivity. Qed.

Example scenario_block_after_colon :
  shown (scan create (lexer_at (LF :: cstr "    y") 5) (valid_of [START_BLOCK]))
  = (true, START_BLOCK, 5, 5) /\
  top_frame (call create (LF :: cstr "    y") 5 [START_BLOCK])
  = {| kind := FRAME_INDENTED; block_col := 4 |}.
Proof. split; reflexivity. Qed.

(* ================================================================== *)
(** ** The lexer: what advancing preserves *)

Lemma ts_advance_result_symbol skip lx :
  result_symbol (ts_advance skip lx) = result_symbol lx.
Proof. unfold ts_advance. destruct (chars lx); reflexivity. Qed.

Lemma while_step_result_symbol step p fuel lx :
  (forall l, result_symbol (step l) = result_symbol l) ->
  result_symbol (while_step step p fuel lx) = result_symbol lx.
Proof.
  intros Hstep. revert lx.
  induction fuel as [|f IH]; intros lx; simpl; [reflexivity|].
  destruct (p (lookahead lx)); [|reflexivity].
  rewrite IH. apply Hstep.
Qed.

Lemma while_advance_result_symbol p lx :
  result_symbol (while_advance p lx) = result_symbol lx.
Proof.
  apply while_step_result_symbol. intros l. apply ts_advance_result_symbol.
Qed.

Lemma scan_string_content_loop_result_symbol fuel :
  forall b lx,
    result_symbol (snd (scan_string_content_loop fuel b lx)) = result_symbol lx.
Proof.
  induction fuel as [|f IH]; intros b lx; simpl; [reflexivity|].
  destruct (is_string_stop (lookahead lx)); [reflexivity|].
  destruct (lookahead lx =? BSLASH).
  - destruct (lookahead (advance lx) =? LF).
    + rewrite IH, while_advance_result_symbol.
      unfold advance. now rewrite !ts_advance_result_symbol.
    + destruct (negb (lookahead (advance lx) =? 0)); rewrite IH;
        unfold advance; now rewrite ?ts_advance_result_symbol.
  - rewrite IH. apply ts_advance_result_symbol.
Qed.

(* ================================================================== *)
(** ** Tokens produced by the identifier scanners *)

Lemma lookup_keyword_plain word : plain_token (lookup_keyword word) = true.
Proof.
  unfold lookup_keyword.
  destruct (find _ keywords) as [kw|] eqn:Hfind; [|reflexivity].
  apply find_some in Hfind. destruct Hfind as [Hin _].
  unfold keywords in Hin. simpl in Hin.
  repeat (destruct Hin as [Hin|Hin]; [subst kw; reflexivity|]).
  contradiction.
Qed.

Lemma scan_lower_id_or_keyword_token lx valid :
  fst (scan_lower_id_or_keyword lx valid) = TOKEN_COUNT \/
  plain_token (fst (scan_lower_id_or_keyword lx valid)) = true.
Proof.
  unfold scan_lower_id_or_keyword.
  destruct (take_word is_underscore [] lx) as [word1 lx1].
  destruct (negb (is_lower (lookahead lx1))); [now left|].
  destruct (take_word is_id_char _ _) as [word lx2].
  destruct (_ && _); right; [apply lookup_keyword_plain | reflexivity].
Qed.

Lemma scan_upper_id_token lx valid :
  fst (scan_upper_id lx valid) = TOKEN_COUNT \/
  plain_token (fst (scan_upper_id lx valid)) = true.
Proof.
  unfold scan_upper_id.
  destruct (take_word is_underscore [] lx) as [word1 lx1].
  destruct (negb (is_upper (lookahead lx1))); [now left|].
  destruct (take_word is_id_char _ _) as [word lx2].
  destruct (_ && _); right; reflexivity.
Qed.

(* ================================================================== *)
(** ** The effect of every path through [scan] *)

Create HintDb scan_effect.
#[local] Hint Constructors Effect : scan_effect.

Ltac split_ifs :=
  repeat match goal with
         | |- context [if ?c then _ else _] => destruct c eqn:?
         end.

Ltac effect_auto :=
  unfold effect_of;
  cbn [ok st lex emit fail set_result result_symbol];
  auto with scan_effect;
  try (apply Eff_plain; reflexivity).

Lemma effect_eof_rule s lx valid :
  in_string s = false -> effect_of s (eof_rule s lx valid).
Proof. intros Hs. unfold eof_rule. split_ifs; effect_auto. Qed.

Lemma effect_scan_pending s lx valid :
  pending_taken s valid = true -> effect_of s (scan_pending s lx).
Proof.
  unfold pending_taken. intros H. apply andb_true_iff in H. destruct H as [H _].
  apply Z.ltb_lt in H. unfold scan_pending. effect_auto.
Qed.

Lemma effect_scan_string_mode s lx valid :
  effect_of s (scan_string_mode s lx valid).
Proof.
  unfold scan_string_mode.
  destruct (valid STRING_CONTENT && negb (is_string_stop (lookahead lx))).
  - pose proof (scan_string_content_loop_result_symbol
                  (List.length (chars (set_result lx STRING_CONTENT))) false
                  (set_result lx STRING_CONTENT)) as Hsym.
    unfold scan_string_content.
    destruct (scan_string_content_loop _ _ _) as [has_content lx1].
    simpl in Hsym. unfold effect_of. cbn [ok st lex]. rewrite Hsym.
    destruct has_content; effect_auto.
  - split_ifs; effect_auto.
Qed.

Lemma outcome_effect_and_then s o k :
  outcome_effect s o -> (forall lx, outcome_effect s (k lx)) ->
  outcome_effect s (o >>> k).
Proof. destruct o; simpl; auto. Qed.

Lemma effect_open_block s lx :
  in_string s = false -> effect_of s (open_block s lx).
Proof. intros Hs. unfold open_block. effect_auto. Qed.

Lemma effect_layout_non_indented s lx valid :
  in_string s = false -> outcome_effect s (layout_non_indented s lx valid).
Proof.
  intros Hs. unfold layout_non_indented.
  split_ifs; simpl; auto using effect_open_block. effect_auto.
Qed.

Lemma effect_start_block_phase s valid at_newline lx :
  in_string s = false -> outcome_effect s (start_block_phase s valid at_newline lx).
Proof.
  intros Hs. unfold start_block_phase.
  destruct (valid START_BLOCK); [|exact I].
  apply outcome_effect_and_then.
  - split_ifs; simpl; auto using effect_open_block.
  - intros lx1. split_ifs; simpl; auto using effect_open_block.
Qed.

Lemma effect_auto_close_phase s valid lx :
  in_string s = false -> outcome_effect s (auto_close_phase s valid lx).
Proof.
  intros Hs. unfold auto_close_phase.
  split_ifs; simpl; auto; effect_auto.
Qed.

Lemma effect_indentation_phase s valid at_newline lx :
  in_string s = false -> outcome_effect s (indentation_phase s valid at_newline lx).
Proof.
  intros Hs. unfold indentation_phase.
  split_ifs; simpl; auto; effect_auto.
Qed.

Lemma effect_scan_layout s lx valid :
  in_string s = false -> outcome_effect s (scan_layout s lx valid).
Proof.
  intros Hs. unfold scan_layout.
  destruct (in_non_indented s); [now apply effect_layout_non_indented|].
  unfold layout_indented.
  destruct (skip_to_line_start lx) as [lx1 at_newline].
  destruct (eof lx1); [now apply effect_eof_rule|].
  repeat apply outcome_effect_and_then;
    auto using effect_start_block_phase, effect_auto_close_phase,
               effect_indentation_phase.
Qed.

Lemma effect_scan_op2 s lx valid second tok2 tok1 :
  plain_token tok2 = true -> plain_token tok1 = true ->
  effect_of s (scan_op2 s lx valid second tok2 tok1).
Proof. intros H2 H1. unfold scan_op2. split_ifs; effect_auto. Qed.

Lemma effect_scan_op3 s lx valid second tok2 second' tok2' tok1 :
  plain_token tok2 = true -> plain_token tok2' = true -> plain_token tok1 = true ->
  effect_of s (scan_op3 s lx valid second tok2 second' tok2' tok1).
Proof. intros H2 H2' H1. unfold scan_op3. split_ifs; effect_auto. Qed.

Lemma effect_scan_comment s lx valid : effect_of s (scan_comment s lx valid).
Proof. unfold scan_comment. split_ifs; effect_auto. Qed.

Lemma effect_scan_quote s lx valid : effect_of s (scan_quote s lx valid).
Proof.
  unfold scan_quote.
  destruct (is_lower (lookahead (advance lx)) && valid LABEL).
  - destruct (take_word _ _ _) as [buf lx2]. split_ifs; effect_auto.
  - split_ifs; effect_auto.
Qed.

Lemma effect_scan_underscore s lx valid : effect_of s (scan_underscore s lx valid).
Proof. unfold scan_underscore. split_ifs; effect_auto. Qed.

Lemma effect_scan_token s lx valid :
  in_string s = false -> effect_of s (scan_token s lx valid).
Proof.
  intros Hs. unfold scan_token.
  destruct (eof lx); [now apply effect_eof_rule|].
  destruct (lookahead lx =? chr "#"); [apply effect_scan_comment|].
  destruct ((lookahead lx =? DQUOTE) && valid BEGIN_STR); [effect_auto|].
  destruct ((lookahead lx =? BTICK) && valid END_INTERPOLATION); [effect_auto|].
  destruct (lookahead lx =? BSLASH).
  { destruct (_ && _); effect_auto. }
  destruct ((lookahead lx =? chr "(") && valid LPAREN); [effect_auto|].
  destruct ((lookahead lx =? chr ")") && valid RPAREN); [effect_auto|].
  destruct ((lookahead lx =? chr "[") && valid LBRACKET); [effect_auto|].
  destruct ((lookahead lx =? chr "]") && valid RBRACKET); [effect_auto|].
  destruct ((lookahead lx =? chr "{") && valid LBRACE); [effect_auto|].
  destruct ((lookahead lx =? chr "}") && valid RBRACE); [effect_auto|].
  destruct (lookahead lx =? SQUOTE); [apply effect_scan_quote|].
  destruct ((lookahead lx =? chr "_") || is_upper (lookahead lx)).
  { destruct (lookahead lx =? chr "_"); [apply effect_scan_underscore|].
    pose proof (scan_upper_id_token lx valid) as Htok.
    destruct (scan_upper_id lx valid) as [tok lx1]. simpl in Htok.
    destruct Htok as [-> | Hplain]; [effect_auto|].
    destruct (_ && _); effect_auto. }
  destruct (is_lower (lookahead lx)).
  { pose proof (scan_lower_id_or_keyword_token lx valid) as Htok.
    destruct (scan_lower_id_or_keyword lx valid) as [tok lx1]. simpl in Htok.
    destruct Htok as [-> | Hplain]; [effect_auto|].
    destruct (_ && _); effect_auto. }
  destruct (is_digit (lookahead lx) && valid INT_LITERAL).
  { destruct (scan_int_literal lx) as [found lx1]. destruct found; effect_auto. }
  repeat match goal with
         | |- context [if ?c then scan_op2 _ _ _ _ _ _ else _] =>
             destruct c; [apply effect_scan_op2; reflexivity|]
         | |- context [if ?c then scan_op3 _ _ _ _ _ _ _ _ else _] =>
             destruct c; [apply effect_scan_op3; reflexivity|]
         end.
  split_ifs; effect_auto.
Qed.

(** Every call of [scan] has one of the effects of [Effect]. *)
Lemma scan_effect s lx valid : effect_of s (scan s lx valid).
Proof.
  unfold scan.
  destruct (pending_taken s valid) eqn:Hp; [now apply (effect_scan_pending s lx valid)|].
  destruct (in_string s) eqn:Hs; [apply effect_scan_string_mode|].
  pose proof (effect_scan_layout s lx valid Hs) as Hl.
  destruct (scan_layout s lx valid) as [r|lx1]; simpl in *; [exact Hl|].
  now apply effect_scan_token.
Qed.

(* ================================================================== *)
(** ** Failure leaves the state alone; closing delimiters *)

Lemma Effect_fail_inv s t s' : Effect s false t s' -> s' = s.
Proof. inversion 1. reflexivity. Qed.

Lemma Effect_rparen_inv s s' :
  Effect s true RPAREN s' ->
  s' = if FrameKind_eqb (kind (top_frame s)) FRAME_PAREN then pop_frame s else s.
Proof. inversion 1; [discriminate | reflexivity]. Qed.

Lemma Effect_rbracket_inv s s' :
  Effect s true RBRACKET s' ->
  s' = if FrameKind_eqb (kind (top_frame s)) FRAME_BRACKET then pop_frame s else s.
Proof. inversion 1; [discriminate | reflexivity]. Qed.

Lemma Effect_rbrace_inv s s' :
  Effect s true RBRACE s' ->
  s' = if FrameKind_eqb (kind (top_frame s)) FRAME_INDENTED && (1 <? depth s)
       then pop_frame s else s.
Proof. inversion 1; [discriminate | reflexivity]. Qed.

Lemma FrameKind_eqb_eq a b : FrameKind_eqb a b = true <-> a = b.
Proof.
  destruct a, b; simpl; split; intros H;
    try reflexivity; try discriminate H.
  - apply Z.eqb_eq in H. now subst.
  - inversion H. apply Z.eqb_refl.
Qed.

Lemma FrameKind_eqb_neq a b : FrameKind_eqb a b = false <-> a <> b.
Proof.
  split.
  - intros H Heq. apply FrameKind_eqb_eq in Heq. congruence.
  - intros H. destruct (FrameKind_eqb a b) eqn:E; [|reflexivity].
    apply FrameKind_eqb_eq in E. contradiction.
Qed.

(** C9. Whenever a call of [scan] returns false, the scanner state is the one
    the call started with: depth, every stack frame, pending_end_blocks,
    in_string and eof_newline_emitted are unchanged, for every input and
    every valid-token bitmap. *)
Theorem scan_failure_leaves_state s lx valid :
  ok (scan s lx valid) = false -> st (scan s lx valid) = s.
Proof.
  intros Hfail. pose proof (scan_effect s lx valid) as Heff.
  unfold effect_of in Heff. rewrite Hfail in Heff.
  now apply Effect_fail_inv in Heff.
Qed.

(** C10. When a call emits RPAREN (RBRACKET, RBRACE), the top frame is popped
    only when its kind is PAREN (BRACKET, INDENTED with depth > 1); when the
    kind does not match, the token is emitted all the same and the scanner
    state, depth and every frame included, is exactly the one at entry. *)
Theorem closing_delimiter_frame_effect s lx valid :
  ok (scan s lx valid) = true ->
  (result_symbol (lex (scan s lx valid)) = RPAREN ->
     (kind (top_frame s) = FRAME_PAREN -> st (scan s lx valid) = pop_frame s) /\
     (kind (top_frame s) <> FRAME_PAREN -> st (scan s lx valid) = s)) /\
  (result_symbol (lex (scan s lx valid)) = RBRACKET ->
     (kind (top_frame s) = FRAME_BRACKET -> st (scan s lx valid) = pop_frame s) /\
     (kind (top_frame s) <> FRAME_BRACKET -> st (scan s lx valid) = s)) /\
  (result_symbol (lex (scan s lx valid)) = RBRACE ->
     (kind (top_frame s) = FRAME_INDENTED /\ 1 < depth s ->
        st (scan s lx valid) = pop_frame s) /\
     (~ (kind (top_frame s) = FRAME_INDENTED /\ 1 < depth s) ->
        st (scan s lx valid) = s)).
Proof.
  intros Hok. pose proof (scan_effect s lx valid) as Heff.
  unfold effect_of in Heff. rewrite Hok in Heff.
  split; [|split]; intros Hsym; rewrite Hsym in Heff; split; intros Hkind.
  - apply Effect_rparen_inv in Heff. rewrite Heff.
    apply FrameKind_eqb_eq in Hkind. now rewrite Hkind.
  - apply Effect_rparen_inv in Heff. rewrite Heff.
    apply FrameKind_eqb_neq in Hkind. now rewrite Hkind.
  - apply Effect_rbracket_inv in Heff. rewrite Heff.
    apply FrameKind_eqb_eq in Hkind. now rewrite Hkind.
  - apply Effect_rbracket_inv in Heff. rewrite Heff.
    apply FrameKind_eqb_neq in Hkind. now rewrite Hkind.
  - apply Effect_rbrace_inv in Heff. rewrite Heff.
    destruct Hkind as [Hk Hd].
    apply FrameKind_eqb_eq in Hk. apply Z.ltb_lt in Hd. now rewrite Hk, Hd.
  - apply Effect_rbrace_inv in Heff. rewrite Heff.
    destruct (FrameKind_eqb (kind (top_frame s)) FRAME_INDENTED) eqn:Hk;
      [|reflexivity].
    destruct (1 <? depth s) eqn:Hd; [|reflexivity].
    elim Hkind. split; [now apply FrameKind_eqb_eq | now apply Z.ltb_lt].
Qed.

Lemma scan_failure_leaves_state_witness :
  ok (scan in_bracket (lexer_at (cstr "\x") 0) (valid_of [])) = false /\
  st (scan in_bracket (lexer_at (cstr "\x") 0) (valid_of [])) = in_bracket.
Proof.
  split; [reflexivity|].
  apply (scan_failure_leaves_state in_bracket (lexer_at (cstr "\x") 0) (valid_of [])).
  reflexivity.
Defined.

Lemma closing_delimiter_frame_effect_witness :
  ok (scan in_bracket (lexer_at (cstr ")") 0) (valid_of [RPAREN])) = true /\
  kind (top_frame in_bracket) = FRAME_BRACKET /\
  st (scan in_bracket (lexer_at (cstr ")") 0) (valid_of [RPAREN])) = in_bracket.
Proof.
  split; [reflexivity|]. split; [reflexivity|].
  pose proof (closing_delimiter_frame_effect
                in_bracket (lexer_at (cstr ")") 0) (valid_of [RPAREN]) eq_refl)
    as [Hrparen _].
  apply (Hrparen eq_refl). vm_compute. discriminate.
Defined.

(* ================================================================== *)
(** ** Pending dedents *)

(** C4, counterexample.  With only the bottom frame live, a comma queues one
    dedent; the next call, with END_BLOCK valid, emits END_BLOCK and drains
    the counter but pops no frame: the depth stays 1. *)
Lemma pending_end_block_pops_nothing_at_depth_1 :
  0 < pending_end_blocks (st comma_call_1) /\
  valid_of [END_BLOCK] END_BLOCK = true /\
  ok comma_call_2 = true /\
  result_symbol (lex comma_call_2) = END_BLOCK /\
  depth (st comma_call_1) = 1 /\
  depth (st comma_call_2) = 1 /\
  depth (st comma_call_2) <> depth (st comma_call_1) - 1.
Proof. vm_compute. repeat split; discriminate. Qed.

(** C4, amended.  If pending_end_blocks > 0 and END_BLOCK is valid at the
    start of a call, the call returns true with END_BLOCK before anything
    else is looked at: pending_end_blocks is one less, one frame is popped
    when depth > 1 (at depth 1 the pop does nothing), the stack slots and the
    two flags are unchanged, and the lexer is the one passed in but for its
    result symbol, so no input is consumed. *)
Theorem scan_pending_end_block s lx valid :
  0 < pending_end_blocks s ->
  valid END_BLOCK = true ->
  scan s lx valid =
    {| ok := true;
       st := {| stack := stack s;
                depth := if 1 <? depth s then depth s - 1 else depth s;
                pending_end_blocks := pending_end_blocks s - 1;
                in_string := in_string s;
                eof_newline_emitted := eof_newline_emitted s |};
       lex := set_result lx END_BLOCK |}.
Proof.
  intros Hp Hv. unfold scan, pending_taken.
  apply Z.ltb_lt in Hp. rewrite Hp, Hv. simpl.
  unfold scan_pending, emit, pop_frame. simpl.
  destruct (1 <? depth s); reflexivity.
Qed.

Lemma scan_pending_end_block_witness :
  scan (st comma_call_1) (lexer_at (cstr ",") 0) (valid_of [END_BLOCK]) =
    {| ok := true;
       st := {| stack := stack (st comma_call_1);
                depth := 1;
                pending_end_blocks := 0;
                in_string := false;
                eof_newline_emitted := false |};
       lex := set_result (lexer_at (cstr ",") 0) END_BLOCK |}.
Proof.
  apply (scan_pending_end_block
           (st comma_call_1) (lexer_at (cstr ",") 0) (valid_of [END_BLOCK]));
    reflexivity.
Defined.

(* ================================================================== *)
(** ** String mode and interpolation frames *)

Lemma string_top_inv_not_in_string s : in_string s = false -> string_top_inv s.
Proof. intros H Ht. congruence. Qed.

Lemma in_string_pop_frame s : in_string (pop_frame s) = in_string s.
Proof. unfold pop_frame. destruct (1 <? depth s); reflexivity. Qed.

Lemma in_string_push_frame s k col : in_string (push_frame s k col) = in_string s.
Proof. unfold push_frame. destruct (depth s <? MAX_DEPTH); reflexivity. Qed.

Lemma top_frame_pop_set_pending s n :
  top_frame (pop_frame (set_pending s n)) = top_frame (pop_frame s).
Proof. unfold pop_frame. simpl. destruct (1 <? depth s); reflexivity. Qed.

Lemma FrameKind_eq_dec (a b : FrameKind) : {a = b} + {a <> b}.
Proof.
  destruct (FrameKind_eqb a b) eqn:E.
  - left. now apply FrameKind_eqb_eq.
  - right. now apply FrameKind_eqb_neq.
Qed.

(** How one call can break [string_top_inv]: only by opening a string right
    under an INTERPOLATION frame, by closing a hole that sits on another
    INTERPOLATION frame, or by draining a dedent while in string mode. *)
Lemma Effect_string_top_inv s b t s' :
  Effect s b t s' ->
  string_top_inv s ->
  string_top_inv s' \/
  (b = true /\ t = BEGIN_STR /\ kind (top_frame s) = FRAME_INTERPOLATION) \/
  (b = true /\ t = END_INTERPOLATION /\
   kind (top_frame s) = FRAME_INTERPOLATION /\
   kind (top_frame (pop_frame s)) = FRAME_INTERPOLATION) \/
  (b = true /\ t = END_BLOCK /\ in_string s = true /\
   0 < pending_end_blocks s /\
   kind (top_frame (pop_frame s)) = FRAME_INTERPOLATION).
Proof.
  intros Heff Hinv.
  destruct Heff;
    try (left; exact Hinv);
    try (left; apply string_top_inv_not_in_string;
         rewrite ?in_string_pop_frame, ?in_string_push_frame; simpl;
         first [reflexivity | assumption]).
  - (* a pending dedent *)
    destruct (in_string s) eqn:Hs.
    + destruct (FrameKind_eq_dec (kind (top_frame (pop_frame s))) FRAME_INTERPOLATION)
        as [Hk|Hk].
      * right. right. right. repeat split; assumption.
      * left. intros _. now rewrite top_frame_pop_set_pending.
    + left. apply string_top_inv_not_in_string.
      now rewrite in_string_pop_frame.
  - (* BEGIN_STR *)
    destruct (FrameKind_eq_dec (kind (top_frame s)) FRAME_INTERPOLATION) as [Hk|Hk].
    + right. left. repeat split; assumption.
    + left. intros _. exact Hk.
  - (* END_INTERPOLATION *)
    destruct (FrameKind_eqb (kind (top_frame s)) FRAME_INTERPOLATION) eqn:Hk.
    + apply FrameKind_eqb_eq in Hk.
      destruct (FrameKind_eq_dec (kind (top_frame (pop_frame s))) FRAME_INTERPOLATION)
        as [Hk'|Hk'].
      * right. right. left. repeat split; assumption.
      * left. intros _. exact Hk'.
    + apply FrameKind_eqb_neq in Hk. left. intros _. exact Hk.
  - (* RPAREN *)
    left. apply string_top_inv_not_in_string.
    destruct (FrameKind_eqb _ _); now rewrite ?in_string_pop_frame.
  - (* RBRACKET *)
    left. apply string_top_inv_not_in_string.
    destruct (FrameKind_eqb _ _); now rewrite ?in_string_pop_frame.
  - (* RBRACE *)
    left. apply string_top_inv_not_in_string.
    destruct (_ && _); now rewrite ?in_string_pop_frame.
Qed.

(** C5, counterexample.  After the opening double quote and a backtick the
    state satisfies the invariants (an INTERPOLATION frame on top, in_string
    false); a double quote read there with BEGIN_STR valid sets in_string
    while the INTERPOLATION frame is still the top frame. *)
Lemma string_inside_interpolation_breaks_inv :
  state_invariants (st nested_call_2) /\
  ok nested_call_3 = true /\
  result_symbol (lex nested_call_3) = BEGIN_STR /\
  in_string (st nested_call_3) = true /\
  kind (top_frame (st nested_call_3)) = FRAME_INTERPOLATION /\
  ~ string_top_inv (st nested_call_3).
Proof.
  split.
  { split; [split; [reflexivity | split; [vm_compute; split; discriminate | reflexivity]]|].
    apply string_top_inv_not_in_string. reflexivity. }
  repeat split.
  intros H. apply H; reflexivity.
Qed.

(** C5, amended.  A call that starts in a state satisfying the invariants
    ends in a state where in_string implies that the top frame is not
    INTERPOLATION, except in three cases: the call emits BEGIN_STR while the
    top frame is INTERPOLATION (a string opened directly inside a hole); it
    emits END_INTERPOLATION and pops an INTERPOLATION frame that lies on
    another INTERPOLATION frame; or it drains a pending END_BLOCK while
    in_string is set and the pop uncovers an INTERPOLATION frame. *)
Theorem scan_string_top_inv s lx valid :
  state_invariants s ->
  string_top_inv (st (scan s lx valid)) \/
  (ok (scan s lx valid) = true /\
   result_symbol (lex (scan s lx valid)) = BEGIN_STR /\
   kind (top_frame s) = FRAME_INTERPOLATION) \/
  (ok (scan s lx valid) = true /\
   result_symbol (lex (scan s lx valid)) = END_INTERPOLATION /\
   kind (top_frame s) = FRAME_INTERPOLATION /\
   kind (top_frame (pop_frame s)) = FRAME_INTERPOLATION) \/
  (ok (scan s lx valid) = true /\
   result_symbol (lex (scan s lx valid)) = END_BLOCK /\
   in_string s = true /\ 0 < pending_end_blocks s /\
   kind (top_frame (pop_frame s)) = FRAME_INTERPOLATION).
Proof.
  intros [_ Hinv].
  exact (Effect_string_top_inv _ _ _ _ (scan_effect s lx valid) Hinv).
Qed.

Lemma scan_string_top_inv_witness :
  state_invariants (st nested_call_1) /\ string_top_inv (st nested_call_2).
Proof.
  assert (Hinv : state_invariants (st nested_call_1)).
  { split; [split; [reflexivity | split; [vm_compute; split; discriminate | reflexivity]]|].
    intros _. vm_compute. discriminate. }
  split; [exact Hinv|].
  destruct (scan_string_top_inv (st nested_call_1) (lexer_at [BTICK; DQUOTE] 1)
              (valid_of [STRING_CONTENT; END_STR; BEGIN_INTERPOLATION]) Hinv)
    as [Hi | [(_ & Hsym & _) | [(_ & Hsym & _) | (_ & Hsym & _)]]];
    [exact Hi | vm_compute in Hsym; discriminate Hsym ..].
Defined.

(** The other two exceptions occur too, from states that satisfy the
    invariants: closing a hole that sits on another hole, and draining a
    dedent queued before a string was opened. *)
Lemma string_top_inv_other_exceptions :
  (state_invariants hole_in_hole /\
   ~ string_top_inv (call hole_in_hole [BTICK] 4 [END_INTERPOLATION])) /\
  (state_invariants string_with_pending /\
   0 < pending_end_blocks string_with_pending /\
   ~ string_top_inv (call string_with_pending (cstr "y") 5 [END_BLOCK])).
Proof.
  split; split.
  - split; [split; [reflexivity | split; [vm_compute; split; discriminate | reflexivity]]|].
    apply string_top_inv_not_in_string. reflexivity.
  - intros H. apply H; reflexivity.
  - split; [split; [reflexivity | split; [vm_compute; split; discriminate | reflexivity]]|].
    intros _. vm_compute. discriminate.
  - split; [reflexivity|]. intros H. apply H; reflexivity.
Qed.

(* ================================================================== *)
(** ** Counting frames from the top of the stack *)

Lemma firstn_snoc_nth {A : Type} (d : A) (l : list A) :
  forall i, (i < List.length l)%nat -> firstn (S i) l = firstn i l ++ [nth i l d].
Proof.
  induction l as [|x l IH]; intros i Hi; simpl in Hi; [lia|].
  destruct i as [|i]; [reflexivity|].
  change (firstn (S (S i)) (x :: l)) with (x :: firstn (S i) l).
  rewrite IH by lia. reflexivity.
Qed.

Lemma rev_firstn_S (stk : list Frame) i :
  (i < List.length stk)%nat ->
  rev (firstn (S i) stk) = nth i stk sentinel :: rev (firstn i stk).
Proof.
  intros Hi. rewrite (firstn_snoc_nth sentinel) by exact Hi.
  rewrite rev_app_distr. reflexivity.
Qed.

Lemma indented_frames_loop_spec stk :
  forall n count,
    (n <= List.length stk)%nat ->
    indented_frames_loop stk n count =
      count + Z.of_nat (List.length (take_while is_indented (rev (firstn n stk)))).
Proof.
  induction n as [|i IH]; intros count Hn.
  - simpl. lia.
  - rewrite rev_firstn_S by lia.
    cbn [indented_frames_loop take_while]. unfold is_indented at 1.
    destruct (FrameKind_eqb (kind (nth i stk sentinel)) FRAME_INDENTED).
    + rewrite IH by lia. cbn [List.length]. lia.
    + simpl. lia.
Qed.

Lemma dedent_loop_SS stk j col count :
  dedent_loop stk (S (S j)) col count =
    if indented_deeper_than col (nth (S j) stk sentinel)
    then dedent_loop stk (S j) col (count + 1)
    else count.
Proof. reflexivity. Qed.

Lemma dedent_loop_spec stk col :
  indented_deeper_than col (nth 0 stk sentinel) = false ->
  forall n count,
    (1 <= n <= List.length stk)%nat ->
    dedent_loop stk n col count =
      count + Z.of_nat (List.length
                          (take_while (indented_deeper_than col) (rev (firstn n stk)))).
Proof.
  intros Hbottom. induction n as [|i IH]; intros count Hn; [lia|].
  rewrite rev_firstn_S by lia.
  destruct i as [|j].
  - cbn [dedent_loop take_while]. rewrite Hbottom. simpl. lia.
  - rewrite dedent_loop_SS. cbn [take_while].
    destruct (indented_deeper_than col (nth (S j) stk sentinel)).
    + rewrite IH by lia. cbn [List.length]. lia.
    + simpl. lia.
Qed.

Lemma frames_from_top_cons s :
  (1 <= Z.to_nat (depth s) <= List.length (stack s))%nat ->
  frames_from_top s =
    top_frame s :: rev (firstn (Z.to_nat (depth s) - 1) (stack s)).
Proof.
  intros Hd. unfold frames_from_top, top_frame, frame_at.
  replace (Z.to_nat (depth s)) with (S (Z.to_nat (depth s) - 1)) at 1 by lia.
  rewrite rev_firstn_S by lia.
  replace (Z.to_nat (depth s - 1)) with (Z.to_nat (depth s) - 1)%nat by lia.
  reflexivity.
Qed.

Lemma Scanner_wf_depth_nat s :
  Scanner_wf s -> (1 <= Z.to_nat (depth s) <= List.length (stack s))%nat.
Proof.
  intros (Hlen & Hd & _). rewrite Hlen. unfold MAX_DEPTH in *. lia.
Qed.

Lemma get_column_nonneg lx : 0 <= get_column lx.
Proof. unfold get_column, u32. apply Z.mod_pos_bound. lia. Qed.

Lemma is_closer_not_eof lx : is_closer (lookahead lx) = true -> eof lx = false.
Proof.
  unfold lookahead, eof. destruct (chars lx); [discriminate|reflexivity].
Qed.

(** The top of the stack is indented: the run of INDENTED frames counted by
    [indented_frames_above_delimiter] has at least one frame. *)
Lemma indented_frames_above_delimiter_spec s :
  Scanner_wf s ->
  indented_frames_above_delimiter s = top_indented_run s.
Proof.
  intros Hwf. pose proof (Scanner_wf_depth_nat s Hwf) as Hd.
  unfold indented_frames_above_delimiter, top_indented_run, frames_from_top.
  rewrite indented_frames_loop_spec by lia. lia.
Qed.

Lemma top_indented_run_pos s :
  Scanner_wf s -> in_non_indented s = false -> 1 <= top_indented_run s.
Proof.
  intros Hwf Hind. pose proof (Scanner_wf_depth_nat s Hwf) as Hd.
  unfold top_indented_run. rewrite frames_from_top_cons by exact Hd.
  unfold in_non_indented in Hind. apply negb_false_iff in Hind.
  cbn [take_while]. unfold is_indented at 1. rewrite Hind.
  cbn [List.length]. lia.
Qed.

Lemma frames_to_pop_pos s col :
  Scanner_wf s -> in_non_indented s = false -> col < block_col (top_frame s) ->
  1 <= frames_to_pop s col.
Proof.
  intros Hwf Hind Hcol. pose proof (Scanner_wf_depth_nat s Hwf) as Hd.
  unfold frames_to_pop. rewrite frames_from_top_cons by exact Hd.
  unfold in_non_indented in Hind. apply negb_false_iff in Hind.
  cbn [take_while]. unfold indented_deeper_than at 1, is_indented. rewrite Hind.
  apply Z.ltb_lt in Hcol. rewrite Hcol.
  cbn [andb List.length]. lia.
Qed.

Lemma dedent_count_spec s col :
  Scanner_wf s -> in_non_indented s = false ->
  0 <= col < block_col (top_frame s) ->
  dedent_count s col = frames_to_pop s col.
Proof.
  intros Hwf Hind Hcol.
  pose proof (Scanner_wf_depth_nat s Hwf) as Hd.
  pose proof (frames_to_pop_pos s col Hwf Hind (proj2 Hcol)) as Hpos.
  destruct Hwf as (Hlen & Hdepth & Hbottom).
  unfold dedent_count. rewrite dedent_loop_spec.
  - fold (frames_from_top s). fold (frames_to_pop s col).
    destruct (0 + frames_to_pop s col =? 0) eqn:E; [apply Z.eqb_eq in E; lia | lia].
  - unfold frame_at in Hbottom. simpl in Hbottom. rewrite Hbottom.
    unfold indented_deeper_than, sentinel. simpl.
    apply Z.ltb_ge. lia.
  - lia.
Qed.

(** A dedent below the top frame's column happens above the bottom frame. *)
Lemma dedent_depth s col :
  Scanner_wf s -> 0 <= col < block_col (top_frame s) -> 1 < depth s.
Proof.
  intros (Hlen & Hdepth & Hbottom) Hcol.
  destruct (Z.eq_dec (depth s) 1) as [E|E]; [|lia].
  unfold top_frame in Hcol. rewrite E in Hcol. simpl in Hcol.
  rewrite Hbottom in Hcol. simpl in Hcol. lia.
Qed.

(* ================================================================== *)
(** ** Layout in an indented frame *)

Lemma scan_indented_unfold s lx valid lx1 at_newline :
  pending_taken s valid = false ->
  in_string s = false ->
  in_non_indented s = false ->
  skip_to_line_start lx = (lx1, at_newline) ->
  eof lx1 = false ->
  scan s lx valid =
    finish (start_block_phase s valid at_newline lx1 >>>
            auto_close_phase s valid >>>
            indentation_phase s valid at_newline)
           (fun lx2 => scan_token s lx2 valid).
Proof.
  intros Hp Hs Hind Hskip Heof.
  unfold scan, scan_layout, layout_indented.
  now rewrite Hp, Hs, Hind, Hskip, Heof.
Qed.

Lemma start_block_phase_skipped s valid lx :
  valid START_BLOCK = false \/ lookahead lx = chr "#" ->
  start_block_phase s valid true lx = Continue lx.
Proof.
  intros [Hv | Hla]; unfold start_block_phase.
  - now rewrite Hv.
  - destruct (valid START_BLOCK); [|reflexivity].
    simpl. rewrite Hla. reflexivity.
Qed.

(** C1, counterexample.  In an indented frame, after a newline and with
    the lookahead at a column below the top frame's block_col, three rules
    come before the dedent rule, and each gives another result with NEWLINE
    valid.  A closing parenthesis at column 3 under blocks at columns 2 and
    4: one frame is deeper than the column, yet NEWLINE queues the two
    dedents of the auto-close rule.  The end of the input: NEWLINE is the
    one of the end-of-input rule and queues nothing.  A block to be opened:
    START_BLOCK is emitted and a frame is pushed. *)
Lemma dedent_rule_is_preempted :
  (in_non_indented in_paren_blocks_2_4 = false /\
   skip_to_line_start (lexer_at (LF :: cstr "   )") 9)
   = (lexer_after_skip 4 3 (cstr ")"), true) /\
   get_column (lexer_after_skip 4 3 (cstr ")"))
   < block_col (top_frame in_paren_blocks_2_4) /\
   frames_to_pop in_paren_blocks_2_4 3 = 1 /\
   ok closer_on_dedented_line = true /\
   result_symbol (lex closer_on_dedented_line) = NEWLINE /\
   pending_end_blocks (st closer_on_dedented_line) = 2 /\
   pending_end_blocks (st closer_on_dedented_line)
   <> frames_to_pop in_paren_blocks_2_4 3) /\
  (in_non_indented in_block_4 = false /\
   skip_to_line_start (lexer_at [LF] 9) = (lexer_after_skip 1 0 [], true) /\
   get_column (lexer_after_skip 1 0 []) < block_col (top_frame in_block_4) /\
   frames_to_pop in_block_4 0 = 1 /\
   ok line_break_at_end = true /\
   result_symbol (lex line_break_at_end) = NEWLINE /\
   pending_end_blocks (st line_break_at_end) = 0 /\
   pending_end_blocks (st line_break_at_end) <> frames_to_pop in_block_4 0) /\
  (skip_to_line_start (lexer_at (LF :: cstr "x") 9)
   = (lexer_after_skip 1 0 (cstr "x"), true) /\
   get_column (lexer_after_skip 1 0 (cstr "x")) < block_col (top_frame in_block_4) /\
   valid_of [START_BLOCK; NEWLINE] NEWLINE = true /\
   ok block_request_on_dedented_line = true /\
   result_symbol (lex block_request_on_dedented_line) = START_BLOCK /\
   result_symbol (lex block_request_on_dedented_line) <> NEWLINE /\
   depth (st block_request_on_dedented_line) = depth in_block_4 + 1 /\
   pending_end_blocks (st block_request_on_dedented_line) = 0).
Proof. vm_compute. repeat split; discriminate. Qed.

(** C1, amended.  In an indented frame, when the call has crossed a newline
    and gets as far as the indentation comparison (it is not at end of
    input, START_BLOCK is not valid or the lookahead is [#], and the
    lookahead is no closing parenthesis, bracket or brace and no comma), and
    the column of the lookahead is strictly less than the top frame's
    block_col, the number of frames to pop is the number of contiguous
    topmost INDENTED frames whose block_col is greater than the column, and
    is at least one.  With NEWLINE valid the call stores that count in
    pending_end_blocks and emits NEWLINE, popping nothing; otherwise, with
    END_BLOCK valid, it stores the count minus one, pops exactly one frame
    and emits END_BLOCK. *)
Theorem dedent_after_newline s lx valid lx1 :
  Scanner_wf s ->
  pending_taken s valid = false ->
  in_string s = false ->
  in_non_indented s = false ->
  skip_to_line_start lx = (lx1, true) ->
  eof lx1 = false ->
  valid START_BLOCK = false \/ lookahead lx1 = chr "#" ->
  is_closer (lookahead lx1) = false ->
  get_column lx1 < block_col (top_frame s) ->
  1 <= frames_to_pop s (get_column lx1) /\
  dedent_count s (get_column lx1) = frames_to_pop s (get_column lx1) /\
  (valid NEWLINE = true ->
   scan s lx valid =
     emit {| stack := stack s;
             depth := depth s;
             pending_end_blocks := frames_to_pop s (get_column lx1);
             in_string := in_string s;
             eof_newline_emitted := eof_newline_emitted s |}
          lx1 NEWLINE) /\
  (valid NEWLINE = false -> valid END_BLOCK = true ->
   scan s lx valid =
     emit {| stack := stack s;
             depth := depth s - 1;
             pending_end_blocks := frames_to_pop s (get_column lx1) - 1;
             in_string := in_string s;
             eof_newline_emitted := eof_newline_emitted s |}
          lx1 END_BLOCK).
Proof.
  intros Hwf Hp Hs Hind Hskip Heof Hsb Hcl Hcol.
  pose proof (get_column_nonneg lx1) as Hcol0.
  assert (Hcount : dedent_count s (get_column lx1) = frames_to_pop s (get_column lx1))
    by (apply dedent_count_spec; auto; lia).
  assert (Hdepth : 1 < depth s)
    by (apply (dedent_depth s (get_column lx1)); auto; lia).
  split; [now apply frames_to_pop_pos|]. split; [exact Hcount|].
  rewrite (scan_indented_unfold s lx valid lx1 true) by assumption.
  rewrite start_block_phase_skipped by exact Hsb.
  cbn [and_then]. unfold auto_close_phase. rewrite Hcl. cbn [and_then].
  unfold indentation_phase.
  apply Z.ltb_lt in Hcol. rewrite Hcol. rewrite Hcount.
  split.
  - intros Hnl. rewrite Hnl. reflexivity.
  - intros Hnl Heb. rewrite Hnl, Heb. cbn [finish].
    unfold pop_frame. cbn [depth set_pending].
    apply Z.ltb_lt in Hdepth. rewrite Hdepth. reflexivity.
Qed.

Lemma dedent_after_newline_witness :
  scan in_block_4 (lexer_at (LF :: cstr "x") 9) (valid_of [NEWLINE]) =
    emit (set_pending in_block_4 1) (lexer_after_skip 1 0 (cstr "x")) NEWLINE.
Proof.
  assert (Hwf : Scanner_wf in_block_4).
  { split; [reflexivity | split; [vm_compute; split; discriminate | reflexivity]]. }
  pose proof (dedent_after_newline in_block_4 (lexer_at (LF :: cstr "x") 9)
                (valid_of [NEWLINE]) (lexer_after_skip 1 0 (cstr "x"))
                Hwf eq_refl eq_refl eq_refl eq_refl eq_refl
                (or_introl eq_refl) eq_refl eq_refl)
    as (_ & _ & Hnewline & _).
  exact (Hnewline eq_refl).
Defined.

(** C2, counterexample.  In front of a closing parenthesis, in the block
    at column 2 opened inside a parenthesis.  With START_BLOCK valid beside
    NEWLINE the call opens a block in front of the delimiter: it emits
    START_BLOCK, pushes a frame and queues nothing.  With NEWLINE valid and
    START_BLOCK not, the call queues the dedent and emits NEWLINE; but the
    next call, in which RPAREN is valid and END_BLOCK is not, consumes the
    parenthesis while the dedent is still queued and the INDENTED frame is
    still on top: the frames are not closed before the delimiter is
    consumed. *)
Lemma delimiter_consumed_before_frames_closed :
  (in_non_indented in_paren_block = false /\
   pending_taken in_paren_block (valid_of [START_BLOCK; NEWLINE]) = false /\
   in_string in_paren_block = false /\
   is_closer (lookahead (fst (skip_to_line_start (lexer_at (cstr " )") 3)))) = true /\
   valid_of [START_BLOCK; NEWLINE] NEWLINE = true /\
   ok block_request_at_closer = true /\
   result_symbol (lex block_request_at_closer) = START_BLOCK /\
   result_symbol (lex block_request_at_closer) <> NEWLINE /\
   depth (st block_request_at_closer) = depth in_paren_block + 1 /\
   pending_end_blocks (st block_request_at_closer) = 0) /\
  (ok closer_call_1 = true /\
   result_symbol (lex closer_call_1) = NEWLINE /\
   pending_end_blocks (st closer_call_1) = 1 /\
   lookahead (lex closer_call_1) = chr ")" /\
   ok closer_call_2 = true /\
   result_symbol (lex closer_call_2) = RPAREN /\
   chars (lex closer_call_2) = [] /\
   pending_end_blocks (st closer_call_2) = 1 /\
   depth (st closer_call_2) = depth in_paren_block /\
   kind (top_frame (st closer_call_2)) = FRAME_INDENTED).
Proof. vm_compute. repeat split; discriminate. Qed.

(** A queue of [n] dedents is drained by [n] calls in which END_BLOCK is
    valid, each popping a frame unless only the bottom one is left. *)
Lemma scan_repeat_drains n :
  forall s lx valid,
    1 <= depth s ->
    pending_end_blocks s = Z.of_nat n ->
    valid END_BLOCK = true ->
    scan_repeat n s lx valid =
      {| stack := stack s;
         depth := Z.max 1 (depth s - Z.of_nat n);
         pending_end_blocks := 0;
         in_string := in_string s;
         eof_newline_emitted := eof_newline_emitted s |}.
Proof.
  induction n as [|n IH]; intros s lx valid Hd Hp Hv.
  - cbn [scan_repeat]. destruct s as [stk d p i e]. cbn in *. subst p.
    f_equal. lia.
  - assert (Hscan : scan s lx valid = scan_pending s lx).
    { unfold scan, pending_taken.
      replace (0 <? pending_end_blocks s) with true
        by (symmetry; apply Z.ltb_lt; lia).
      now rewrite Hv. }
    cbn [scan_repeat]. rewrite Hscan. unfold scan_pending. cbn [st emit].
    rewrite IH.
    + unfold pop_frame. cbn [depth set_pending].
      destruct (1 <? depth s) eqn:E.
      * apply Z.ltb_lt in E. cbn. f_equal. lia.
      * apply Z.ltb_ge in E. cbn. f_equal. lia.
    + unfold pop_frame. cbn [depth set_pending].
      destruct (1 <? depth s) eqn:E; cbn; [apply Z.ltb_lt in E|]; lia.
    + unfold pop_frame. cbn [depth set_pending].
      destruct (1 <? depth s); cbn; lia.
    + exact Hv.
Qed.

(** C2, amended.  In an indented frame (not in string mode, no pending
    dedent taken, START_BLOCK not valid), when the lookahead is a closing
    parenthesis, bracket or brace or a comma: with NEWLINE valid the call
    sets pending_end_blocks to the number of contiguous topmost INDENTED
    frames, which is what indented_frames_above_delimiter returns and is at
    least one, and emits NEWLINE with the delimiter still ahead; that many
    further calls in which END_BLOCK is valid then empty the queue, each
    popping one frame but never the bottom one.  Otherwise, with END_BLOCK
    valid and depth > 1, the call pops exactly one frame and emits
    END_BLOCK. *)
Theorem auto_close_on_delimiter s lx valid lx1 at_newline :
  Scanner_wf s ->
  pending_taken s valid = false ->
  in_string s = false ->
  in_non_indented s = false ->
  skip_to_line_start lx = (lx1, at_newline) ->
  valid START_BLOCK = false ->
  is_closer (lookahead lx1) = true ->
  1 <= top_indented_run s /\
  indented_frames_above_delimiter s = top_indented_run s /\
  (valid NEWLINE = true ->
   scan s lx valid =
     emit {| stack := stack s;
             depth := depth s;
             pending_end_blocks := top_indented_run s;
             in_string := in_string s;
             eof_newline_emitted := eof_newline_emitted s |}
          lx1 NEWLINE /\
   is_closer (lookahead (lex (scan s lx valid))) = true /\
   forall lx' valid',
     valid' END_BLOCK = true ->
     scan_repeat (Z.to_nat (top_indented_run s)) (st (scan s lx valid)) lx' valid' =
       {| stack := stack s;
          depth := Z.max 1 (depth s - top_indented_run s);
          pending_end_blocks := 0;
          in_string := in_string s;
          eof_newline_emitted := eof_newline_emitted s |}) /\
  (valid NEWLINE = false -> valid END_BLOCK = true -> 1 < depth s ->
   scan s lx valid =
     emit {| stack := stack s;
             depth := depth s - 1;
             pending_end_blocks := pending_end_blocks s;
             in_string := in_string s;
             eof_newline_emitted := eof_newline_emitted s |}
          lx1 END_BLOCK).
Proof.
  intros Hwf Hp Hs Hind Hskip Hsb Hcl.
  pose proof (top_indented_run_pos s Hwf Hind) as Hpos.
  pose proof (indented_frames_above_delimiter_spec s Hwf) as Hcount.
  split; [exact Hpos|]. split; [exact Hcount|].
  rewrite (scan_indented_unfold s lx valid lx1 at_newline)
    by (auto using is_closer_not_eof).
  unfold start_block_phase. rewrite Hsb. cbn [and_then].
  unfold auto_close_phase. rewrite Hcl, Hcount.
  split.
  - intros Hnl. rewrite Hnl. cbn [and_then finish].
    replace (0 <? top_indented_run s) with true by (symmetry; apply Z.ltb_lt; lia).
    split; [reflexivity|]. split; [exact Hcl|].
    intros lx' valid' Heb. cbn [st emit].
    destruct Hwf as (_ & Hd & _).
    rewrite (scan_repeat_drains (Z.to_nat (top_indented_run s)))
      by (cbn [depth pending_end_blocks set_pending]; auto; lia).
    cbn [stack depth in_string eof_newline_emitted set_pending].
    now rewrite Z2Nat.id by lia.
  - intros Hnl Heb Hdepth. rewrite Hnl, Heb.
    unfold in_non_indented in Hind. apply negb_false_iff in Hind. rewrite Hind.
    apply Z.ltb_lt in Hdepth. rewrite Hdepth. cbn [andb and_then finish].
    unfold pop_frame. rewrite Hdepth. reflexivity.
Qed.

Lemma auto_close_on_delimiter_witness :
  scan in_paren_block (lexer_at (cstr " )") 3) (valid_of [NEWLINE; RPAREN]) =
    emit (set_pending in_paren_block 1) (lexer_after_skip 1 4 (cstr ")")) NEWLINE.
Proof.
  assert (Hwf : Scanner_wf in_paren_block).
  { split; [reflexivity | split; [vm_compute; split; discriminate | reflexivity]]. }
  pose proof (auto_close_on_delimiter in_paren_block (lexer_at (cstr " )") 3)
                (valid_of [NEWLINE; RPAREN]) (lexer_after_skip 1 4 (cstr ")")) false
                Hwf eq_refl eq_refl eq_refl eq_refl eq_refl eq_refl)
    as (_ & _ & Hnewline & _).
  exact (proj1 (Hnewline eq_refl)).
Defined.

(* ================================================================== *)
(** ** Runs of code points *)

Lemma advance_cons lx c rest :
  chars lx = c :: rest ->
  chars (advance lx) = rest /\
  position (advance lx) = position lx + 1 /\
  token_start (advance lx) = token_start lx /\
  token_end (advance lx) = token_end lx /\
  result_symbol (advance lx) = result_symbol lx.
Proof.
  intros H. unfold advance, ts_advance. rewrite H. simpl. repeat split.
Qed.

Lemma advance_nil lx : chars lx = [] -> advance lx = lx.
Proof. intros H. unfold advance, ts_advance. now rewrite H. Qed.

Lemma lookahead_cons lx c rest : chars lx = c :: rest -> lookahead lx = c.
Proof. intros H. unfold lookahead. now rewrite H. Qed.

Lemma lookahead_hd lx : lookahead lx = hd 0 (chars lx).
Proof. unfold lookahead. destruct (chars lx); reflexivity. Qed.

(** [while (p(lookahead)) advance] consumes the longest prefix of the input
    on which [p] holds, and touches neither the token start, nor a marked
    end, nor the result symbol. *)
Lemma while_step_advance_run p :
  forall fuel lx,
    (List.length (chars lx) <= fuel)%nat ->
    chars (while_step advance p fuel lx) = drop_while p (chars lx) /\
    position (while_step advance p fuel lx) =
      position lx + Z.of_nat (List.length (take_while p (chars lx))) /\
    token_start (while_step advance p fuel lx) = token_start lx /\
    token_end (while_step advance p fuel lx) = token_end lx /\
    result_symbol (while_step advance p fuel lx) = result_symbol lx.
Proof.
  induction fuel as [|f IH]; intros lx Hlen.
  - destruct (chars lx) eqn:Hc; simpl in Hlen; [|lia].
    simpl. rewrite Hc. simpl. repeat split. lia.
  - cbn [while_step]. destruct (chars lx) as [|c rest] eqn:Hc.
    + rewrite (advance_nil lx Hc).
      destruct (p (lookahead lx)).
      * specialize (IH lx). rewrite Hc in IH. apply IH. simpl. lia.
      * rewrite Hc. simpl. repeat split. lia.
    + rewrite (lookahead_cons lx c rest Hc). cbn [drop_while take_while].
      destruct (p c).
      * destruct (advance_cons lx c rest Hc) as (Ha & Hb & Hd & He & Hf).
        destruct (IH (advance lx)) as (I1 & I2 & I3 & I4 & I5).
        { rewrite Ha. simpl in Hlen. lia. }
        rewrite I1, I2, I3, I4, I5, Ha, Hb, Hd, He, Hf.
        cbn [List.length]. repeat split. lia.
      * rewrite Hc. simpl. repeat split. lia.
Qed.

Lemma while_advance_run p lx :
  chars (while_advance p lx) = drop_while p (chars lx) /\
  position (while_advance p lx) =
    position lx + Z.of_nat (List.length (take_while p (chars lx))) /\
  token_start (while_advance p lx) = token_start lx /\
  token_end (while_advance p lx) = token_end lx /\
  result_symbol (while_advance p lx) = result_symbol lx.
Proof. apply while_step_advance_run. lia. Qed.

(* ================================================================== *)
(** ** Reaching the token scanners *)

Lemma scan_reaches_token s lx valid lx1 :
  pending_taken s valid = false ->
  in_string s = false ->
  scan_layout s lx valid = Continue lx1 ->
  scan s lx valid = scan_token s lx1 valid.
Proof.
  intros Hp Hs Hl. unfold scan. now rewrite Hp, Hs, Hl.
Qed.

Lemma eof_cons lx c rest : chars lx = c :: rest -> eof lx = false.
Proof. intros H. unfold eof. now rewrite H. Qed.

(** Decides the tests of [scan_token] on a lookahead that is a literal. *)
Ltac decide_tests :=
  repeat match goal with
         | |- context [Z.eqb ?a ?b] =>
             first [ change (Z.eqb a b) with false | change (Z.eqb a b) with true ]
         | |- context [is_upper ?a] =>
             first [ change (is_upper a) with false | change (is_upper a) with true ]
         | |- context [is_lower ?a] =>
             first [ change (is_lower a) with false | change (is_lower a) with true ]
         | |- context [is_digit ?a] =>
             first [ change (is_digit a) with false | change (is_digit a) with true ]
         end;
  cbn [andb orb negb].

Lemma scan_token_digit_0 s lx valid rest :
  chars lx = chr "0" :: rest ->
  valid INT_LITERAL = true ->
  scan_token s lx valid =
    if fst (scan_int_literal lx)
    then emit s (mark_end (snd (scan_int_literal lx))) INT_LITERAL
    else fail s (snd (scan_int_literal lx)).
Proof.
  intros Hc Hv. unfold scan_token.
  rewrite (eof_cons lx _ _ Hc), (lookahead_cons lx _ _ Hc), Hv.
  decide_tests.
  destruct (scan_int_literal lx) as [found lx1]. reflexivity.
Qed.

Lemma scan_token_quote s lx valid rest :
  chars lx = SQUOTE :: rest ->
  scan_token s lx valid = scan_quote s lx valid.
Proof.
  intros Hc. unfold scan_token.
  rewrite (eof_cons lx _ _ Hc), (lookahead_cons lx _ _ Hc).
  decide_tests. reflexivity.
Qed.

(* ================================================================== *)
(** ** Integer literals *)

Lemma scan_int_literal_prefix lx p rest :
  chars lx = chr "0" :: p :: rest ->
  p = chr "x" \/ p = chr "b" ->
  scan_int_literal lx =
    if base_digit p (hd 0 rest)
    then (true, while_advance (base_digit p) (advance (advance lx)))
    else (false, advance (advance lx)).
Proof.
  intros Hc Hp.
  destruct (advance_cons lx _ _ Hc) as (Hc1 & _).
  destruct (advance_cons (advance lx) _ _ Hc1) as (Hc2 & _).
  unfold scan_int_literal.
  rewrite (lookahead_cons lx _ _ Hc), (lookahead_cons (advance lx) _ _ Hc1).
  rewrite (lookahead_hd (advance (advance lx))), Hc2.
  destruct Hp as [-> | ->]; decide_tests.
  - change (base_digit (chr "x")) with is_hex_or_underscore.
    unfold is_hex_or_underscore.
    destruct (is_hex (hd 0 rest)); cbn [negb andb orb]; [reflexivity|].
    destruct (hd 0 rest =? chr "_"); reflexivity.
  - change (base_digit (chr "b")) with is_bin_or_underscore.
    unfold is_bin_or_underscore.
    destruct (is_bin (hd 0 rest)); cbn [negb andb orb]; [reflexivity|].
    destruct (hd 0 rest =? chr "_"); reflexivity.
Qed.

(** C8. When a call reaches the integer-literal scanner with INT_LITERAL
    valid on an input that starts with the prefix 0x or 0b: if the code
    point after the prefix is neither a digit of that base nor an
    underscore, the call returns false, the state is untouched and no result
    symbol is set; if it is one, the call emits INT_LITERAL, whose extent
    runs from the 0 to the end of the longest run of base digits and
    underscores after the prefix. *)
Theorem int_literal_after_prefix s lx valid lx1 p rest :
  pending_taken s valid = false ->
  in_string s = false ->
  scan_layout s lx valid = Continue lx1 ->
  chars lx1 = chr "0" :: p :: rest ->
  p = chr "x" \/ p = chr "b" ->
  valid INT_LITERAL = true ->
  (base_digit p (hd 0 rest) = false ->
   ok (scan s lx valid) = false /\
   st (scan s lx valid) = s /\
   result_symbol (lex (scan s lx valid)) = result_symbol lx1) /\
  (base_digit p (hd 0 rest) = true ->
   ok (scan s lx valid) = true /\
   st (scan s lx valid) = s /\
   result_symbol (lex (scan s lx valid)) = INT_LITERAL /\
   chars (lex (scan s lx valid)) = drop_while (base_digit p) rest /\
   token_start (lex (scan s lx valid)) = token_start lx1 /\
   token_end (lex (scan s lx valid)) =
     Some (position lx1 + 2
           + Z.of_nat (List.length (take_while (base_digit p) rest)))).
Proof.
  intros Hpend Hs Hl Hc Hp Hv.
  rewrite (scan_reaches_token s lx valid lx1 Hpend Hs Hl).
  rewrite (scan_token_digit_0 s lx1 valid _ Hc Hv).
  rewrite (scan_int_literal_prefix lx1 p rest Hc Hp).
  destruct (advance_cons lx1 _ _ Hc) as (Hc1 & Hp1 & Hs1 & He1 & Hr1).
  destruct (advance_cons (advance lx1) _ _ Hc1) as (Hc2 & Hp2 & Hs2 & He2 & Hr2).
  split; intros Hd; rewrite Hd; cbn [fst snd fail emit ok st lex].
  - repeat split. now rewrite Hr2, Hr1.
  - destruct (while_advance_run (base_digit p) (advance (advance lx1)))
      as (Wc & Wp & Ws & _).
    cbn [set_result mark_end chars token_start token_end result_symbol].
    rewrite Wc, Wp, Ws, Hc2, Hp2, Hp1, Hs2, Hs1.
    repeat split. f_equal. lia.
Qed.

Lemma int_literal_after_prefix_witness :
  ok (scan create (lexer_at (cstr "  0x1F_ g") 0) (valid_of [INT_LITERAL])) = true /\
  token_end (lex (scan create (lexer_at (cstr "  0x1F_ g") 0) (valid_of [INT_LITERAL])))
    = Some 7 /\
  ok (scan create (lexer_at (cstr "  0xg") 0) (valid_of [INT_LITERAL])) = false.
Proof.
  pose proof (int_literal_after_prefix create (lexer_at (cstr "  0x1F_ g") 0)
                (valid_of [INT_LITERAL]) (lexer_after_skip 2 2 (cstr "0x1F_ g"))
                (chr "x") (cstr "1F_ g")
                eq_refl eq_refl eq_refl eq_refl (or_introl eq_refl) eq_refl)
    as [_ Hdigits].
  pose proof (int_literal_after_prefix create (lexer_at (cstr "  0xg") 0)
                (valid_of [INT_LITERAL]) (lexer_after_skip 2 2 (cstr "0xg"))
                (chr "x") (cstr "g")
                eq_refl eq_refl eq_refl eq_refl (or_introl eq_refl) eq_refl)
    as [Hnone _].
  destruct (Hdigits eq_refl) as (Hok & _ & _ & _ & _ & Hend).
  destruct (Hnone eq_refl) as (Hfail & _).
  split; [exact Hok|]. split; [exact Hend | exact Hfail].
Defined.

(* ================================================================== *)
(** ** Word buffers: at most 63 code points are taken *)

(** [take_word] consumes the longest prefix of the input on which [p] holds,
    cut short when the word reaches 63 code points. *)
Lemma take_word_loop_run p (Hp0 : p 0 = false) :
  forall fuel word lx,
    (List.length (chars lx) <= fuel)%nat ->
    (List.length word <= 63)%nat ->
    let k := Nat.min (List.length (take_while p (chars lx))) (63 - List.length word) in
    List.length (fst (take_word_loop p fuel word lx)) = (List.length word + k)%nat /\
    chars (snd (take_word_loop p fuel word lx)) = skipn k (chars lx) /\
    position (snd (take_word_loop p fuel word lx)) = position lx + Z.of_nat k /\
    token_start (snd (take_word_loop p fuel word lx)) = token_start lx /\
    token_end (snd (take_word_loop p fuel word lx)) = token_end lx /\
    result_symbol (snd (take_word_loop p fuel word lx)) = result_symbol lx.
Proof.
  induction fuel as [|f IH]; intros word lx Hlen Hword k; subst k.
  - destruct (chars lx) eqn:Hc; simpl in Hlen; [|lia].
    simpl. rewrite Hc. simpl. repeat split; lia.
  - cbn [take_word_loop]. destruct (chars lx) as [|c rest] eqn:Hc.
    + unfold lookahead. rewrite Hc, Hp0. simpl. rewrite Hc.
      repeat split; lia.
    + rewrite (lookahead_cons lx c rest Hc). cbn [take_while].
      destruct (p c); cbn [andb].
      * destruct (Z.of_nat (List.length word) <? 63) eqn:Hlt.
        -- apply Z.ltb_lt in Hlt.
           destruct (advance_cons lx c rest Hc) as (Ha & Hb & Hd & He & Hf).
           destruct (IH (word ++ [to_char c]) (advance lx)) as (I1 & I2 & I3 & I4 & I5 & I6).
           { rewrite Ha. simpl in Hlen. lia. }
           { rewrite length_app. simpl. lia. }
           rewrite I1, I2, I3, I4, I5, I6, Ha, Hb, Hd, He, Hf.
           rewrite length_app. cbn [List.length].
           replace (Nat.min (S (List.length (take_while p rest))) (63 - List.length word))
             with (S (Nat.min (List.length (take_while p rest))
                              (63 - (List.length word + 1)))) by lia.
           cbn [skipn]. repeat split; lia.
        -- apply Z.ltb_ge in Hlt.
           replace (63 - List.length word)%nat with 0%nat by lia.
           rewrite Nat.min_0_r. simpl. rewrite Hc. repeat split; lia.
      * simpl. rewrite Hc. repeat split; lia.
Qed.

Lemma take_word_run p (Hp0 : p 0 = false) word lx :
  (List.length word <= 63)%nat ->
  let k := Nat.min (List.length (take_while p (chars lx))) (63 - List.length word) in
  List.length (fst (take_word p word lx)) = (List.length word + k)%nat /\
  chars (snd (take_word p word lx)) = skipn k (chars lx) /\
  position (snd (take_word p word lx)) = position lx + Z.of_nat k /\
  token_start (snd (take_word p word lx)) = token_start lx /\
  token_end (snd (take_word p word lx)) = token_end lx /\
  result_symbol (snd (take_word p word lx)) = result_symbol lx.
Proof. intros Hw. apply take_word_loop_run; auto. Qed.

Lemma skipn_take_while {A : Type} (p : A -> bool) (l : list A) :
  skipn (List.length (take_while p l)) l = drop_while p l.
Proof.
  induction l as [|x l IH]; [reflexivity|].
  simpl. destruct (p x); [exact IH | reflexivity].
Qed.

Lemma lookup_keyword_long word :
  (8 < List.length word)%nat -> lookup_keyword word = LOWER_ID.
Proof.
  intros Hlen. unfold lookup_keyword.
  destruct (find _ keywords) as [kw|] eqn:Hfind; [|reflexivity].
  apply find_some in Hfind. destruct Hfind as [Hin Hkw].
  apply andb_true_iff in Hkw. destruct Hkw as [Hl _]. apply Z.eqb_eq in Hl.
  unfold keywords in Hin. simpl in Hin.
  repeat (destruct Hin as [Hin|Hin]; [subst kw; simpl in Hl; lia|]).
  contradiction.
Qed.

Lemma take_word_stop p word lx :
  p (lookahead lx) = false -> take_word p word lx = (word, lx).
Proof.
  intros H. unfold take_word. destruct (List.length (chars lx)); [reflexivity|].
  simpl. now rewrite H.
Qed.

Lemma is_lower_range c : is_lower c = true -> 97 <= c <= 122.
Proof.
  unfold is_lower. intros H. apply andb_true_iff in H. destruct H as [H1 H2].
  apply Z.leb_le in H1, H2. change (chr "a") with 97 in H1.
  change (chr "z") with 122 in H2. lia.
Qed.

Lemma is_id_char_0 : is_id_char 0 = false.
Proof. reflexivity. Qed.

Lemma nth_take_while {A : Type} (p : A -> bool) (d : A) (l : list A) :
  forall n, (n < List.length (take_while p l))%nat ->
            hd d (skipn n l) = nth n l d /\ p (nth n l d) = true.
Proof.
  induction l as [|x l IH]; intros n Hn; simpl in Hn; [lia|].
  destruct (p x) eqn:E; simpl in Hn; [|lia].
  destruct n as [|n]; [simpl; auto|].
  simpl. apply IH. lia.
Qed.

(** Dispatch of [scan_token] on a lowercase letter. *)
Lemma scan_token_lower s lx valid c rest :
  chars lx = c :: rest ->
  is_lower c = true ->
  scan_token s lx valid =
    if negb (token_eqb (fst (scan_lower_id_or_keyword lx valid)) TOKEN_COUNT)
       && valid (fst (scan_lower_id_or_keyword lx valid))
    then emit s (snd (scan_lower_id_or_keyword lx valid))
              (fst (scan_lower_id_or_keyword lx valid))
    else fail s (snd (scan_lower_id_or_keyword lx valid)).
Proof.
  intros Hc Hlow. pose proof (is_lower_range c Hlow) as Hr.
  unfold scan_token.
  rewrite (eof_cons lx _ _ Hc), (lookahead_cons lx _ _ Hc), Hlow.
  repeat match goal with
         | |- context [c =? ?k] =>
             let v := eval vm_compute in k in
             replace (c =? k) with false
               by (symmetry; apply Z.eqb_neq; change k with v; lia)
         end.
  replace (is_upper c) with false.
  2:{ symmetry. unfold is_upper. apply andb_false_iff. right.
      apply Z.leb_gt. change (chr "Z") with 90. lia. }
  cbn [andb orb].
  destruct (scan_lower_id_or_keyword lx valid) as [tok lx1]. reflexivity.
Qed.

(** An identifier of 64 bytes or more that starts with a lowercase letter:
    the token stops after 63 bytes, in front of an identifier character. *)
Lemma long_lower_identifier_cut s lx valid lx1 c rest :
  pending_taken s valid = false ->
  in_string s = false ->
  scan_layout s lx valid = Continue lx1 ->
  chars lx1 = c :: rest ->
  is_lower c = true ->
  (63 <= List.length (take_while is_id_char rest))%nat ->
  valid LOWER_ID = true ->
  ok (scan s lx valid) = true /\
  result_symbol (lex (scan s lx valid)) = LOWER_ID /\
  token_start (lex (scan s lx valid)) = token_start lx1 /\
  token_end (lex (scan s lx valid)) = Some (position lx1 + 63) /\
  chars (lex (scan s lx valid)) = skipn 62 rest /\
  is_id_char (hd 0 (chars (lex (scan s lx valid)))) = true.
Proof.
  intros Hpend Hs Hl Hc Hlow Hlong Hv.
  pose proof (is_lower_range c Hlow) as Hr.
  rewrite (scan_reaches_token s lx valid lx1 Hpend Hs Hl).
  rewrite (scan_token_lower s lx1 valid c rest Hc Hlow).
  unfold scan_lower_id_or_keyword.
  rewrite take_word_stop.
  2:{ rewrite (lookahead_cons lx1 _ _ Hc). unfold is_underscore.
      apply Z.eqb_neq. change (chr "_") with 95. lia. }
  rewrite (lookahead_cons lx1 _ _ Hc), Hlow. cbn [negb app].
  destruct (advance_cons lx1 c rest Hc) as (Ha & Hb & Hd & He & Hf).
  destruct (take_word_run is_id_char is_id_char_0 [to_char c] (advance lx1))
    as (W1 & W2 & W3 & W4 & W5 & W6); [simpl; lia|].
  rewrite Ha in W1, W2, W3.
  replace (Nat.min (List.length (take_while is_id_char rest))
                   (63 - List.length [to_char c])) with 62%nat in W1, W2, W3
    by (simpl; lia).
  destruct (take_word is_id_char [to_char c] (advance lx1)) as [word lx2].
  cbn [fst snd] in *.
  rewrite lookup_keyword_long by (rewrite W1; simpl; lia).
  change (negb (token_eqb LOWER_ID LOWER_ID)) with false.
  cbn [andb fst snd]. change (negb (token_eqb LOWER_ID TOKEN_COUNT)) with true.
  rewrite Hv. cbn [andb emit ok lex set_result mark_end result_symbol token_start
                   token_end chars].
  rewrite W2, W3, W4, Hb, Hd.
  repeat split.
  - f_equal. lia.
  - destruct (nth_take_while is_id_char 0 rest 62) as [Hhd Hp]; [lia|].
    now rewrite Hhd.
Qed.

(** C7, at identifiers of 64 letters.  The LOWER_ID (UPPER_ID) token ends
    after 63 bytes and the 64th letter is left in the input, although the
    whole input is one run of identifier characters. *)
Theorem identifier_of_64_letters_is_cut :
  List.length (take_while is_id_char long_identifier) = 64%nat /\
  ok (scan create (lexer_at long_identifier 0) (valid_of [LOWER_ID])) = true /\
  result_symbol (lex (scan create (lexer_at long_identifier 0)
                           (valid_of [LOWER_ID]))) = LOWER_ID /\
  token_end (lex (scan create (lexer_at long_identifier 0)
                       (valid_of [LOWER_ID]))) = Some 63 /\
  chars (lex (scan create (lexer_at long_identifier 0)
                   (valid_of [LOWER_ID]))) = [chr "a"] /\
  List.length (take_while is_id_char long_upper_identifier) = 64%nat /\
  ok (scan create (lexer_at long_upper_identifier 0) (valid_of [UPPER_ID])) = true /\
  result_symbol (lex (scan create (lexer_at long_upper_identifier 0)
                           (valid_of [UPPER_ID]))) = UPPER_ID /\
  token_end (lex (scan create (lexer_at long_upper_identifier 0)
                       (valid_of [UPPER_ID]))) = Some 63 /\
  chars (lex (scan create (lexer_at long_upper_identifier 0)
                   (valid_of [UPPER_ID]))) = [chr "a"].
Proof. vm_compute. repeat split. Qed.

(* ================================================================== *)
(** ** Labels and character literals *)

(** The label path of a single quote, for a body that fits the 63-byte
    buffer: CHAR_LITERAL exactly when the body is one letter, a single quote
    follows and CHAR_LITERAL is valid; LABEL over the quote and the body in
    every other case. *)
Lemma label_or_char_literal s lx valid lx1 c rest :
  pending_taken s valid = false ->
  in_string s = false ->
  scan_layout s lx valid = Continue lx1 ->
  chars lx1 = SQUOTE :: c :: rest ->
  is_lower c = true ->
  valid LABEL = true ->
  (List.length (take_while is_id_char rest) <= 62)%nat ->
  ((hd 0 (drop_while is_id_char rest) =? SQUOTE)
   && (Nat.eqb (List.length (take_while is_id_char rest)) 0)
   && valid CHAR_LITERAL = true ->
   ok (scan s lx valid) = true /\
   result_symbol (lex (scan s lx valid)) = CHAR_LITERAL /\
   st (scan s lx valid) = s /\
   token_start (lex (scan s lx valid)) = token_start lx1 /\
   token_end (lex (scan s lx valid)) = token_end lx1 /\
   position (lex (scan s lx valid)) = position lx1 + 3 /\
   chars (lex (scan s lx valid)) = tl (drop_while is_id_char rest)) /\
  ((hd 0 (drop_while is_id_char rest) =? SQUOTE)
   && (Nat.eqb (List.length (take_while is_id_char rest)) 0)
   && valid CHAR_LITERAL = false ->
   ok (scan s lx valid) = true /\
   result_symbol (lex (scan s lx valid)) = LABEL /\
   st (scan s lx valid) = s /\
   token_start (lex (scan s lx valid)) = token_start lx1 /\
   token_end (lex (scan s lx valid)) =
     Some (position lx1 + 2
           + Z.of_nat (List.length (take_while is_id_char rest))) /\
   chars (lex (scan s lx valid)) = drop_while is_id_char rest).
Proof.
  intros Hpend Hs Hl Hc Hlow Hv Hfit.
  rewrite (scan_reaches_token s lx valid lx1 Hpend Hs Hl).
  rewrite (scan_token_quote s lx1 valid _ Hc).
  unfold scan_quote.
  destruct (advance_cons lx1 _ _ Hc) as (Ha & Hb & Hd & He & Hf).
  destruct (advance_cons (advance lx1) _ _ Ha) as (Ha' & Hb' & Hd' & He' & Hf').
  rewrite (lookahead_cons (advance lx1) _ _ Ha), Hlow, Hv. cbn [andb].
  destruct (take_word_run is_id_char is_id_char_0 [to_char c] (advance (advance lx1)))
    as (W1 & W2 & W3 & W4 & W5 & W6); [simpl; lia|].
  rewrite Ha' in W1, W2, W3.
  replace (Nat.min (List.length (take_while is_id_char rest))
                   (63 - List.length [to_char c]))
    with (List.length (take_while is_id_char rest)) in W1, W2, W3
    by (simpl; lia).
  rewrite skipn_take_while in W2.
  destruct (take_word is_id_char [to_char c] (advance (advance lx1))) as [buf lx2].
  cbn [fst snd] in *.
  rewrite (lookahead_hd lx2), W2, W1.
  replace (Z.of_nat (List.length [to_char c]
                     + List.length (take_while is_id_char rest)) =? 1)
    with (Nat.eqb (List.length (take_while is_id_char rest)) 0).
  2:{ cbn [List.length].
      destruct (List.length (take_while is_id_char rest)) as [|n].
      - reflexivity.
      - simpl Nat.eqb. symmetry. apply Z.eqb_neq. lia. }
  split; intros Hdec; rewrite Hdec;
    cbn [emit ok st lex set_result mark_end result_symbol token_start token_end
         chars position].
  - apply andb_true_iff in Hdec. destruct Hdec as [Hdec _].
    apply andb_true_iff in Hdec. destruct Hdec as [Hq Hn].
    apply Z.eqb_eq in Hq.
    destruct (drop_while is_id_char rest) as [|q after] eqn:Hdrop;
      [discriminate Hq|].
    destruct (advance_cons lx2 _ _ W2) as (A1 & A2 & A3 & A4 & A5).
    rewrite A1, A2, A3, A4, W3, W4, W5, Hb', Hb, Hd', Hd, He', He.
    apply Nat.eqb_eq in Hn. rewrite Hn.
    repeat split. lia.
  - rewrite W2, W3, W4, Hb', Hb, Hd', Hd.
    repeat split. f_equal. lia.
Qed.

(** C6, at a label of 64 letters.  With LABEL and CHAR_LITERAL valid, the
    call emits LABEL, but the token covers the quote and only 63 of the 64
    letters of the body: it ends at offset 64 of 65 and the last letter is
    left in the input. *)
Theorem label_of_64_letters_is_cut :
  List.length (take_while is_id_char (tl long_label)) = 64%nat /\
  ok (scan create (lexer_at long_label 0) (valid_of [LABEL; CHAR_LITERAL])) = true /\
  result_symbol (lex (scan create (lexer_at long_label 0)
                           (valid_of [LABEL; CHAR_LITERAL]))) = LABEL /\
  token_start (lex (scan create (lexer_at long_label 0)
                         (valid_of [LABEL; CHAR_LITERAL]))) = 0 /\
  token_end (lex (scan create (lexer_at long_label 0)
                       (valid_of [LABEL; CHAR_LITERAL]))) = Some 64 /\
  chars (lex (scan create (lexer_at long_label 0)
                   (valid_of [LABEL; CHAR_LITERAL]))) = [chr "a"].
Proof. vm_compute. repeat split. Qed.

(* ================================================================== *)
(** ** Serialisation round trip *)

Lemma array_set_length stk : forall i f, List.length (array_set stk i f) = List.length stk.
Proof.
  induction stk as [|x stk IH]; intros i f; [reflexivity|].
  destruct i; simpl; [reflexivity | now rewrite IH].
Qed.

Lemma nth_array_set_same stk : forall i f,
  (i < List.length stk)%nat -> nth i (array_set stk i f) sentinel = f.
Proof.
  induction stk as [|x stk IH]; intros i f Hi; simpl in Hi; [lia|].
  destruct i; simpl; [reflexivity | apply IH; lia].
Qed.

Lemma nth_array_set_other stk : forall i k f,
  k <> i -> nth k (array_set stk i f) sentinel = nth k stk sentinel.
Proof.
  induction stk as [|x stk IH]; intros i k f Hk; [reflexivity|].
  destruct i, k; simpl; try reflexivity; [lia | apply IH; lia].
Qed.

Lemma encode_frames_length stk : forall n i,
  List.length (encode_frames stk i n) = (3 * n)%nat.
Proof.
  induction n as [|n IH]; intros i; [reflexivity|].
  cbn [encode_frames]. rewrite length_app, IH. simpl. lia.
Qed.

Lemma serialize_frames_spec bufsize s :
  forall n i buffer,
    i + Z.of_nat n <= depth s ->
    Z.of_nat (List.length buffer) + 3 * Z.of_nat n <= bufsize ->
    serialize_frames bufsize s n i buffer = buffer ++ encode_frames (stack s) i n.
Proof.
  induction n as [|n IH]; intros i buffer Hd Hb.
  - simpl. now rewrite app_nil_r.
  - cbn [serialize_frames encode_frames].
    replace (i <? depth s) with true by (symmetry; apply Z.ltb_lt; lia).
    replace (Z.of_nat (List.length buffer) + 3 <=? bufsize) with true
      by (symmetry; apply Z.leb_le; lia).
    cbn [andb]. rewrite IH.
    + now rewrite <- app_assoc.
    + lia.
    + rewrite length_app. cbn [List.length]. lia.
Qed.

Lemma kind_byte_roundtrip k :
  four_kinds k -> FrameKind_of_byte (u8 (FrameKind_code k)) = k.
Proof. intros [-> | [-> | [-> | ->]]]; reflexivity. Qed.

Lemma block_col_bytes_roundtrip c :
  0 <= c < 65536 ->
  u16 (Z.lor (Z.land c 255) (Z.shiftl (Z.land (Z.shiftr c 8) 255) 8)) = c.
Proof.
  intros Hc. change 255 with (Z.ones 8).
  rewrite !Z.land_ones by lia.
  rewrite Z.shiftr_div_pow2, Z.shiftl_mul_pow2 by lia.
  assert (Hdisj : Z.land (c mod 2 ^ 8) ((c / 2 ^ 8) mod 2 ^ 8 * 2 ^ 8) = 0).
  { apply Z.bits_inj'. intros n Hn. rewrite Z.land_spec, Z.bits_0.
    destruct (Z.lt_ge_cases n 8) as [Hlt | Hge].
    - rewrite Z.mul_pow2_bits_low by lia. apply andb_false_r.
    - rewrite Z.mod_pow2_bits_high by lia. reflexivity. }
  pose proof (Z.add_lor_land (c mod 2 ^ 8) ((c / 2 ^ 8) mod 2 ^ 8 * 2 ^ 8)) as Hadd.
  rewrite Hdisj in Hadd. rewrite Z.add_0_r in Hadd. rewrite Hadd.
  change (2 ^ 8) with 256. unfold u16.
  rewrite (Z.mod_small (c / 256) 256).
  - rewrite Z.add_comm, Z.mul_comm, <- Z.div_mod by lia.
    apply Z.mod_small. lia.
  - split; [apply Z.div_pos; lia | apply Z.div_lt_upper_bound; lia].
Qed.

Lemma decode_encode_frame f :
  four_kinds (kind f) -> 0 <= block_col f < 65536 ->
  decode_frame (u8 (FrameKind_code (kind f)))
               (Z.land (block_col f) 255)
               (Z.land (Z.shiftr (block_col f) 8) 255) = f.
Proof.
  intros Hk Hc. unfold decode_frame.
  rewrite kind_byte_roundtrip, block_col_bytes_roundtrip by assumption.
  destruct f; reflexivity.
Qed.

Lemma byte_at_app pre x tl pos :
  Z.of_nat (List.length pre) = pos -> byte_at (pre ++ x :: tl) pos = x.
Proof.
  intros H. unfold byte_at. subst pos. rewrite Nat2Z.id. apply nth_middle.
Qed.

(** Reading back the frames [i .. i+n-1] of [src] from a buffer that holds
    their encoding at [pos]. *)
Lemma deserialize_frames_spec src len d :
  forall n i pre post stk,
    Z.of_nat (List.length pre) + 3 * Z.of_nat n <= len ->
    Z.of_nat i + Z.of_nat n <= d ->
    (i + n <= List.length stk)%nat ->
    (forall k, (i <= k < i + n)%nat ->
               four_kinds (kind (nth k src sentinel)) /\
               0 <= block_col (nth k src sentinel) < 65536) ->
    let stk' := deserialize_frames
                  (pre ++ encode_frames src (Z.of_nat i) n ++ post) len d n
                  (Z.of_nat i) (Z.of_nat (List.length pre)) stk in
    List.length stk' = List.length stk /\
    forall k, nth k stk' sentinel =
              if (i <=? k)%nat && (k <? i + n)%nat
              then nth k src sentinel else nth k stk sentinel.
Proof.
  induction n as [|n IH]; intros i pre post stk Hlen Hd Hstk Hsrc stk'; subst stk'.
  - simpl. split; [reflexivity|]. intros k.
    replace ((i <=? k)%nat && (k <? i + 0)%nat) with false; [reflexivity|].
    symmetry. apply andb_false_iff.
    destruct (Nat.leb_spec i k); [right; apply Nat.ltb_ge; lia | now left].
  - cbn [deserialize_frames encode_frames].
    replace (Z.of_nat i <? d) with true by (symmetry; apply Z.ltb_lt; lia).
    replace (Z.of_nat (List.length pre) + 3 <=? len) with true
      by (symmetry; apply Z.leb_le; lia).
    cbn [andb].
    set (b0 := u8 (FrameKind_code (kind (frame_at src (Z.of_nat i))))).
    set (b1 := Z.land (block_col (frame_at src (Z.of_nat i))) 255).
    set (b2 := Z.land (Z.shiftr (block_col (frame_at src (Z.of_nat i))) 8) 255).
    set (tl := encode_frames src (Z.of_nat i + 1) n).
    assert (E0 : byte_at (pre ++ ([b0; b1; b2] ++ tl) ++ post)
                         (Z.of_nat (List.length pre)) = b0)
      by (apply byte_at_app; reflexivity).
    assert (E1 : byte_at (pre ++ ([b0; b1; b2] ++ tl) ++ post)
                         (Z.of_nat (List.length pre) + 1) = b1).
    { change (pre ++ ([b0; b1; b2] ++ tl) ++ post)
        with (pre ++ [b0] ++ b1 :: ([b2] ++ tl) ++ post).
      rewrite app_assoc. apply byte_at_app. rewrite length_app.
      cbn [List.length]. lia. }
    assert (E2 : byte_at (pre ++ ([b0; b1; b2] ++ tl) ++ post)
                         (Z.of_nat (List.length pre) + 2) = b2).
    { change (pre ++ ([b0; b1; b2] ++ tl) ++ post)
        with (pre ++ [b0; b1] ++ b2 :: tl ++ post).
      rewrite app_assoc. apply byte_at_app. rewrite length_app.
      cbn [List.length]. lia. }
    rewrite E0, E1, E2.
    fold (decode_frame b0 b1 b2).
    assert (Hf : decode_frame b0 b1 b2 = nth i src sentinel).
    { subst b0 b1 b2. unfold frame_at. rewrite Nat2Z.id.
      destruct (Hsrc i) as [Hk Hc]; [lia|]. now apply decode_encode_frame. }
    rewrite Hf. rewrite Nat2Z.id.
    replace (pre ++ ([b0; b1; b2] ++ tl) ++ post)
      with ((pre ++ [b0; b1; b2]) ++ tl ++ post)
      by (rewrite <- !app_assoc; reflexivity).
    replace (Z.of_nat (List.length pre) + 3)
      with (Z.of_nat (List.length (pre ++ [b0; b1; b2])))
      by (rewrite length_app; cbn [List.length]; lia).
    subst tl. replace (Z.of_nat i + 1) with (Z.of_nat (S i)) by lia.
    destruct (IH (S i) (pre ++ [b0; b1; b2]) post
                 (array_set stk i (nth i src sentinel))) as [IHlen IHnth].
    + rewrite length_app. cbn [List.length]. lia.
    + lia.
    + rewrite array_set_length. lia.
    + intros k Hk. apply Hsrc. lia.
    + split; [now rewrite IHlen, array_set_length|].
      intros k. rewrite IHnth.
      destruct (Nat.eq_dec k i) as [-> | Hne].
      * replace ((S i <=? i)%nat && (i <? S i + n)%nat) with false
          by (symmetry; apply andb_false_iff; left; apply Nat.leb_gt; lia).
        replace ((i <=? i)%nat && (i <? i + S n)%nat) with true
          by (symmetry; apply andb_true_iff; split;
              [apply Nat.leb_le | apply Nat.ltb_lt]; lia).
        apply nth_array_set_same. lia.
      * rewrite nth_array_set_other by exact Hne.
        replace ((S i <=? k)%nat && (k <? S i + n)%nat)
          with ((i <=? k)%nat && (k <? i + S n)%nat); [reflexivity|].
        destruct (Nat.leb_spec i k), (Nat.leb_spec (S i) k),
                 (Nat.ltb_spec k (i + S n)), (Nat.ltb_spec k (S i + n));
          simpl; try reflexivity; lia.
Qed.

Lemma serialize_spec bufsize s :
  4 + 3 * MAX_DEPTH <= bufsize ->
  0 <= depth s <= MAX_DEPTH ->
  serialize bufsize s =
    [u8 (depth s); u8 (pending_end_blocks s);
     byte_of_bool (in_string s); byte_of_bool (eof_newline_emitted s)]
    ++ encode_frames (stack s) 0 (Z.to_nat (depth s)).
Proof.
  intros Hb Hd. unfold serialize. apply serialize_frames_spec.
  - lia.
  - cbn [List.length]. unfold MAX_DEPTH in *. lia.
Qed.

Lemma byte_of_bool_roundtrip b : negb (byte_of_bool b =? 0) = b.
Proof. destruct b; reflexivity. Qed.

(** C3. For every scanner state with 1 <= depth <= 128, whatever its
    pending_end_blocks, in_string, eof_newline_emitted and live frames (of
    the four kinds), deserialize applied to the bytes and length produced by
    serialize restores the state: same depth, same pending_end_blocks, same
    two flags, and the first depth frames identical in kind and block_col.
    The buffer of the host must hold the 4 + 3 * 128 bytes of a full stack. *)
Theorem deserialize_serialize bufsize s s0 :
  4 + 3 * MAX_DEPTH <= bufsize ->
  1 <= depth s <= MAX_DEPTH ->
  0 <= pending_end_blocks s < 256 ->
  (forall i, 0 <= i < depth s ->
             four_kinds (kind (frame_at (stack s) i)) /\
             0 <= block_col (frame_at (stack s) i) < 65536) ->
  List.length (stack s0) = Z.to_nat MAX_DEPTH ->
  depth (deserialize s0 (serialize bufsize s)
                     (Z.of_nat (List.length (serialize bufsize s)))) = depth s /\
  pending_end_blocks (deserialize s0 (serialize bufsize s)
                        (Z.of_nat (List.length (serialize bufsize s))))
    = pending_end_blocks s /\
  in_string (deserialize s0 (serialize bufsize s)
                         (Z.of_nat (List.length (serialize bufsize s))))
    = in_string s /\
  eof_newline_emitted (deserialize s0 (serialize bufsize s)
                         (Z.of_nat (List.length (serialize bufsize s))))
    = eof_newline_emitted s /\
  forall i, 0 <= i < depth s ->
    frame_at (stack (deserialize s0 (serialize bufsize s)
                       (Z.of_nat (List.length (serialize bufsize s))))) i
    = frame_at (stack s) i.
Proof.
  intros Hb Hd Hp Hframes Hlen0.
  rewrite (serialize_spec bufsize s Hb) by lia.
  set (header := [u8 (depth s); u8 (pending_end_blocks s);
                  byte_of_bool (in_string s); byte_of_bool (eof_newline_emitted s)]).
  assert (Hd8 : u8 (depth s) = depth s)
    by (unfold u8; apply Z.mod_small; unfold MAX_DEPTH in Hd; lia).
  assert (Hp8 : u8 (pending_end_blocks s) = pending_end_blocks s)
    by (unfold u8; apply Z.mod_small; lia).
  assert (Hlen : Z.of_nat (List.length
                             (header ++ encode_frames (stack s) 0 (Z.to_nat (depth s))))
                 = 4 + 3 * depth s).
  { rewrite length_app, encode_frames_length. subst header. cbn [List.length]. lia. }
  unfold deserialize. rewrite Hlen.
  replace (4 + 3 * depth s =? 0) with false by (symmetry; apply Z.eqb_neq; lia).
  cbn [depth pending_end_blocks in_string eof_newline_emitted stack].
  change (byte_at (header ++ encode_frames (stack s) 0 (Z.to_nat (depth s))) 0)
    with (u8 (depth s)).
  change (byte_at (header ++ encode_frames (stack s) 0 (Z.to_nat (depth s))) 1)
    with (u8 (pending_end_blocks s)).
  change (byte_at (header ++ encode_frames (stack s) 0 (Z.to_nat (depth s))) 2)
    with (byte_of_bool (in_string s)).
  change (byte_at (header ++ encode_frames (stack s) 0 (Z.to_nat (depth s))) 3)
    with (byte_of_bool (eof_newline_emitted s)).
  rewrite Hd8, Hp8, !byte_of_bool_roundtrip.
  repeat split.
  intros i Hi.
  destruct (deserialize_frames_spec (stack s) (4 + 3 * depth s) (depth s)
              (Z.to_nat (depth s)) 0%nat header [] (stack s0)) as [_ Hnth].
  - subst header. cbn [List.length]. lia.
  - lia.
  - rewrite Hlen0. unfold MAX_DEPTH in *. lia.
  - intros k Hk. specialize (Hframes (Z.of_nat k)). unfold frame_at in Hframes.
    rewrite Nat2Z.id in Hframes. apply Hframes. lia.
  - rewrite app_nil_r in Hnth.
    change (Z.of_nat 0) with 0 in Hnth.
    change (Z.of_nat (List.length header)) with 4 in Hnth.
    unfold frame_at. rewrite Hnth.
    replace ((0 <=? Z.to_nat i)%nat && (Z.to_nat i <? 0 + Z.to_nat (depth s))%nat)
      with true; [reflexivity|].
    symmetry. apply andb_true_iff. split; [apply Nat.leb_le | apply Nat.ltb_lt]; lia.
Qed.

Lemma deserialize_serialize_witness :
  depth (deserialize create (serialize 1024 in_paren_block)
           (Z.of_nat (List.length (serialize 1024 in_paren_block)))) = 3 /\
  frame_at (stack (deserialize create (serialize 1024 in_paren_block)
                     (Z.of_nat (List.length (serialize 1024 in_paren_block))))) 2
  = {| kind := FRAME_INDENTED; block_col := 2 |}.
Proof.
  assert (Hframes : forall i, 0 <= i < depth in_paren_block ->
            four_kinds (kind (frame_at (stack in_paren_block) i)) /\
            0 <= block_col (frame_at (stack in_paren_block) i) < 65536).
  { intros i Hi. change (depth in_paren_block) with 3 in Hi.
    assert (Hcases : i = 0 \/ i = 1 \/ i = 2) by lia.
    destruct Hcases as [-> | [-> | ->]]; vm_compute;
      (split; [tauto | split; [discriminate | reflexivity]]). }
  destruct (deserialize_serialize 1024 in_paren_block create)
    as (Hdepth & _ & _ & _ & Hstack).
  - vm_compute. discriminate.
  - vm_compute. split; discriminate.
  - vm_compute. split; [discriminate | reflexivity].
  - exact Hframes.
  - reflexivity.
  - split; [exact Hdepth|]. apply (Hstack 2). vm_compute. split; [discriminate | reflexivity].
Defined.

(* ================================================================== *)
(** * Further properties of the scanner *)

(** ** The frame stack stays well formed *)

Lemma array_set_keeps_slot_0 stk i f :
  (0 < i)%nat -> nth 0 (array_set stk i f) sentinel = nth 0 stk sentinel.
Proof. intros Hi. apply nth_array_set_other. lia. Qed.

Lemma push_frame_wf s k col : Scanner_wf s -> Scanner_wf (push_frame s k col).
Proof.
  intros (Hlen & Hd & Hbottom). unfold push_frame.
  destruct (depth s <? MAX_DEPTH) eqn:E; [|now repeat split].
  apply Z.ltb_lt in E. repeat split; cbn [stack depth set_depth set_stack].
  - now rewrite array_set_length.
  - lia.
  - lia.
  - unfold frame_at in *. simpl Z.to_nat in *.
    rewrite array_set_keeps_slot_0 by lia. exact Hbottom.
Qed.

Lemma pop_frame_wf s : Scanner_wf s -> Scanner_wf (pop_frame s).
Proof.
  intros (Hlen & Hd & Hbottom). unfold pop_frame.
  destruct (1 <? depth s) eqn:E; [|now repeat split].
  apply Z.ltb_lt in E. repeat split; cbn [stack depth set_depth]; auto; lia.
Qed.

Lemma Effect_wf s b t s' : Effect s b t s' -> Scanner_wf s -> Scanner_wf s'.
Proof.
  intros Heff Hwf.
  destruct Heff;
    repeat match goal with
           | |- context [if ?c then _ else _] => destruct c
           end;
    try exact Hwf;
    try (apply pop_frame_wf); try (apply push_frame_wf);
    exact Hwf.
Qed.

(** X1. Every call of [scan], whatever the input and the bitmap, keeps the
    stack well formed: the array keeps its MAX_DEPTH slots, the depth stays
    between 1 and MAX_DEPTH, and slot 0 stays the sentinel frame. *)
Theorem scan_preserves_wf s lx valid :
  Scanner_wf s -> Scanner_wf (st (scan s lx valid)).
Proof. intros Hwf. exact (Effect_wf _ _ _ _ (scan_effect s lx valid) Hwf). Qed.

Lemma create_wf : Scanner_wf create.
Proof. split; [reflexivity | split; [vm_compute; split; discriminate | reflexivity]]. Qed.

Lemma scan_preserves_wf_witness :
  Scanner_wf (st (scan create (lexer_at (cstr "(") 0) (valid_of [LPAREN]))).
Proof.
  apply (scan_preserves_wf create (lexer_at (cstr "(") 0) (valid_of [LPAREN])).
  split; [reflexivity | split; [vm_compute; split; discriminate | reflexivity]].
Defined.

(** ** Opening and closing delimiters *)

Lemma push_frame_full s k col : depth s = MAX_DEPTH -> push_frame s k col = s.
Proof.
  intros H. unfold push_frame. rewrite H. now rewrite Z.ltb_irrefl.
Qed.

Lemma Effect_opening_inv s t s' :
  Effect s true t s' ->
  (t = LPAREN \/ t = BACKSLASH_LPAREN -> s' = push_frame s FRAME_PAREN 0) /\
  (t = LBRACKET -> s' = push_frame s FRAME_BRACKET 0) /\
  (t = LBRACE -> s' = push_frame s FRAME_INDENTED 0) /\
  (t = START_BLOCK -> exists col, s' = push_frame s FRAME_INDENTED col) /\
  (t = BEGIN_INTERPOLATION ->
   s' = push_frame (set_in_string s false) FRAME_INTERPOLATION 0).
Proof.
  intros Heff.
  repeat split; intros Ht;
    try (destruct Ht as [Ht | Ht]);
    subst t; inversion Heff; subst;
    try match goal with H : plain_token _ = true |- _ => discriminate H end;
    try reflexivity.
  eexists. reflexivity.
Qed.

(** X2. When all MAX_DEPTH slots are live, a call that emits an opening
    token (LPAREN, BACKSLASH_LPAREN, LBRACKET, LBRACE or START_BLOCK) still
    returns true, but the frame is not recorded: the state is exactly the
    one at entry.  BEGIN_INTERPOLATION only clears in_string. *)
Theorem push_dropped_at_max_depth s lx valid :
  depth s = MAX_DEPTH ->
  ok (scan s lx valid) = true ->
  (result_symbol (lex (scan s lx valid)) = LPAREN \/
   result_symbol (lex (scan s lx valid)) = BACKSLASH_LPAREN \/
   result_symbol (lex (scan s lx valid)) = LBRACKET \/
   result_symbol (lex (scan s lx valid)) = LBRACE \/
   result_symbol (lex (scan s lx valid)) = START_BLOCK ->
   st (scan s lx valid) = s) /\
  (result_symbol (lex (scan s lx valid)) = BEGIN_INTERPOLATION ->
   st (scan s lx valid) = set_in_string s false).
Proof.
  intros Hfull Hok. pose proof (scan_effect s lx valid) as Heff.
  unfold effect_of in Heff. rewrite Hok in Heff.
  apply Effect_opening_inv in Heff.
  destruct Heff as (Hparen & Hbracket & Hbrace & Hblock & Hinterp).
  split.
  - intros [H | [H | [H | [H | H]]]].
    + rewrite Hparen by auto. now apply push_frame_full.
    + rewrite Hparen by auto. now apply push_frame_full.
    + rewrite Hbracket by auto. now apply push_frame_full.
    + rewrite Hbrace by auto. now apply push_frame_full.
    + destruct (Hblock H) as [col ->]. now apply push_frame_full.
  - intros H. rewrite Hinterp by auto. now apply push_frame_full.
Qed.

Lemma push_dropped_at_max_depth_witness :
  depth deep_parens = MAX_DEPTH /\
  st (scan deep_parens (lexer_at (cstr "[") 0) (valid_of [LBRACKET])) = deep_parens.
Proof.
  split; [reflexivity|].
  pose proof (push_dropped_at_max_depth deep_parens (lexer_at (cstr "[") 0)
                (valid_of [LBRACKET]) eq_refl eq_refl) as [Hopen _].
  apply Hopen. right. right. left. reflexivity.
Defined.

Lemma frame_at_array_set_same stk i f :
  0 <= i -> (Z.to_nat i < List.length stk)%nat ->
  frame_at (array_set stk (Z.to_nat i) f) i = f.
Proof. intros Hi Hlen. unfold frame_at. now apply nth_array_set_same. Qed.

Lemma frame_at_array_set_other stk i j f :
  0 <= i -> 0 <= j -> j <> i ->
  frame_at (array_set stk (Z.to_nat i) f) j = frame_at stk j.
Proof. intros Hi Hj Hne. unfold frame_at. apply nth_array_set_other. lia. Qed.

Lemma top_frame_push s k col :
  Scanner_wf s -> depth s < MAX_DEPTH ->
  top_frame (push_frame s k col) = {| kind := k; block_col := col |}.
Proof.
  intros (Hlen & Hd & _) Hroom. unfold push_frame.
  replace (depth s <? MAX_DEPTH) with true by (symmetry; now apply Z.ltb_lt).
  unfold top_frame. cbn [stack depth set_depth set_stack].
  replace (depth s + 1 - 1) with (depth s) by lia.
  apply frame_at_array_set_same; [lia|]. rewrite Hlen. unfold MAX_DEPTH in *. lia.
Qed.

Lemma pop_push_live_eq s k col :
  Scanner_wf s -> depth s < MAX_DEPTH ->
  live_eq s (pop_frame (push_frame s k col)).
Proof.
  intros Hwf Hroom. destruct Hwf as (Hlen & Hd & Hbottom).
  unfold push_frame.
  replace (depth s <? MAX_DEPTH) with true by (symmetry; now apply Z.ltb_lt).
  unfold pop_frame. cbn [stack depth set_depth set_stack].
  replace (1 <? depth s + 1) with true by (symmetry; apply Z.ltb_lt; lia).
  repeat split; cbn; try lia.
  intros i Hi. symmetry. apply frame_at_array_set_other; lia.
Qed.

(** X3. Below MAX_DEPTH, delimiters balance: if one call emits LPAREN or
    BACKSLASH_LPAREN (LBRACKET, LBRACE) and the next call emits RPAREN
    (RBRACKET, RBRACE), the state after the second call agrees with the state
    before the first on depth, pending_end_blocks, both flags and every live
    frame. *)
Theorem open_close_restores_stack s lx1 valid1 lx2 valid2 :
  Scanner_wf s ->
  depth s < MAX_DEPTH ->
  ok (scan s lx1 valid1) = true ->
  ok (scan (st (scan s lx1 valid1)) lx2 valid2) = true ->
  ((result_symbol (lex (scan s lx1 valid1)) = LPAREN \/
    result_symbol (lex (scan s lx1 valid1)) = BACKSLASH_LPAREN) /\
   result_symbol (lex (scan (st (scan s lx1 valid1)) lx2 valid2)) = RPAREN) \/
  (result_symbol (lex (scan s lx1 valid1)) = LBRACKET /\
   result_symbol (lex (scan (st (scan s lx1 valid1)) lx2 valid2)) = RBRACKET) \/
  (result_symbol (lex (scan s lx1 valid1)) = LBRACE /\
   result_symbol (lex (scan (st (scan s lx1 valid1)) lx2 valid2)) = RBRACE) ->
  live_eq s (st (scan (st (scan s lx1 valid1)) lx2 valid2)).
Proof.
  intros Hwf Hroom Hok1 Hok2 Hpair.
  pose proof (scan_effect s lx1 valid1) as Heff1.
  pose proof (scan_effect (st (scan s lx1 valid1)) lx2 valid2) as Heff2.
  unfold effect_of in Heff1, Heff2. rewrite Hok1 in Heff1. rewrite Hok2 in Heff2.
  apply Effect_opening_inv in Heff1.
  destruct Heff1 as (Hparen & Hbracket & Hbrace & _ & _).
  destruct Hpair as [[Hopen Hclose] | [[Hopen Hclose] | [Hopen Hclose]]];
    rewrite Hclose in Heff2.
  - apply Effect_rparen_inv in Heff2. rewrite Heff2, (Hparen Hopen).
    rewrite top_frame_push by assumption. cbn [kind FrameKind_eqb].
    now apply pop_push_live_eq.
  - apply Effect_rbracket_inv in Heff2. rewrite Heff2, (Hbracket Hopen).
    rewrite top_frame_push by assumption. cbn [kind FrameKind_eqb].
    now apply pop_push_live_eq.
  - apply Effect_rbrace_inv in Heff2. rewrite Heff2, (Hbrace Hopen).
    rewrite top_frame_push by assumption. cbn [kind FrameKind_eqb andb].
    replace (1 <? depth (push_frame s FRAME_INDENTED 0)) with true.
    + now apply pop_push_live_eq.
    + symmetry. apply Z.ltb_lt. unfold push_frame.
      replace (depth s <? MAX_DEPTH) with true by (symmetry; now apply Z.ltb_lt).
      destruct Hwf as (_ & Hd & _). cbn. lia.
Qed.

Lemma open_close_restores_stack_witness :
  live_eq in_block_4
    (st (scan (st (scan in_block_4 (lexer_at (cstr "(x)") 4) (valid_of [LPAREN])))
              (lexer_at (cstr ")") 6) (valid_of [RPAREN]))).
Proof.
  apply (open_close_restores_stack in_block_4
           (lexer_at (cstr "(x)") 4) (valid_of [LPAREN])
           (lexer_at (cstr ")") 6) (valid_of [RPAREN])).
  - split; [reflexivity | split; [vm_compute; split; discriminate | reflexivity]].
  - reflexivity.
  - reflexivity.
  - reflexivity.
  - left. split; [left|]; reflexivity.
Defined.

(** X4. At MAX_DEPTH the balance is lost: with a PAREN frame on top, an
    opening parenthesis is emitted without being recorded, and the closing
    parenthesis that answers it pops the enclosing PAREN frame, so the pair
    leaves the stack one frame short. *)
Theorem unrecorded_paren_unbalances s lx1 valid1 lx2 valid2 :
  depth s = MAX_DEPTH ->
  kind (top_frame s) = FRAME_PAREN ->
  ok (scan s lx1 valid1) = true ->
  result_symbol (lex (scan s lx1 valid1)) = LPAREN ->
  ok (scan (st (scan s lx1 valid1)) lx2 valid2) = true ->
  result_symbol (lex (scan (st (scan s lx1 valid1)) lx2 valid2)) = RPAREN ->
  st (scan (st (scan s lx1 valid1)) lx2 valid2) = set_depth s (MAX_DEPTH - 1).
Proof.
  intros Hfull Htop Hok1 Hsym1 Hok2 Hsym2.
  assert (Hs1 : st (scan s lx1 valid1) = s).
  { pose proof (scan_effect s lx1 valid1) as Heff1.
    unfold effect_of in Heff1. rewrite Hok1 in Heff1.
    apply Effect_opening_inv in Heff1. destruct Heff1 as (Hparen & _).
    rewrite Hparen by auto. now apply push_frame_full. }
  rewrite Hs1 in *.
  pose proof (scan_effect s lx2 valid2) as Heff2.
  unfold effect_of in Heff2. rewrite Hok2, Hsym2 in Heff2.
  apply Effect_rparen_inv in Heff2.
  rewrite Heff2, Htop. cbn [FrameKind_eqb].
  unfold pop_frame. rewrite Hfull. reflexivity.
Qed.

Lemma unrecorded_paren_unbalances_witness :
  depth (st (scan (st (scan deep_parens (lexer_at (cstr "()") 0) (valid_of [LPAREN])))
                  (lexer_at (cstr ")") 1) (valid_of [RPAREN]))) = 127.
Proof.
  rewrite (unrecorded_paren_unbalances deep_parens
             (lexer_at (cstr "()") 0) (valid_of [LPAREN])
             (lexer_at (cstr ")") 1) (valid_of [RPAREN]));
    reflexivity.
Defined.

(** ** Draining the queue of dedents *)

Lemma scan_pending_unfold s lx valid :
  0 < pending_end_blocks s -> valid END_BLOCK = true ->
  scan s lx valid = scan_pending s lx.
Proof.
  intros Hp Hv. unfold scan, pending_taken.
  apply Z.ltb_lt in Hp. now rewrite Hp, Hv.
Qed.

(** X5. A queue of [n] dedents is drained by exactly [n] calls that find
    END_BLOCK valid: afterwards pending_end_blocks is 0 and the depth has
    gone down by [n], but never below 1; the stack slots and the two flags
    are untouched. *)
Theorem pending_queue_drains n :
  forall s lx valid,
    1 <= depth s ->
    pending_end_blocks s = Z.of_nat n ->
    valid END_BLOCK = true ->
    scan_repeat n s lx valid =
      {| stack := stack s;
         depth := Z.max 1 (depth s - Z.of_nat n);
         pending_end_blocks := 0;
         in_string := in_string s;
         eof_newline_emitted := eof_newline_emitted s |}.
Proof.
  induction n as [|n IH]; intros s lx valid Hd Hp Hv.
  - cbn [scan_repeat]. destruct s as [stk d p i e]. cbn in *. subst p.
    f_equal. lia.
  - cbn [scan_repeat]. rewrite scan_pending_unfold by (auto; lia).
    unfold scan_pending. cbn [st emit].
    rewrite IH.
    + unfold pop_frame. cbn [depth set_pending].
      destruct (1 <? depth s) eqn:E.
      * apply Z.ltb_lt in E. cbn. f_equal. lia.
      * apply Z.ltb_ge in E. cbn. f_equal. lia.
    + unfold pop_frame. cbn [depth set_pending].
      destruct (1 <? depth s) eqn:E; cbn; [apply Z.ltb_lt in E|]; lia.
    + unfold pop_frame. cbn [depth set_pending].
      destruct (1 <? depth s); cbn; lia.
    + exact Hv.
Qed.

Lemma pending_queue_drains_witness :
  scan_repeat 1 (st comma_call_1) (lexer_at (cstr ",") 0) (valid_of [END_BLOCK]) =
    {| stack := stack (st comma_call_1);
       depth := 1;
       pending_end_blocks := 0;
       in_string := false;
       eof_newline_emitted := false |}.
Proof.
  apply (pending_queue_drains 1 (st comma_call_1) (lexer_at (cstr ",") 0)
           (valid_of [END_BLOCK])).
  - vm_compute. discriminate.
  - reflexivity.
  - reflexivity.
Defined.

(** ** What a dedent pops *)

Lemma dedent_loop_exact stk col :
  indented_deeper_than col (nth 0 stk sentinel) = false ->
  forall n count,
    (1 <= n)%nat ->
    exists k : nat,
      dedent_loop stk n col count = count + Z.of_nat k /\
      (k < n)%nat /\
      (forall i, (n - k <= i < n)%nat ->
                 indented_deeper_than col (nth i stk sentinel) = true) /\
      indented_deeper_than col (nth (n - k - 1) stk sentinel) = false.
Proof.
  intros Hbottom. induction n as [|m IH]; intros count Hn; [lia|].
  destruct m as [|j].
  - exists 0%nat. cbn [dedent_loop].
    split; [lia|]. split; [lia|]. split; [intros i Hi; lia | exact Hbottom].
  - rewrite dedent_loop_SS.
    destruct (indented_deeper_than col (nth (S j) stk sentinel)) eqn:Htop.
    + destruct (IH (count + 1)) as (k & Hval & Hk & Hall & Hstop); [lia|].
      exists (S k).
      split; [rewrite Hval; lia|]. split; [lia|]. split.
      * intros i Hi. destruct (Nat.eq_dec i (S j)) as [-> | Hne];
          [exact Htop | apply Hall; lia].
      * replace (S (S j) - S k - 1)%nat with (S j - k - 1)%nat by lia. exact Hstop.
    + exists 0%nat.
      split; [lia|]. split; [lia|]. split; [intros i Hi; lia|].
      replace (S (S j) - 0 - 1)%nat with (S j) by lia. exact Htop.
Qed.

(** X6. The count taken at a dedent is exact.  In an indented frame with
    the lookahead at a column [col] below the top frame's block_col, the
    [dedent_count] frames on top of the stack are all INDENTED frames deeper
    than [col], at least one and fewer than the depth, and the frame that
    becomes the top once they are popped is not one: popping stops at the
    block the new line belongs to. *)
Theorem dedent_count_exact s col :
  Scanner_wf s ->
  in_non_indented s = false ->
  0 <= col < block_col (top_frame s) ->
  1 <= dedent_count s col < depth s /\
  (forall i, depth s - dedent_count s col <= i < depth s ->
             indented_deeper_than col (frame_at (stack s) i) = true) /\
  indented_deeper_than col
    (frame_at (stack s) (depth s - dedent_count s col - 1)) = false.
Proof.
  intros Hwf Hind Hcol.
  pose proof (Scanner_wf_depth_nat s Hwf) as Hd.
  pose proof (frames_to_pop_pos s col Hwf Hind (proj2 Hcol)) as Hpos.
  pose proof (dedent_count_spec s col Hwf Hind Hcol) as Hspec.
  destruct Hwf as (Hlen & Hdepth & Hbottom).
  assert (Hb : indented_deeper_than col (nth 0 (stack s) sentinel) = false).
  { unfold frame_at in Hbottom. simpl in Hbottom. rewrite Hbottom.
    unfold indented_deeper_than, sentinel. simpl. apply Z.ltb_ge. lia. }
  destruct (dedent_loop_exact (stack s) col Hb (Z.to_nat (depth s)) 0)
    as (k & Hval & Hk & Hall & Hstop); [lia|].
  assert (Hcount : dedent_count s col = Z.of_nat k).
  { rewrite Hspec. unfold frames_to_pop, frames_from_top.
    rewrite dedent_loop_spec in Hval by (auto; lia). lia. }
  rewrite Hcount.
  split; [lia|]. split.
  - intros i Hi. unfold frame_at. apply Hall. lia.
  - unfold frame_at.
    replace (Z.to_nat (depth s - Z.of_nat k - 1))
      with (Z.to_nat (depth s) - k - 1)%nat by lia.
    exact Hstop.
Qed.

Lemma dedent_count_exact_witness :
  1 <= dedent_count in_block_4 0 < depth in_block_4 /\
  indented_deeper_than 0
    (frame_at (stack in_block_4) (depth in_block_4 - dedent_count in_block_4 0 - 1))
  = false.
Proof.
  destruct (dedent_count_exact in_block_4 0) as (Hn & _ & Hstop).
  - split; [reflexivity | split; [vm_compute; split; discriminate | reflexivity]].
  - reflexivity.
  - vm_compute. split; [discriminate | reflexivity].
  - split; [exact Hn | exact Hstop].
Defined.

(** ** End of input *)

Lemma while_skip_nil p lx : chars lx = [] -> while_skip p lx = lx.
Proof. intros H. unfold while_skip. now rewrite H. Qed.

Lemma lookahead_nil lx : chars lx = [] -> lookahead lx = 0.
Proof. intros H. unfold lookahead. now rewrite H. Qed.

Lemma eof_nil lx : chars lx = [] -> eof lx = true.
Proof. intros H. unfold eof. now rewrite H. Qed.

(** X7. At end of input a call consumes nothing and does one of four
    things: it drains a pending dedent; in string mode it fails (an
    unterminated string yields no token); inside a paren, bracket or
    interpolation frame with START_BLOCK valid it opens a block; otherwise
    it applies the end-of-input rule (the NEWLINE that is emitted once, then
    END_BLOCK while indented frames remain above the bottom one, then
    failure). *)
Theorem scan_at_end_of_input s lx valid :
  chars lx = [] ->
  scan s lx valid =
    if pending_taken s valid then scan_pending s lx
    else if in_string s then fail s lx
    else if in_non_indented s && valid START_BLOCK then open_block s lx
    else eof_rule s lx valid.
Proof.
  intros Hnil. unfold scan.
  destruct (pending_taken s valid); [reflexivity|].
  destruct (in_string s).
  - unfold scan_string_mode. rewrite (lookahead_nil lx Hnil).
    change (is_string_stop 0) with true. change (0 =? DQUOTE) with false.
    change (0 =? BTICK) with false.
    rewrite !andb_false_r. reflexivity.
  - unfold scan_layout.
    destruct (in_non_indented s); cbn [andb].
    + unfold layout_non_indented, skip_horizontal_ws, skip_all_ws.
      rewrite !(while_skip_nil _ lx Hnil), (lookahead_nil lx Hnil).
      change (is_newline 0) with false. rewrite andb_false_r.
      change (negb (0 =? chr "#")) with true. rewrite andb_true_r.
      destruct (valid START_BLOCK); cbn [finish]; [reflexivity|].
      unfold scan_token. now rewrite (eof_nil lx Hnil).
    + unfold layout_indented, skip_to_line_start, skip_horizontal_ws.
      rewrite (while_skip_nil _ lx Hnil), Hnil. cbn [List.length cross_newlines_loop].
      now rewrite (eof_nil lx Hnil).
Qed.

Lemma scan_at_end_of_input_witness :
  scan in_block_4 (lexer_at [] 0) (valid_of [END_BLOCK]) =
    emit (pop_frame in_block_4) (lexer_at [] 0) END_BLOCK.
Proof.
  rewrite (scan_at_end_of_input in_block_4 (lexer_at [] 0) (valid_of [END_BLOCK]));
    reflexivity.
Defined.

Lemma eof_newline_emitted_pop_frame s :
  eof_newline_emitted (pop_frame s) = eof_newline_emitted s.
Proof. unfold pop_frame. destruct (1 <? depth s); reflexivity. Qed.

Lemma eof_newline_emitted_push_frame s k col :
  eof_newline_emitted (push_frame s k col) = eof_newline_emitted s.
Proof. unfold push_frame. destruct (depth s <? MAX_DEPTH); reflexivity. Qed.

Lemma Effect_eof_latch s b t s' :
  Effect s b t s' -> eof_newline_emitted s = true -> eof_newline_emitted s' = true.
Proof.
  intros Heff Hflag.
  destruct Heff;
    repeat match goal with
           | |- context [if ?c then _ else _] => destruct c
           end;
    rewrite ?eof_newline_emitted_pop_frame, ?eof_newline_emitted_push_frame;
    cbn; rewrite ?eof_newline_emitted_pop_frame; auto.
Qed.

(** X8. eof_newline_emitted is a latch: no call of [scan] ever clears it,
    whatever the input and the bitmap, so the NEWLINE made up at end of input
    is emitted at most once until the state is reset by deserialize. *)
Theorem eof_newline_emitted_is_latched s lx valid :
  eof_newline_emitted s = true ->
  eof_newline_emitted (st (scan s lx valid)) = true.
Proof.
  intros Hflag. exact (Effect_eof_latch _ _ _ _ (scan_effect s lx valid) Hflag).
Qed.

Lemma eof_newline_emitted_is_latched_witness :
  eof_newline_emitted
    (st (scan (call create [] 0 [NEWLINE]) (lexer_at (cstr "x") 0) (valid_of [LOWER_ID])))
  = true.
Proof.
  apply (eof_newline_emitted_is_latched (call create [] 0 [NEWLINE])
           (lexer_at (cstr "x") 0) (valid_of [LOWER_ID])).
  reflexivity.
Defined.

(** ** Serialisation: sizes and reads *)

Lemma serialize_frames_length bufsize s :
  forall n i buffer,
    0 <= i <= Z.min (depth s) ((bufsize - 4) / 3) ->
    Z.of_nat (List.length buffer) = 4 + 3 * i ->
    Z.min (depth s) ((bufsize - 4) / 3) - i <= Z.of_nat n ->
    Z.of_nat (List.length (serialize_frames bufsize s n i buffer))
    = 4 + 3 * Z.min (depth s) ((bufsize - 4) / 3).
Proof.
  assert (Hq : 3 * ((bufsize - 4) / 3) <= bufsize - 4 < 3 * ((bufsize - 4) / 3) + 3).
  { pose proof (Z.div_mod (bufsize - 4) 3) as Hdm.
    pose proof (Z.mod_pos_bound (bufsize - 4) 3) as Hmb. lia. }
  set (q := (bufsize - 4) / 3) in *. clearbody q.
  induction n as [|n IH]; intros i buffer Hi Hlen Hn.
  - cbn [serialize_frames]. lia.
  - cbn [serialize_frames].
    destruct (Z.eq_dec i (Z.min (depth s) q)) as [Heq | Hne].
    + replace ((i <? depth s)
               && (Z.of_nat (List.length buffer) + 3 <=? bufsize)) with false; [lia|].
      symmetry. apply andb_false_iff.
      destruct (Z.lt_ge_cases i (depth s)) as [Hlt | Hge].
      * right. apply Z.leb_gt. lia.
      * left. apply Z.ltb_ge. lia.
    + replace ((i <? depth s)
               && (Z.of_nat (List.length buffer) + 3 <=? bufsize)) with true.
      * apply IH; [lia | rewrite length_app; cbn [List.length]; lia | lia].
      * symmetry. apply andb_true_iff.
        split; [apply Z.ltb_lt | apply Z.leb_le]; lia.
Qed.

(** X9. serialize writes the 4 header bytes and then 3 bytes for each of the
    first min(depth, (bufsize - 4) / 3) frames: it never writes past a buffer
    of [bufsize] >= 4 bytes, and frames that do not fit are left out while
    the depth byte still counts them. *)
Theorem serialize_length bufsize s :
  4 <= bufsize ->
  0 <= depth s ->
  Z.of_nat (List.length (serialize bufsize s))
  = 4 + 3 * Z.min (depth s) ((bufsize - 4) / 3) /\
  Z.of_nat (List.length (serialize bufsize s)) <= bufsize.
Proof.
  intros Hb Hd.
  assert (Hlen : Z.of_nat (List.length (serialize bufsize s))
                 = 4 + 3 * Z.min (depth s) ((bufsize - 4) / 3)).
  { unfold serialize. apply serialize_frames_length.
    - split; [lia|]. apply Z.min_glb; [lia|]. apply Z.div_pos; lia.
    - reflexivity.
    - lia. }
  split; [exact Hlen|]. rewrite Hlen.
  pose proof (Z.mul_div_le (bufsize - 4) 3). lia.
Qed.

Lemma serialize_length_witness :
  Z.of_nat (List.length (serialize 10 in_paren_block)) = 10 /\
  byte_at (serialize 10 in_paren_block) 0 = 3.
Proof.
  destruct (serialize_length 10 in_paren_block) as [Hlen _].
  - vm_compute. discriminate.
  - vm_compute. discriminate.
  - split; [exact Hlen | reflexivity].
Defined.

Lemma deserialize_frames_reads_prefix buffer buffer' len d :
  (forall p, 0 <= p < len -> byte_at buffer p = byte_at buffer' p) ->
  forall n i pos stk,
    0 <= pos ->
    deserialize_frames buffer len d n i pos stk
    = deserialize_frames buffer' len d n i pos stk.
Proof.
  intros Hsame. induction n as [|n IH]; intros i pos stk Hpos; [reflexivity|].
  cbn [deserialize_frames].
  destruct ((i <? d) && (pos + 3 <=? len)) eqn:Hc; [|reflexivity].
  apply andb_true_iff in Hc. destruct Hc as [_ Hfit]. apply Z.leb_le in Hfit.
  rewrite !(Hsame pos), !(Hsame (pos + 1)), !(Hsame (pos + 2)) by lia.
  apply IH. lia.
Qed.

(** X10. Given a length of at least 4, deserialize looks at no byte of the
    buffer at or beyond [length]: two buffers that agree below [length]
    restore the same state.  (The 4 header bytes are read whatever the
    length, once it is not 0.) *)
Theorem deserialize_reads_below_length s buffer buffer' len :
  4 <= len ->
  (forall p, 0 <= p < len -> byte_at buffer p = byte_at buffer' p) ->
  deserialize s buffer len = deserialize s buffer' len.
Proof.
  intros Hlen Hsame. unfold deserialize.
  replace (len =? 0) with false by (symmetry; apply Z.eqb_neq; lia).
  rewrite !(Hsame 0), !(Hsame 1), !(Hsame 2), !(Hsame 3) by lia.
  f_equal. apply deserialize_frames_reads_prefix; [exact Hsame | lia].
Qed.

Lemma deserialize_reads_below_length_witness :
  deserialize create [2; 0; 0; 0; 0; 0; 0; 1; 0; 0] 7
  = deserialize create [2; 0; 0; 0; 0; 0; 0; 3; 9; 9] 7.
Proof.
  apply (deserialize_reads_below_length create).
  - vm_compute. discriminate.
  - intros p Hp.
    assert (Hcases : p = 0 \/ p = 1 \/ p = 2 \/ p = 3 \/ p = 4 \/ p = 5 \/ p = 6) by lia.
    destruct Hcases as [-> | [-> | [-> | [-> | [-> | [-> | ->]]]]]]; reflexivity.
Defined.

(** ** A call depends on the live part of the state only *)

Lemma live_eq_frames_nat s s' :
  live_eq s s' ->
  forall i, (i < Z.to_nat (depth s))%nat ->
            nth i (stack s') sentinel = nth i (stack s) sentinel.
Proof.
  intros (_ & _ & _ & _ & Hfr) i Hi.
  specialize (Hfr (Z.of_nat i)). unfold frame_at in Hfr.
  rewrite Nat2Z.id in Hfr. symmetry. apply Hfr. lia.
Qed.

Lemma live_eq_top_frame s s' :
  live_eq s s' -> 1 <= depth s -> top_frame s' = top_frame s.
Proof.
  intros Hle Hd. pose proof Hle as (Hdepth & _ & _ & _ & Hfr).
  unfold top_frame. rewrite <- Hdepth. symmetry. apply Hfr. lia.
Qed.

Lemma indented_frames_loop_ext stk stk' :
  forall n count,
    (forall i, (i < n)%nat -> nth i stk' sentinel = nth i stk sentinel) ->
    indented_frames_loop stk' n count = indented_frames_loop stk n count.
Proof.
  induction n as [|n IH]; intros count Hsame; [reflexivity|].
  cbn [indented_frames_loop]. rewrite Hsame by lia.
  destruct (FrameKind_eqb _ _); [|reflexivity].
  apply IH. intros i Hi. apply Hsame. lia.
Qed.

Lemma dedent_loop_ext stk stk' col :
  forall n count,
    (forall i, (i < n)%nat -> nth i stk' sentinel = nth i stk sentinel) ->
    dedent_loop stk' n col count = dedent_loop stk n col count.
Proof.
  induction n as [|n IH]; intros count Hsame; [reflexivity|].
  destruct n as [|m]; [reflexivity|].
  rewrite !dedent_loop_SS. rewrite Hsame by lia.
  destruct (indented_deeper_than col _); [|reflexivity].
  apply IH. intros i Hi. apply Hsame. lia.
Qed.

Lemma live_eq_indented_frames s s' :
  live_eq s s' ->
  indented_frames_above_delimiter s' = indented_frames_above_delimiter s.
Proof.
  intros Hle. pose proof Hle as (Hdepth & _).
  unfold indented_frames_above_delimiter. rewrite <- Hdepth.
  apply indented_frames_loop_ext. now apply live_eq_frames_nat.
Qed.

Lemma live_eq_dedent_count s s' col :
  live_eq s s' -> dedent_count s' col = dedent_count s col.
Proof.
  intros Hle. pose proof Hle as (Hdepth & _).
  unfold dedent_count. rewrite <- Hdepth.
  rewrite (dedent_loop_ext (stack s) (stack s')); [reflexivity|].
  now apply live_eq_frames_nat.
Qed.

Lemma live_eq_set_pending s s' n :
  live_eq s s' -> live_eq (set_pending s n) (set_pending s' n).
Proof. intros (H1 & H2 & H3 & H4 & H5). repeat split; assumption. Qed.

Lemma live_eq_set_in_string s s' b :
  live_eq s s' -> live_eq (set_in_string s b) (set_in_string s' b).
Proof. intros (H1 & H2 & H3 & H4 & H5). repeat split; assumption. Qed.

Lemma live_eq_set_eof s s' b :
  live_eq s s' ->
  live_eq (set_eof_newline_emitted s b) (set_eof_newline_emitted s' b).
Proof. intros (H1 & H2 & H3 & H4 & H5). repeat split; assumption. Qed.

Lemma live_eq_pop_frame s s' :
  live_eq s s' -> live_eq (pop_frame s) (pop_frame s').
Proof.
  intros (H1 & H2 & H3 & H4 & H5). unfold pop_frame. rewrite <- H1.
  destruct (1 <? depth s); repeat split; cbn; try assumption; try lia.
  intros i Hi. apply H5. lia.
Qed.

Lemma live_eq_push_frame s s' k col :
  full_stack s -> full_stack s' -> 0 <= depth s ->
  live_eq s s' -> live_eq (push_frame s k col) (push_frame s' k col).
Proof.
  intros Hf Hf' Hd (H1 & H2 & H3 & H4 & H5). unfold push_frame. rewrite <- H1.
  destruct (depth s <? MAX_DEPTH) eqn:E; [|repeat split; assumption].
  apply Z.ltb_lt in E.
  repeat split; cbn [stack depth pending_end_blocks in_string eof_newline_emitted
                     set_depth set_stack]; try assumption; try lia.
  intros i Hi. destruct (Z.eq_dec i (depth s)) as [-> | Hne].
  - rewrite !frame_at_array_set_same; try reflexivity; try lia.
    + rewrite Hf'. unfold MAX_DEPTH in *. lia.
    + rewrite Hf. unfold MAX_DEPTH in *. lia.
  - rewrite !frame_at_array_set_other by lia. apply H5. lia.
Qed.

Lemma full_stack_push_frame s k col : full_stack s -> full_stack (push_frame s k col).
Proof.
  unfold full_stack, push_frame. intros H.
  destruct (depth s <? MAX_DEPTH); cbn; [now rewrite array_set_length | exact H].
Qed.

Lemma agree_emit s s' lx t : live_eq s s' -> agree (emit s lx t) (emit s' lx t).
Proof. intros H. repeat split; try reflexivity; apply H. Qed.

Lemma agree_fail s s' lx : live_eq s s' -> agree (fail s lx) (fail s' lx).
Proof. intros H. repeat split; try reflexivity; apply H. Qed.

Create HintDb live.
#[local] Hint Resolve agree_emit agree_fail live_eq_set_pending live_eq_set_in_string
  live_eq_set_eof live_eq_pop_frame live_eq_push_frame : live.

Section Locality.

Variables s s' : Scanner.
Hypothesis Hlive : live_eq s s'.
Hypothesis Hfull : full_stack s.
Hypothesis Hfull' : full_stack s'.
Hypothesis Hdepth : 1 <= depth s.

Lemma locality_depth_nonneg : 0 <= depth s.
Proof. lia. Qed.

Ltac to_s :=
  rewrite ?(live_eq_top_frame s s' Hlive Hdepth),
          ?(live_eq_indented_frames s s' Hlive),
          ?(live_eq_dedent_count s s' _ Hlive);
  replace (depth s') with (depth s) by apply Hlive;
  replace (pending_end_blocks s') with (pending_end_blocks s) by apply Hlive;
  replace (in_string s') with (in_string s) by apply Hlive;
  replace (eof_newline_emitted s') with (eof_newline_emitted s) by apply Hlive.

Ltac leaves :=
  pose proof locality_depth_nonneg;
  repeat (to_s; cbn [and_then finish outcome_agree];
          match goal with
          | |- context [if ?c then _ else _] => destruct c eqn:?
          end);
  to_s; cbn [and_then finish outcome_agree]; auto 6 with live.

Lemma agree_eof_rule lx valid :
  agree (eof_rule s lx valid) (eof_rule s' lx valid).
Proof. unfold eof_rule. to_s. leaves. Qed.

Lemma agree_open_block lx : agree (open_block s lx) (open_block s' lx).
Proof. unfold open_block. leaves. Qed.

Lemma agree_scan_string_mode lx valid :
  agree (scan_string_mode s lx valid) (scan_string_mode s' lx valid).
Proof.
  unfold scan_string_mode.
  destruct (scan_string_content (set_result lx STRING_CONTENT)) as [b lx1].
  leaves; repeat split; try reflexivity; apply Hlive.
Qed.

Lemma agree_scan_layout lx valid :
  outcome_agree (scan_layout s lx valid) (scan_layout s' lx valid).
Proof.
  unfold scan_layout, in_non_indented. to_s.
  destruct (negb (FrameKind_eqb (kind (top_frame s)) FRAME_INDENTED)).
  - unfold layout_non_indented.
    pose proof (agree_open_block (skip_all_ws (skip_horizontal_ws lx))).
    leaves.
  - unfold layout_indented.
    destruct (skip_to_line_start lx) as [lx1 at_newline].
    pose proof (agree_eof_rule lx1 valid).
    destruct (eof lx1); [assumption|].
    unfold start_block_phase, auto_close_phase, indentation_phase, and_then.
    to_s.
    pose proof (agree_open_block lx1).
    pose proof (agree_open_block (skip_blank_lines lx1)).
    leaves.
Qed.

Lemma agree_scan_op2 lx valid second tok2 tok1 :
  agree (scan_op2 s lx valid second tok2 tok1)
        (scan_op2 s' lx valid second tok2 tok1).
Proof. unfold scan_op2. leaves. Qed.

Lemma agree_scan_op3 lx valid second tok2 second' tok2' tok1 :
  agree (scan_op3 s lx valid second tok2 second' tok2' tok1)
        (scan_op3 s' lx valid second tok2 second' tok2' tok1).
Proof. unfold scan_op3. leaves. Qed.

Lemma agree_scan_comment lx valid :
  agree (scan_comment s lx valid) (scan_comment s' lx valid).
Proof. unfold scan_comment. leaves. Qed.

Lemma agree_scan_quote lx valid :
  agree (scan_quote s lx valid) (scan_quote s' lx valid).
Proof.
  unfold scan_quote.
  destruct (take_word is_id_char _ _) as [buf lx2]. leaves.
Qed.

Lemma agree_scan_underscore lx valid :
  agree (scan_underscore s lx valid) (scan_underscore s' lx valid).
Proof. unfold scan_underscore. leaves. Qed.

Lemma agree_scan_token lx valid :
  agree (scan_token s lx valid) (scan_token s' lx valid).
Proof.
  unfold scan_token. to_s.
  pose proof (agree_eof_rule lx valid).
  pose proof (agree_scan_comment lx valid).
  pose proof (agree_scan_quote lx valid).
  pose proof (agree_scan_underscore lx valid).
  destruct (scan_upper_id lx valid) as [tok1 lxu].
  destruct (scan_lower_id_or_keyword lx valid) as [tok2 lxl].
  destruct (scan_int_literal lx) as [found lxi].
  pose proof (fun second tok2 tok1 => agree_scan_op2 lx valid second tok2 tok1).
  pose proof (fun second tok2 second' tok2' tok1 =>
                agree_scan_op3 lx valid second tok2 second' tok2' tok1).
  leaves.
Qed.

Lemma agree_scan lx valid : agree (scan s lx valid) (scan s' lx valid).
Proof.
  unfold scan, pending_taken, scan_pending. to_s.
  destruct ((0 <? pending_end_blocks s) && valid END_BLOCK); [auto 6 with live|].
  destruct (in_string s); [apply agree_scan_string_mode|].
  pose proof (agree_scan_layout lx valid) as Hl.
  destruct (scan_layout s lx valid) as [r|lx1], (scan_layout s' lx valid) as [r'|lx1'];
    cbn [outcome_agree finish] in *; try contradiction; [assumption|].
  subst lx1'. apply agree_scan_token.
Qed.

End Locality.

(** X11. A call of [scan] looks at the live part of the state only: on two
    scanner objects that agree on depth, pending_end_blocks, the two flags
    and the live frames, the same input and bitmap give the same returned
    boolean and the same lexer (symbol, extent, position), and leave states
    that agree in the same way.  What the dead slots of the array hold never
    matters. *)
Theorem scan_depends_on_live_state s s' lx valid :
  live_eq s s' ->
  full_stack s ->
  full_stack s' ->
  1 <= depth s ->
  agree (scan s lx valid) (scan s' lx valid).
Proof. intros Hlive Hf Hf' Hd. now apply agree_scan. Qed.

Lemma scan_depends_on_live_state_witness :
  agree (scan create (lexer_at (cstr "(") 0) (valid_of [LPAREN]))
        (scan (pop_frame in_paren) (lexer_at (cstr "(") 0) (valid_of [LPAREN])).
Proof.
  apply (scan_depends_on_live_state create (pop_frame in_paren)).
  - repeat split. intros i Hi. change (depth create) with 1 in Hi.
    assert (i = 0) as -> by lia. reflexivity.
  - reflexivity.
  - reflexivity.
  - vm_compute. discriminate.
Defined.

Lemma deserialize_serialize_live bufsize s s0 :
  4 + 3 * MAX_DEPTH <= bufsize ->
  1 <= depth s <= MAX_DEPTH ->
  0 <= pending_end_blocks s < 256 ->
  (forall i, 0 <= i < depth s ->
             four_kinds (kind (frame_at (stack s) i)) /\
             0 <= block_col (frame_at (stack s) i) < 65536) ->
  full_stack s0 ->
  live_eq s (deserialize s0 (serialize bufsize s)
               (Z.of_nat (List.length (serialize bufsize s)))) /\
  full_stack (deserialize s0 (serialize bufsize s)
                (Z.of_nat (List.length (serialize bufsize s)))).
Proof.
  intros Hb Hd Hp Hframes Hlen0. unfold full_stack in Hlen0.
  rewrite (serialize_spec bufsize s Hb) by lia.
  set (header := [u8 (depth s); u8 (pending_end_blocks s);
                  byte_of_bool (in_string s); byte_of_bool (eof_newline_emitted s)]).
  assert (Hd8 : u8 (depth s) = depth s)
    by (unfold u8; apply Z.mod_small; unfold MAX_DEPTH in Hd; lia).
  assert (Hp8 : u8 (pending_end_blocks s) = pending_end_blocks s)
    by (unfold u8; apply Z.mod_small; lia).
  assert (Hlen : Z.of_nat (List.length
                             (header ++ encode_frames (stack s) 0 (Z.to_nat (depth s))))
                 = 4 + 3 * depth s).
  { rewrite length_app, encode_frames_length. subst header. cbn [List.length]. lia. }
  destruct (deserialize_frames_spec (stack s) (4 + 3 * depth s) (depth s)
              (Z.to_nat (depth s)) 0%nat header [] (stack s0)) as [Hlen' Hnth].
  { subst header. cbn [List.length]. lia. }
  { lia. }
  { rewrite Hlen0. unfold MAX_DEPTH in *. lia. }
  { intros k Hk. specialize (Hframes (Z.of_nat k)). unfold frame_at in Hframes.
    rewrite Nat2Z.id in Hframes. apply Hframes. lia. }
  rewrite app_nil_r in Hnth, Hlen'.
  change (Z.of_nat 0) with 0 in Hnth, Hlen'.
  change (Z.of_nat (List.length header)) with 4 in Hnth, Hlen'.
  unfold deserialize, live_eq, full_stack. rewrite Hlen.
  replace (4 + 3 * depth s =? 0) with false by (symmetry; apply Z.eqb_neq; lia).
  cbn [depth pending_end_blocks in_string eof_newline_emitted stack].
  change (byte_at (header ++ encode_frames (stack s) 0 (Z.to_nat (depth s))) 0)
    with (u8 (depth s)).
  change (byte_at (header ++ encode_frames (stack s) 0 (Z.to_nat (depth s))) 1)
    with (u8 (pending_end_blocks s)).
  change (byte_at (header ++ encode_frames (stack s) 0 (Z.to_nat (depth s))) 2)
    with (byte_of_bool (in_string s)).
  change (byte_at (header ++ encode_frames (stack s) 0 (Z.to_nat (depth s))) 3)
    with (byte_of_bool (eof_newline_emitted s)).
  rewrite Hd8, Hp8, !byte_of_bool_roundtrip.
  split; [|now rewrite Hlen'].
  repeat split.
  intros i Hi. unfold frame_at. rewrite Hnth.
  replace ((0 <=? Z.to_nat i)%nat && (Z.to_nat i <? 0 + Z.to_nat (depth s))%nat)
    with true; [reflexivity|].
  symmetry. apply andb_true_iff. split; [apply Nat.leb_le | apply Nat.ltb_lt]; lia.
Qed.

(** X12. Restoring a snapshot does not change what the scanner does next:
    for a state with 1 <= depth <= MAX_DEPTH whose live frames have one of
    the four kinds, a call of [scan] on the state restored by deserialize
    from the bytes of serialize, into any scanner object, returns the same
    boolean, symbol, extent and position as the call on the original state,
    and the two resulting states agree on their live part. *)
Theorem scan_after_restore bufsize s s0 lx valid :
  4 + 3 * MAX_DEPTH <= bufsize ->
  1 <= depth s <= MAX_DEPTH ->
  0 <= pending_end_blocks s < 256 ->
  (forall i, 0 <= i < depth s ->
             four_kinds (kind (frame_at (stack s) i)) /\
             0 <= block_col (frame_at (stack s) i) < 65536) ->
  full_stack s ->
  full_stack s0 ->
  agree (scan s lx valid)
        (scan (deserialize s0 (serialize bufsize s)
                 (Z.of_nat (List.length (serialize bufsize s)))) lx valid).
Proof.
  intros Hb Hd Hp Hframes Hfull Hfull0.
  destruct (deserialize_serialize_live bufsize s s0 Hb Hd Hp Hframes Hfull0)
    as [Hlive Hfull'].
  apply agree_scan; auto. lia.
Qed.

Lemma scan_after_restore_witness :
  agree (scan in_paren_block (lexer_at (cstr ")") 3) (valid_of [NEWLINE]))
        (scan (deserialize create (serialize 1024 in_paren_block)
                 (Z.of_nat (List.length (serialize 1024 in_paren_block))))
              (lexer_at (cstr ")") 3) (valid_of [NEWLINE])).
Proof.
  apply (scan_after_restore 1024 in_paren_block create).
  - vm_compute. discriminate.
  - vm_compute. split; discriminate.
  - vm_compute. split; [discriminate | reflexivity].
  - intros i Hi. change (depth in_paren_block) with 3 in Hi.
    assert (Hcases : i = 0 \/ i = 1 \/ i = 2) by lia.
    destruct Hcases as [-> | [-> | ->]]; vm_compute;
      (split; [tauto | split; [discriminate | reflexivity]]).
  - reflexivity.
  - reflexivity.
Defined.

(** ** The valid-symbols bitmap is honoured, but for one path *)

Ltac gate :=
  unfold gated; cbn [ok lex emit fail set_result result_symbol];
  intros;
  repeat match goal with
         | H : _ && _ = true |- _ => apply andb_true_iff in H; destruct H
         end;
  first [ assumption | discriminate ].

Lemma gated_eof_rule s lx valid : gated valid (eof_rule s lx valid).
Proof. unfold eof_rule. split_ifs; gate. Qed.

Lemma gated_scan_string_mode s lx valid : gated valid (scan_string_mode s lx valid).
Proof.
  unfold scan_string_mode.
  destruct (valid STRING_CONTENT && negb (is_string_stop (lookahead lx))) eqn:Hc.
  - pose proof (scan_string_content_loop_result_symbol
                  (List.length (chars (set_result lx STRING_CONTENT))) false
                  (set_result lx STRING_CONTENT)) as Hsym.
    unfold scan_string_content.
    destruct (scan_string_content_loop _ _ _) as [has_content lx1].
    simpl in Hsym. unfold gated. cbn [ok lex]. rewrite Hsym. intros _.
    apply andb_true_iff in Hc. apply Hc.
  - split_ifs; gate.
Qed.

Lemma gated_scan_layout s lx valid :
  match scan_layout s lx valid with
  | Return r => gated valid r
  | Continue _ => True
  end.
Proof.
  unfold scan_layout. destruct (in_non_indented s).
  - unfold layout_non_indented, open_block. split_ifs; try exact I; gate.
  - unfold layout_indented.
    destruct (skip_to_line_start lx) as [lx1 at_newline].
    pose proof (gated_eof_rule s lx1 valid).
    destruct (eof lx1); [assumption|].
    unfold start_block_phase, auto_close_phase, indentation_phase, open_block.
    repeat (cbn [and_then];
            match goal with
            | |- context [if ?c then _ else _] => destruct c eqn:?
            end);
      cbn [and_then]; try exact I; gate.
Qed.

Lemma gated_scan_op2 s lx valid second tok2 tok1 :
  gated valid (scan_op2 s lx valid second tok2 tok1).
Proof. unfold scan_op2. split_ifs; gate. Qed.

Lemma gated_scan_op3 s lx valid second tok2 second' tok2' tok1 :
  gated valid (scan_op3 s lx valid second tok2 second' tok2' tok1).
Proof. unfold scan_op3. split_ifs; gate. Qed.

Lemma gated_scan_comment s lx valid : gated valid (scan_comment s lx valid).
Proof. unfold scan_comment. split_ifs; gate. Qed.

Lemma gated_scan_quote s lx valid : gated valid (scan_quote s lx valid).
Proof.
  unfold scan_quote.
  destruct (take_word is_id_char _ _) as [buf lx2]. split_ifs; gate.
Qed.

(** Every path of [scan_token] but the one for a leading underscore checks
    the bitmap. *)
Lemma gated_scan_token s lx valid :
  lookahead lx <> chr "_" -> gated valid (scan_token s lx valid).
Proof.
  intros Hnot. apply Z.eqb_neq in Hnot.
  unfold scan_token. rewrite Hnot.
  pose proof (gated_eof_rule s lx valid).
  pose proof (gated_scan_comment s lx valid).
  pose proof (gated_scan_quote s lx valid).
  pose proof (fun second tok2 tok1 => gated_scan_op2 s lx valid second tok2 tok1).
  pose proof (fun second tok2 second' tok2' tok1 =>
                gated_scan_op3 s lx valid second tok2 second' tok2' tok1).
  destruct (scan_upper_id lx valid) as [tok1 lxu].
  destruct (scan_lower_id_or_keyword lx valid) as [tok2 lxl].
  destruct (scan_int_literal lx) as [found lxi].
  split_ifs; auto; gate.
Qed.

Lemma scan_underscore_symbol s lx valid :
  ok (scan_underscore s lx valid) = true ->
  result_symbol (lex (scan_underscore s lx valid)) = UPPER_ID \/
  result_symbol (lex (scan_underscore s lx valid)) = LOWER_ID \/
  (result_symbol (lex (scan_underscore s lx valid)) = UNDERSCORE /\
   valid UNDERSCORE = true).
Proof.
  unfold scan_underscore. split_ifs; cbn; intros Hok; auto; discriminate.
Qed.

Lemma scan_token_underscore s lx valid :
  lookahead lx = chr "_" -> eof lx = false ->
  scan_token s lx valid = scan_underscore s lx valid.
Proof.
  intros Hla Heof. unfold scan_token. rewrite Heof, Hla. decide_tests. reflexivity.
Qed.

(** X13. A token returned by [scan] is valid in the bitmap of the call,
    with one exception: an identifier that starts with an underscore is
    returned as UPPER_ID or LOWER_ID without the bitmap being looked at. *)
Theorem scan_honours_valid_symbols s lx valid :
  ok (scan s lx valid) = true ->
  valid (result_symbol (lex (scan s lx valid))) = true \/
  (exists lx1,
      scan_layout s lx valid = Continue lx1 /\
      lookahead lx1 = chr "_" /\
      (result_symbol (lex (scan s lx valid)) = UPPER_ID \/
       result_symbol (lex (scan s lx valid)) = LOWER_ID)).
Proof.
  unfold scan.
  destruct (pending_taken s valid) eqn:Hp.
  { intros _. left. unfold pending_taken in Hp.
    apply andb_true_iff in Hp. apply Hp. }
  destruct (in_string s).
  { intros Hok. left. now apply gated_scan_string_mode. }
  pose proof (gated_scan_layout s lx valid) as Hl.
  destruct (scan_layout s lx valid) as [r|lx1]; cbn [finish].
  { intros Hok. left. now apply Hl. }
  intros Hok.
  destruct (Z.eq_dec (lookahead lx1) (chr "_")) as [Hus | Hnot].
  - destruct (eof lx1) eqn:Heof.
    { unfold eof in Heof. unfold lookahead in Hus.
      destruct (chars lx1); [discriminate Hus | discriminate Heof]. }
    rewrite (scan_token_underscore s lx1 valid Hus Heof) in *.
    destruct (scan_underscore_symbol s lx1 valid Hok) as [H | [H | [H Hv]]].
    + right. exists lx1. auto.
    + right. exists lx1. auto.
    + left. now rewrite H.
  - left. now apply gated_scan_token.
Qed.

Lemma scan_honours_valid_symbols_witness :
  valid_of [KW_IF; LOWER_ID]
    (result_symbol (lex (scan create (lexer_at (cstr "if x") 0) (valid_of [KW_IF; LOWER_ID]))))
  = true.
Proof.
  destruct (scan_honours_valid_symbols create (lexer_at (cstr "if x") 0)
              (valid_of [KW_IF; LOWER_ID]) eq_refl)
    as [Hvalid | (lx1 & _ & Hus & _)].
  - exact Hvalid.
  - reflexivity.
Defined.

(** The exception of X13 does occur: [_x] is returned as LOWER_ID to a
    parser that accepts no token at all. *)
Example underscore_identifier_is_not_gated :
  ok (scan create (lexer_at (cstr "_x") 0) (valid_of [])) = true /\
  result_symbol (lex (scan create (lexer_at (cstr "_x") 0) (valid_of []))) = LOWER_ID /\
  valid_of [] LOWER_ID = false.
Proof. repeat split. Qed.

(** ** Skipping to the first token of a line *)

Lemma skip_cons lx c rest :
  chars lx = c :: rest ->
  chars (skip lx) = rest /\
  position (skip lx) = position lx + 1 /\
  token_start (skip lx) = position lx + 1 /\
  token_end (skip lx) = token_end lx /\
  result_symbol (skip lx) = result_symbol lx.
Proof.
  intros H. unfold skip, ts_advance. rewrite H. simpl. repeat split.
Qed.

Lemma skip_nil lx : chars lx = [] -> skip lx = lx.
Proof. intros H. unfold skip, ts_advance. now rewrite H. Qed.

Lemma while_step_skip_chars p :
  forall fuel lx,
    (List.length (chars lx) <= fuel)%nat ->
    chars (while_step skip p fuel lx) = drop_while p (chars lx).
Proof.
  induction fuel as [|f IH]; intros lx Hlen.
  - destruct (chars lx) eqn:Hc; simpl in Hlen; [|lia]. simpl. now rewrite Hc.
  - cbn [while_step]. destruct (chars lx) as [|c rest] eqn:Hc.
    + rewrite (skip_nil lx Hc). destruct (p (lookahead lx)).
      * specialize (IH lx). rewrite Hc in IH. apply IH. simpl. lia.
      * now rewrite Hc.
    + rewrite (lookahead_cons lx c rest Hc). cbn [drop_while].
      destruct (p c); [|exact Hc].
      destruct (skip_cons lx c rest Hc) as (Ha & _).
      rewrite IH; rewrite Ha; [reflexivity | simpl in Hlen; lia].
Qed.

Lemma skip_horizontal_ws_chars lx :
  chars (skip_horizontal_ws lx) = drop_while is_hspace (chars lx).
Proof. apply while_step_skip_chars. lia. Qed.

Lemma drop_while_length {A : Type} (p : A -> bool) (l : list A) :
  (List.length (drop_while p l) <= List.length l)%nat.
Proof.
  induction l as [|x l IH]; [simpl; lia|].
  simpl. destruct (p x); simpl; lia.
Qed.

Lemma hd_drop_while_stops (p : Z -> bool) (l : list Z) :
  p 0 = false -> p (hd 0 (drop_while p l)) = false.
Proof.
  intros Hp0. induction l as [|x l IH]; [exact Hp0|].
  simpl. destruct (p x) eqn:E; [exact IH | exact E].
Qed.

Lemma is_newline_is_space c : is_newline c = true -> is_space c = true.
Proof. intros H. unfold is_space. rewrite H. apply orb_true_r. Qed.

Lemma is_hspace_not_newline c : is_hspace c = true -> is_newline c = false.
Proof.
  unfold is_hspace, is_newline. intros H. apply orb_true_iff in H.
  destruct H as [H | H]; apply Z.eqb_eq in H; subst c; reflexivity.
Qed.

Lemma drop_while_space_after_hspace l :
  drop_while is_space (drop_while is_hspace l) = drop_while is_space l.
Proof.
  induction l as [|c l IH]; [reflexivity|].
  cbn [drop_while]. destruct (is_hspace c) eqn:Hh.
  - rewrite IH. unfold is_space. now rewrite Hh.
  - reflexivity.
Qed.

Lemma newline_in_space_after_hspace l :
  existsb is_newline (take_while is_space (drop_while is_hspace l))
  = existsb is_newline (take_while is_space l).
Proof.
  induction l as [|c l IH]; [reflexivity|].
  cbn [drop_while]. destruct (is_hspace c) eqn:Hh.
  - rewrite IH. cbn [take_while]. unfold is_space at 2. rewrite Hh.
    cbn [orb existsb]. now rewrite (is_hspace_not_newline c Hh).
  - reflexivity.
Qed.

Lemma drop_while_space_stopped l :
  is_space (hd 0 l) = false -> l = [] \/ drop_while is_space l = l.
Proof.
  destruct l as [|c l]; [now left|]. simpl. intros H. right. now rewrite H.
Qed.

Lemma cross_newlines_loop_spec :
  forall fuel lx at_newline,
    (List.length (chars lx) <= fuel)%nat ->
    is_hspace (lookahead lx) = false ->
    chars (fst (cross_newlines_loop fuel lx at_newline))
    = drop_while is_space (chars lx) /\
    snd (cross_newlines_loop fuel lx at_newline)
    = at_newline || existsb is_newline (take_while is_space (chars lx)).
Proof.
  induction fuel as [|f IH]; intros lx at_newline Hlen Hh.
  - destruct (chars lx) eqn:Hc; simpl in Hlen; [|lia].
    simpl. rewrite Hc. simpl. now rewrite orb_false_r.
  - cbn [cross_newlines_loop].
    destruct (chars lx) as [|c rest] eqn:Hc.
    + rewrite (lookahead_nil lx Hc). change (is_newline 0) with false.
      cbn. rewrite Hc. simpl. now rewrite orb_false_r.
    + rewrite (lookahead_cons lx c rest Hc) in *.
      destruct (is_newline c) eqn:Hnl.
      * destruct (skip_cons lx c rest Hc) as (Hs & _).
        pose proof (skip_horizontal_ws_chars (skip lx)) as Hws. rewrite Hs in Hws.
        assert (Hstop : is_hspace (lookahead (skip_horizontal_ws (skip lx))) = false).
        { rewrite lookahead_hd, Hws. now apply hd_drop_while_stops. }
        cbn [drop_while take_while]. rewrite (is_newline_is_space c Hnl).
        cbn [existsb]. rewrite Hnl. cbn [orb]. rewrite orb_true_r.
        destruct (is_newline (lookahead (skip_horizontal_ws (skip lx)))) eqn:Hnext.
        -- destruct (IH (skip_horizontal_ws (skip lx)) true) as [I1 I2].
           { rewrite Hws. pose proof (drop_while_length is_hspace rest).
             simpl in Hlen. lia. }
           { exact Hstop. }
           rewrite I1, I2, Hws. split; [apply drop_while_space_after_hspace | reflexivity].
        -- cbn [fst snd]. split; [|reflexivity].
           rewrite Hws, <- (drop_while_space_after_hspace rest).
           assert (Hsp : is_space (hd 0 (drop_while is_hspace rest)) = false).
           { rewrite lookahead_hd, Hws in Hstop, Hnext. unfold is_space.
             now rewrite Hstop, Hnext. }
           destruct (drop_while_space_stopped _ Hsp) as [E | E]; now rewrite E.
      * cbn [fst snd drop_while take_while]. unfold is_space. rewrite Hh, Hnl.
        cbn. rewrite Hc. now rewrite orb_false_r.
Qed.

Lemma skip_to_line_start_run lx :
  chars (fst (skip_to_line_start lx)) = drop_while is_space (chars lx) /\
  snd (skip_to_line_start lx)
  = existsb is_newline (take_while is_space (chars lx)) /\
  is_space (lookahead (fst (skip_to_line_start lx))) = false.
Proof.
  unfold skip_to_line_start.
  pose proof (skip_horizontal_ws_chars lx) as Hws.
  destruct (cross_newlines_loop_spec
              (List.length (chars (skip_horizontal_ws lx)))
              (skip_horizontal_ws lx) false) as [Hc Hf].
  - lia.
  - rewrite lookahead_hd, Hws. now apply hd_drop_while_stops.
  - split; [|split].
    + rewrite Hc, Hws. apply drop_while_space_after_hspace.
    + rewrite Hf, Hws. cbn [orb]. apply newline_in_space_after_hspace.
    + rewrite lookahead_hd, Hc. now apply hd_drop_while_stops.
Qed.

(** X15. [skip_to_line_start] consumes exactly the longest run of blanks,
    tabs, line feeds and carriage returns in front of the lexer, so the
    layout decisions are taken at a code point that is none of them (or at
    end of input), and its flag tells whether that run held a newline.  In
    particular the flag is false only when the lookahead is not a newline:
    the call of [skip_blank_lines] in the START_BLOCK phase is never
    reached. *)
Theorem skip_to_line_start_spec lx :
  chars (fst (skip_to_line_start lx)) = drop_while is_space (chars lx) /\
  snd (skip_to_line_start lx)
  = existsb is_newline (take_while is_space (chars lx)) /\
  is_space (lookahead (fst (skip_to_line_start lx))) = false.
Proof. apply skip_to_line_start_run. Qed.

Lemma is_space_false_newline c : is_space c = false -> is_newline c = false.
Proof. unfold is_space. intros H. apply orb_false_iff in H. apply H. Qed.

(** X16. The START_BLOCK phase of an indented frame behaves the same on the
    line of the colon and after a newline: at the first code point that is
    not white space it opens a block at that column when START_BLOCK is
    valid and the code point is not [#], and otherwise hands the same lexer
    on.  It never consumes input of its own. *)
Theorem start_block_phase_after_skip s valid lx :
  start_block_phase s valid (snd (skip_to_line_start lx)) (fst (skip_to_line_start lx))
  = if valid START_BLOCK
       && negb (lookahead (fst (skip_to_line_start lx)) =? chr "#")
    then Return (open_block s (fst (skip_to_line_start lx)))
    else Continue (fst (skip_to_line_start lx)).
Proof.
  destruct (skip_to_line_start_run lx) as (_ & _ & Hsp).
  apply is_space_false_newline in Hsp.
  unfold start_block_phase. rewrite Hsp.
  destruct (valid START_BLOCK); [|reflexivity].
  destruct (snd (skip_to_line_start lx));
    destruct (lookahead (fst (skip_to_line_start lx)) =? chr "#") eqn:E;
    cbn [negb andb and_then]; rewrite ?E; reflexivity.
Qed.

(** ** Layout tokens are empty *)

Lemma skips_space_refl lx : token_start lx = position lx -> skips_space lx lx.
Proof.
  intros H. split; [exact H|]. split; [reflexivity|]. exists []. now split.
Qed.

Lemma skips_space_trans lx1 lx2 lx3 :
  skips_space lx1 lx2 -> skips_space lx2 lx3 -> skips_space lx1 lx3.
Proof.
  intros (_ & He1 & ws1 & Hc1 & Hw1) (Hs2 & He2 & ws2 & Hc2 & Hw2).
  split; [exact Hs2|]. split; [congruence|].
  exists (ws1 ++ ws2). split.
  - rewrite Hc1, Hc2. now rewrite app_assoc.
  - rewrite forallb_app. now rewrite Hw1, Hw2.
Qed.

Lemma skips_space_skip lx :
  is_space (lookahead lx) = true -> skips_space lx (skip lx).
Proof.
  intros Hsp. destruct (chars lx) as [|c rest] eqn:Hc.
  - rewrite (lookahead_nil lx Hc) in Hsp. discriminate Hsp.
  - rewrite (lookahead_cons lx c rest Hc) in Hsp.
    destruct (skip_cons lx c rest Hc) as (H1 & H2 & H3 & H4 & _).
    split; [congruence|]. split; [exact H4|].
    exists [c]. split; [now rewrite H1, Hc | simpl; now rewrite Hsp].
Qed.

Lemma skips_space_while_skip p :
  (forall c, p c = true -> is_space c = true) ->
  forall fuel lx,
    token_start lx = position lx ->
    skips_space lx (while_step skip p fuel lx).
Proof.
  intros Hp. induction fuel as [|f IH]; intros lx Hst.
  - now apply skips_space_refl.
  - cbn [while_step]. destruct (p (lookahead lx)) eqn:E.
    + pose proof (skips_space_skip lx (Hp _ E)) as Hstep.
      apply (skips_space_trans _ _ _ Hstep). apply IH. apply Hstep.
    + now apply skips_space_refl.
Qed.

Lemma is_hspace_is_space c : is_hspace c = true -> is_space c = true.
Proof. intros H. unfold is_space. now rewrite H. Qed.

Lemma skips_space_horizontal lx :
  token_start lx = position lx -> skips_space lx (skip_horizontal_ws lx).
Proof. apply skips_space_while_skip. exact is_hspace_is_space. Qed.

Lemma skips_space_all_ws lx :
  token_start lx = position lx -> skips_space lx (skip_all_ws lx).
Proof. apply skips_space_while_skip. auto. Qed.

Lemma skips_space_newlines_loop :
  forall fuel lx,
    token_start lx = position lx ->
    skips_space lx (skip_newlines_loop fuel lx).
Proof.
  induction fuel as [|f IH]; intros lx Hst.
  - now apply skips_space_refl.
  - cbn [skip_newlines_loop]. destruct (is_newline (lookahead lx)) eqn:E.
    + pose proof (skips_space_skip lx (is_newline_is_space _ E)) as H1.
      pose proof (skips_space_horizontal (skip lx) (proj1 H1)) as H2.
      pose proof (skips_space_trans _ _ _ H1 H2) as H3.
      apply (skips_space_trans _ _ _ H3). apply IH. apply H3.
    + now apply skips_space_refl.
Qed.

Lemma skips_space_cross_newlines :
  forall fuel lx at_newline,
    token_start lx = position lx ->
    skips_space lx (fst (cross_newlines_loop fuel lx at_newline)).
Proof.
  induction fuel as [|f IH]; intros lx at_newline Hst.
  - now apply skips_space_refl.
  - cbn [cross_newlines_loop]. destruct (is_newline (lookahead lx)) eqn:E.
    + pose proof (skips_space_skip lx (is_newline_is_space _ E)) as H1.
      pose proof (skips_space_horizontal (skip lx) (proj1 H1)) as H2.
      pose proof (skips_space_trans _ _ _ H1 H2) as H3.
      destruct (is_newline (lookahead (skip_horizontal_ws (skip lx)))).
      * apply (skips_space_trans _ _ _ H3). apply IH. apply H3.
      * exact H3.
    + now apply skips_space_refl.
Qed.

Lemma skips_space_to_line_start lx :
  token_start lx = position lx -> skips_space lx (fst (skip_to_line_start lx)).
Proof.
  intros Hst. unfold skip_to_line_start.
  pose proof (skips_space_horizontal lx Hst) as H1.
  apply (skips_space_trans _ _ _ H1).
  apply skips_space_cross_newlines. apply H1.
Qed.

Lemma skips_space_blank_lines_loop :
  forall fuel lx,
    token_start lx = position lx ->
    skips_space lx (skip_blank_lines_loop fuel lx).
Proof.
  induction fuel as [|f IH]; intros lx Hst.
  - now apply skips_space_refl.
  - cbn [skip_blank_lines_loop]. destruct (is_newline (lookahead lx)) eqn:E.
    + pose proof (skips_space_skip lx (is_newline_is_space _ E)) as H1.
      apply (skips_space_trans _ _ _ H1). apply IH. apply H1.
    + destruct (is_hspace (lookahead lx)); [|now apply skips_space_refl].
      pose proof (skips_space_while_skip is_hspace is_hspace_is_space
                    (List.length (chars lx)) lx Hst) as H1.
      fold (while_skip is_hspace lx) in H1.
      destruct (is_newline (lookahead (while_skip is_hspace lx))).
      * apply (skips_space_trans _ _ _ H1). apply IH. apply H1.
      * exact H1.
Qed.

Lemma skips_space_set_result lx lx' t :
  skips_space lx lx' -> skips_space lx (set_result lx' t).
Proof. intros H. exact H. Qed.

Lemma skips_space_eof_rule s lx lx' valid :
  skips_space lx lx' -> skips_space lx (lex (eof_rule s lx' valid)).
Proof. intros H. unfold eof_rule. split_ifs; exact H. Qed.

(** The lexer of whatever the layout phase returns or hands on has only
    skipped white space. *)
Lemma scan_layout_skips_space s lx valid :
  token_start lx = position lx ->
  match scan_layout s lx valid with
  | Return r => skips_space lx (lex r)
  | Continue lx1 => skips_space lx lx1
  end.
Proof.
  intros Hst. unfold scan_layout. destruct (in_non_indented s).
  - unfold layout_non_indented, open_block.
    pose proof (skips_space_horizontal lx Hst) as H1.
    pose proof (skips_space_trans _ _ _ H1
                  (skips_space_newlines_loop
                     (List.length (chars (skip_horizontal_ws lx)))
                     (skip_horizontal_ws lx) (proj1 H1))) as H2.
    pose proof (skips_space_trans _ _ _ H1
                  (skips_space_all_ws (skip_horizontal_ws lx) (proj1 H1))) as H3.
    split_ifs; assumption.
  - unfold layout_indented.
    pose proof (skips_space_to_line_start lx Hst) as H1.
    destruct (skip_to_line_start lx) as [lx1 at_newline]. cbn [fst] in H1.
    pose proof (skips_space_eof_rule s lx lx1 valid H1) as H2.
    destruct (eof lx1); [exact H2|].
    pose proof (skips_space_trans _ _ _ H1
                  (skips_space_blank_lines_loop (List.length (chars lx1)) lx1
                     (proj1 H1))) as H3.
    fold (skip_blank_lines lx1) in H3.
    unfold start_block_phase, auto_close_phase, indentation_phase, open_block.
    repeat (cbn [and_then];
            match goal with
            | |- context [if ?c then _ else _] => destruct c eqn:?
            end);
      cbn [and_then]; assumption.
Qed.

Lemma plain_token_not_layout t : plain_token t = true -> is_layout_token t = false.
Proof. destruct t; simpl; intros H; try reflexivity; discriminate H. Qed.

Ltac not_layout :=
  unfold no_layout; cbn [ok lex emit fail set_result result_symbol];
  intros; first [ reflexivity | discriminate | assumption ].

Lemma no_layout_scan_op2 s lx valid second tok2 tok1 :
  is_layout_token tok2 = false -> is_layout_token tok1 = false ->
  no_layout (scan_op2 s lx valid second tok2 tok1).
Proof. intros H2 H1. unfold scan_op2. split_ifs; not_layout. Qed.

Lemma no_layout_scan_op3 s lx valid second tok2 second' tok2' tok1 :
  is_layout_token tok2 = false -> is_layout_token tok2' = false ->
  is_layout_token tok1 = false ->
  no_layout (scan_op3 s lx valid second tok2 second' tok2' tok1).
Proof. intros H2 H2' H1. unfold scan_op3. split_ifs; not_layout. Qed.

Lemma no_layout_scan_comment s lx valid : no_layout (scan_comment s lx valid).
Proof. unfold scan_comment. split_ifs; not_layout. Qed.

Lemma no_layout_scan_quote s lx valid : no_layout (scan_quote s lx valid).
Proof.
  unfold scan_quote. destruct (take_word is_id_char _ _) as [buf lx2].
  split_ifs; not_layout.
Qed.

Lemma no_layout_scan_underscore s lx valid : no_layout (scan_underscore s lx valid).
Proof. unfold scan_underscore. split_ifs; not_layout. Qed.

Lemma no_layout_scan_string_mode s lx valid : no_layout (scan_string_mode s lx valid).
Proof.
  unfold scan_string_mode.
  destruct (valid STRING_CONTENT && negb (is_string_stop (lookahead lx))).
  - pose proof (scan_string_content_loop_result_symbol
                  (List.length (chars (set_result lx STRING_CONTENT))) false
                  (set_result lx STRING_CONTENT)) as Hsym.
    unfold scan_string_content.
    destruct (scan_string_content_loop _ _ _) as [has_content lx1].
    simpl in Hsym. unfold no_layout. cbn [ok lex]. now rewrite Hsym.
  - split_ifs; not_layout.
Qed.

(** Before the end of input, [scan_token] returns no layout token. *)
Lemma no_layout_scan_token s lx valid :
  eof lx = false -> no_layout (scan_token s lx valid).
Proof.
  intros Heof. unfold scan_token. rewrite Heof.
  destruct (lookahead lx =? chr "#"); [apply no_layout_scan_comment|].
  destruct ((lookahead lx =? DQUOTE) && valid BEGIN_STR); [not_layout|].
  destruct ((lookahead lx =? BTICK) && valid END_INTERPOLATION); [not_layout|].
  destruct (lookahead lx =? BSLASH).
  { destruct (_ && _); not_layout. }
  destruct ((lookahead lx =? chr "(") && valid LPAREN); [not_layout|].
  destruct ((lookahead lx =? chr ")") && valid RPAREN); [not_layout|].
  destruct ((lookahead lx =? chr "[") && valid LBRACKET); [not_layout|].
  destruct ((lookahead lx =? chr "]") && valid RBRACKET); [not_layout|].
  destruct ((lookahead lx =? chr "{") && valid LBRACE); [not_layout|].
  destruct ((lookahead lx =? chr "}") && valid RBRACE); [not_layout|].
  destruct (lookahead lx =? SQUOTE); [apply no_layout_scan_quote|].
  destruct ((lookahead lx =? chr "_") || is_upper (lookahead lx)).
  { destruct (lookahead lx =? chr "_"); [apply no_layout_scan_underscore|].
    pose proof (scan_upper_id_token lx valid) as Htok.
    destruct (scan_upper_id lx valid) as [tok lx1]. simpl in Htok.
    destruct Htok as [-> | Hplain]; [not_layout|].
    apply plain_token_not_layout in Hplain. destruct (_ && _); not_layout. }
  destruct (is_lower (lookahead lx)).
  { pose proof (scan_lower_id_or_keyword_token lx valid) as Htok.
    destruct (scan_lower_id_or_keyword lx valid) as [tok lx1]. simpl in Htok.
    destruct Htok as [-> | Hplain]; [not_layout|].
    apply plain_token_not_layout in Hplain. destruct (_ && _); not_layout. }
  destruct (is_digit (lookahead lx) && valid INT_LITERAL).
  { destruct (scan_int_literal lx) as [found lx1]. destruct found; not_layout. }
  repeat match goal with
         | |- context [if ?c then scan_op2 _ _ _ _ _ _ else _] =>
             destruct c; [apply no_layout_scan_op2; reflexivity|]
         | |- context [if ?c then scan_op3 _ _ _ _ _ _ _ _ else _] =>
             destruct c; [apply no_layout_scan_op3; reflexivity|]
         end.
  split_ifs; not_layout.
Qed.

(** X14. Layout tokens are empty.  When a call that starts with the token
    start at the position of the lexer returns START_BLOCK, END_BLOCK or
    NEWLINE, every code point it consumed was a blank, a tab or a newline and
    was skipped: the token starts where the lexer ends up and no end was
    marked, so the token has no extent and no content is lost. *)
Theorem layout_tokens_are_empty s lx valid :
  token_start lx = position lx ->
  ok (scan s lx valid) = true ->
  is_layout_token (result_symbol (lex (scan s lx valid))) = true ->
  skips_space lx (lex (scan s lx valid)).
Proof.
  intros Hst. unfold scan.
  destruct (pending_taken s valid).
  { intros _ _. unfold scan_pending. cbn [lex emit].
    apply skips_space_set_result. now apply skips_space_refl. }
  destruct (in_string s).
  { intros Hok Hlay. rewrite (no_layout_scan_string_mode s lx valid Hok) in Hlay.
    discriminate Hlay. }
  pose proof (scan_layout_skips_space s lx valid Hst) as Hl.
  destruct (scan_layout s lx valid) as [r|lx1]; cbn [finish]; [auto|].
  intros Hok Hlay. destruct (eof lx1) eqn:Heof.
  - unfold scan_token. rewrite Heof. now apply skips_space_eof_rule.
  - rewrite (no_layout_scan_token s lx1 valid Heof Hok) in Hlay. discriminate Hlay.
Qed.

Lemma layout_tokens_are_empty_witness :
  skips_space (lexer_at (LF :: cstr "    y") 5)
    (lex (scan create (lexer_at (LF :: cstr "    y") 5) (valid_of [START_BLOCK]))).
Proof.
  apply (layout_tokens_are_empty create (lexer_at (LF :: cstr "    y") 5)
           (valid_of [START_BLOCK]));
    reflexivity.
Defined.

(** ** String content *)

Lemma scan_string_content_loop_spec :
  forall fuel has_content lx,
    (List.length (chars lx) <= fuel)%nat ->
    is_string_stop (lookahead (snd (scan_string_content_loop fuel has_content lx)))
    = true /\
    fst (scan_string_content_loop fuel has_content lx)
    = has_content || negb (is_string_stop (lookahead lx)) /\
    position lx <= position (snd (scan_string_content_loop fuel has_content lx)) /\
    (is_string_stop (lookahead lx) = false ->
     position lx < position (snd (scan_string_content_loop fuel has_content lx))) /\
    token_start (snd (scan_string_content_loop fuel has_content lx)) = token_start lx /\
    token_end (snd (scan_string_content_loop fuel has_content lx)) = token_end lx.
Proof.
  induction fuel as [|f IH]; intros b lx Hlen.
  - destruct (chars lx) eqn:Hc; simpl in Hlen; [|lia].
    cbn [scan_string_content_loop fst snd]. rewrite (lookahead_nil lx Hc).
    change (is_string_stop 0) with true. cbn.
    rewrite orb_false_r. repeat split; try lia; try (intros; discriminate).
  - cbn [scan_string_content_loop].
    destruct (is_string_stop (lookahead lx)) eqn:Hstop.
    { cbn [fst snd]. rewrite Hstop. cbn. rewrite orb_false_r.
      repeat split; try lia; try (intros; discriminate). }
    destruct (chars lx) as [|c rest] eqn:Hc.
    { rewrite (lookahead_nil lx Hc) in Hstop. discriminate Hstop. }
    destruct (advance_cons lx c rest Hc) as (Ha & Hb & Hd & He & _).
    cbn [negb]. rewrite orb_true_r.
    assert (Hnext : forall lx',
               (List.length (chars lx') <= f)%nat ->
               position lx + 1 <= position lx' ->
               token_start lx' = token_start lx ->
               token_end lx' = token_end lx ->
               is_string_stop (lookahead (snd (scan_string_content_loop f true lx')))
               = true /\
               fst (scan_string_content_loop f true lx') = true /\
               position lx <= position (snd (scan_string_content_loop f true lx')) /\
               (false = false ->
                position lx < position (snd (scan_string_content_loop f true lx'))) /\
               token_start (snd (scan_string_content_loop f true lx')) = token_start lx /\
               token_end (snd (scan_string_content_loop f true lx')) = token_end lx).
    { intros lx' Hl Hp Hs He'.
      destruct (IH true lx' Hl) as (I1 & I2 & I3 & _ & I5 & I6).
      rewrite I2, I5, I6. cbn [orb]. repeat split; auto; try lia; congruence. }
    simpl in Hlen.
    destruct (lookahead lx =? BSLASH).
    + destruct (lookahead (advance lx) =? LF).
      * destruct (chars (advance lx)) as [|c2 rest2] eqn:Hc2.
        -- apply Hnext.
           ++ destruct (while_advance_run is_space (advance (advance lx))) as (W & _).
              rewrite W, (advance_nil _ Hc2), Hc2. simpl. lia.
           ++ destruct (while_advance_run is_space (advance (advance lx)))
                as (_ & W & _).
              rewrite W, (advance_nil _ Hc2). lia.
           ++ destruct (while_advance_run is_space (advance (advance lx)))
                as (_ & _ & W & _).
              rewrite W, (advance_nil _ Hc2). exact Hd.
           ++ destruct (while_advance_run is_space (advance (advance lx)))
                as (_ & _ & _ & W & _).
              rewrite W, (advance_nil _ Hc2). exact He.
        -- destruct (advance_cons _ _ _ Hc2) as (A1 & A2 & A3 & A4 & _).
           destruct (while_advance_run is_space (advance (advance lx)))
             as (W1 & W2 & W3 & W4 & _).
           apply Hnext.
           ++ rewrite W1, A1. pose proof (drop_while_length is_space rest2).
              subst rest. simpl in Hlen. lia.
           ++ rewrite W2, A2. lia.
           ++ rewrite W3, A3. exact Hd.
           ++ rewrite W4, A4. exact He.
      * destruct (negb (lookahead (advance lx) =? 0)).
        -- destruct (chars (advance lx)) as [|c2 rest2] eqn:Hc2.
           ++ rewrite (advance_nil _ Hc2). apply Hnext; auto; try lia.
              rewrite Hc2. simpl. lia.
           ++ destruct (advance_cons _ _ _ Hc2) as (A1 & A2 & A3 & A4 & _).
              apply Hnext; try congruence; try lia.
              rewrite A1. subst rest. simpl in Hlen. lia.
        -- apply Hnext; auto; try lia. rewrite Ha. lia.
    + apply Hnext; auto; try lia. rewrite Ha. lia.
Qed.

(** X17. In string mode, on a lookahead that is neither a double quote, nor
    a backtick, nor 0, with STRING_CONTENT valid (and no dedent to drain), a
    call always succeeds: it returns STRING_CONTENT, consumes at least one
    code point, leaves the state untouched and stops in front of a double
    quote, a backtick or a 0 (end of input included).  A backslash at the
    very end of the input is content like any other. *)
Theorem string_content_run s lx valid :
  pending_taken s valid = false ->
  in_string s = true ->
  valid STRING_CONTENT = true ->
  is_string_stop (lookahead lx) = false ->
  ok (scan s lx valid) = true /\
  result_symbol (lex (scan s lx valid)) = STRING_CONTENT /\
  st (scan s lx valid) = s /\
  is_string_stop (lookahead (lex (scan s lx valid))) = true /\
  position lx < position (lex (scan s lx valid)) /\
  token_start (lex (scan s lx valid)) = token_start lx /\
  token_end (lex (scan s lx valid)) = token_end lx.
Proof.
  intros Hp Hs Hv Hstop. unfold scan. rewrite Hp, Hs.
  unfold scan_string_mode. rewrite Hv, Hstop. cbn [negb andb].
  pose proof (scan_string_content_loop_result_symbol
                (List.length (chars (set_result lx STRING_CONTENT))) false
                (set_result lx STRING_CONTENT)) as Hsym.
  destruct (scan_string_content_loop_spec
              (List.length (chars (set_result lx STRING_CONTENT))) false
              (set_result lx STRING_CONTENT)) as (H1 & H2 & _ & H4 & H5 & H6); [lia|].
  unfold scan_string_content.
  destruct (scan_string_content_loop _ _ _) as [has_content lx1].
  cbn [fst snd ok st lex] in *.
  change (lookahead (set_result lx STRING_CONTENT)) with (lookahead lx) in H2, H4.
  rewrite Hstop in H2. cbn in H2, H5, H6, Hsym.
  repeat split; auto.
Qed.

Lemma string_content_run_witness :
  ok (scan (call create [DQUOTE] 0 [BEGIN_STR]) (lexer_at [BSLASH] 1)
           (valid_of [STRING_CONTENT; END_STR])) = true /\
  position (lexer_at [BSLASH] 1)
  < position (lex (scan (call create [DQUOTE] 0 [BEGIN_STR]) (lexer_at [BSLASH] 1)
                        (valid_of [STRING_CONTENT; END_STR]))).
Proof.
  destruct (string_content_run (call create [DQUOTE] 0 [BEGIN_STR]) (lexer_at [BSLASH] 1)
              (valid_of [STRING_CONTENT; END_STR]) eq_refl eq_refl eq_refl eq_refl)
    as (Hok & _ & _ & _ & Hpos & _).
  split; [exact Hok | exact Hpos].
Defined.

(** ** Comments *)

Lemma scan_token_hash s lx valid rest :
  chars lx = chr "#" :: rest ->
  scan_token s lx valid = scan_comment s lx valid.
Proof.
  intros Hc. unfold scan_token.
  rewrite (eof_cons lx _ _ Hc), (lookahead_cons lx _ _ Hc).
  decide_tests. reflexivity.
Qed.

(** X18. A [#] not followed by [|] starts a line comment.  With
    LINE_COMMENT valid the token runs from the [#] up to, and not including,
    the next line feed or 0; a carriage return does not end it and is part of
    the comment.  With LINE_COMMENT not valid the call fails.  The state is
    untouched either way. *)
Theorem line_comment_extent s lx valid lx1 rest :
  pending_taken s valid = false ->
  in_string s = false ->
  scan_layout s lx valid = Continue lx1 ->
  chars lx1 = chr "#" :: rest ->
  hd 0 rest <> chr "|" ->
  (valid LINE_COMMENT = true ->
   ok (scan s lx valid) = true /\
   result_symbol (lex (scan s lx valid)) = LINE_COMMENT /\
   st (scan s lx valid) = s /\
   token_start (lex (scan s lx valid)) = token_start lx1 /\
   token_end (lex (scan s lx valid)) =
     Some (position lx1 + 1
           + Z.of_nat (List.length (take_while not_line_end rest))) /\
   chars (lex (scan s lx valid)) = drop_while not_line_end rest /\
   not_line_end (lookahead (lex (scan s lx valid))) = false) /\
  (valid LINE_COMMENT = false ->
   ok (scan s lx valid) = false /\ st (scan s lx valid) = s).
Proof.
  intros Hpend Hs Hl Hc Hbar.
  rewrite (scan_reaches_token s lx valid lx1 Hpend Hs Hl).
  rewrite (scan_token_hash s lx1 valid rest Hc).
  unfold scan_comment.
  assert (Hc' : chars (mark_end lx1) = chr "#" :: rest) by exact Hc.
  destruct (advance_cons (mark_end lx1) _ _ Hc') as (Ha & Hb & Hd & He & _).
  rewrite (lookahead_hd (advance (mark_end lx1))), Ha.
  apply Z.eqb_neq in Hbar. rewrite Hbar.
  split; intros Hv; rewrite Hv; [|now split].
  destruct (while_advance_run not_line_end (advance (mark_end lx1)))
    as (W1 & W2 & W3 & _).
  cbn [emit ok st lex set_result mark_end result_symbol token_start token_end chars].
  rewrite W1, W2, W3, Ha, Hb, Hd.
  cbn [position token_start mark_end].
  repeat split; try (f_equal; lia).
  unfold lookahead.
  cbn [emit ok st lex set_result mark_end result_symbol token_start token_end chars].
  rewrite W1, Ha.
  pose proof (hd_drop_while_stops not_line_end rest eq_refl) as Hstop.
  destruct (drop_while not_line_end rest); exact Hstop.
Qed.

Lemma line_comment_extent_witness :
  token_end (lex (scan create (lexer_at (cstr "  # note" ++ [CR; LF] ++ cstr "x") 0)
                       (valid_of [LINE_COMMENT]))) = Some 9 /\
  chars (lex (scan create (lexer_at (cstr "  # note" ++ [CR; LF] ++ cstr "x") 0)
                   (valid_of [LINE_COMMENT]))) = LF :: cstr "x".
Proof.
  destruct (line_comment_extent create
              (lexer_at (cstr "  # note" ++ [CR; LF] ++ cstr "x") 0)
              (valid_of [LINE_COMMENT])
              (lexer_after_skip 2 2 (cstr "# note" ++ [CR; LF] ++ cstr "x"))
              (cstr " note" ++ [CR; LF] ++ cstr "x")
              eq_refl eq_refl eq_refl eq_refl) as [Hvalid _].
  - vm_compute. discriminate.
  - destruct (Hvalid eq_refl) as (_ & _ & _ & _ & Hend & Hchars & _).
    split; [exact Hend | exact Hchars].
Defined.

(** ** Integer literals: when they fail, and the decimal form *)

Lemma is_digit_range c : is_digit c = true -> 48 <= c <= 57.
Proof.
  unfold is_digit. intros H. apply andb_true_iff in H. destruct H as [H1 H2].
  apply Z.leb_le in H1, H2. change (chr "0") with 48 in H1.
  change (chr "9") with 57 in H2. lia.
Qed.

Lemma scan_token_digit s lx valid c rest :
  chars lx = c :: rest ->
  is_digit c = true ->
  valid INT_LITERAL = true ->
  scan_token s lx valid =
    if fst (scan_int_literal lx)
    then emit s (mark_end (snd (scan_int_literal lx))) INT_LITERAL
    else fail s (snd (scan_int_literal lx)).
Proof.
  intros Hc Hdig Hv. pose proof (is_digit_range c Hdig) as Hr.
  unfold scan_token.
  rewrite (eof_cons lx _ _ Hc), (lookahead_cons lx _ _ Hc), Hdig, Hv.
  repeat match goal with
         | |- context [c =? ?k] =>
             let v := eval vm_compute in k in
             replace (c =? k) with false
               by (symmetry; apply Z.eqb_neq; change k with v; lia)
         end.
  replace (is_upper c) with false.
  2:{ symmetry. unfold is_upper. apply andb_false_iff. left.
      apply Z.leb_gt. change (chr "A") with 65. lia. }
  replace (is_lower c) with false.
  2:{ symmetry. unfold is_lower. apply andb_false_iff. left.
      apply Z.leb_gt. change (chr "a") with 97. lia. }
  cbn [andb orb].
  destruct (scan_int_literal lx) as [found lx1]. reflexivity.
Qed.

Lemma chars_advance lx : chars (advance lx) = tl (chars lx).
Proof.
  unfold advance, ts_advance.
  destruct (chars lx) eqn:E; [now rewrite E | reflexivity].
Qed.

Lemma lookahead_advance lx : lookahead (advance lx) = hd 0 (tl (chars lx)).
Proof. now rewrite lookahead_hd, chars_advance. Qed.

Lemma scan_int_literal_fails lx d rest :
  chars lx = d :: rest ->
  is_digit d = true ->
  fst (scan_int_literal lx) = negb (radix_prefix_without_digit d rest).
Proof.
  intros Hc Hdig. unfold scan_int_literal, radix_prefix_without_digit.
  rewrite (lookahead_cons lx _ _ Hc), Hdig. cbn [negb].
  destruct (d =? chr "0"); [|reflexivity].
  rewrite lookahead_advance, Hc. cbn [tl andb].
  rewrite lookahead_advance, chars_advance, Hc. cbn [tl].
  destruct (hd 0 rest =? chr "x") eqn:Ex.
  { apply Z.eqb_eq in Ex. rewrite Ex. decide_tests.
    unfold is_hex_or_underscore.
    destruct (is_hex (hd 0 (tl rest))), (hd 0 (tl rest) =? chr "_"); reflexivity. }
  destruct (hd 0 rest =? chr "X") eqn:EX.
  { apply Z.eqb_eq in EX. rewrite EX. decide_tests.
    unfold is_hex_or_underscore.
    destruct (is_hex (hd 0 (tl rest))), (hd 0 (tl rest) =? chr "_"); reflexivity. }
  cbn [orb andb].
  destruct (hd 0 rest =? chr "b"), (hd 0 rest =? chr "B"); cbn [orb andb];
    try reflexivity;
    unfold is_bin_or_underscore;
    destruct (is_bin (hd 0 (tl rest))), (hd 0 (tl rest) =? chr "_"); reflexivity.
Qed.

(** X19. Once the integer-literal scanner is reached on a digit with
    INT_LITERAL valid, the call fails in one case only: the literal starts
    with 0x, 0X, 0b or 0B and what follows is neither a digit of that base
    nor an underscore.  Every other digit starts a literal that is emitted;
    the state is untouched either way. *)
Theorem int_literal_fails_only_on_bare_prefix s lx valid lx1 d rest :
  pending_taken s valid = false ->
  in_string s = false ->
  scan_layout s lx valid = Continue lx1 ->
  chars lx1 = d :: rest ->
  is_digit d = true ->
  valid INT_LITERAL = true ->
  ok (scan s lx valid) = negb (radix_prefix_without_digit d rest) /\
  st (scan s lx valid) = s /\
  (ok (scan s lx valid) = true ->
   result_symbol (lex (scan s lx valid)) = INT_LITERAL).
Proof.
  intros Hpend Hs Hl Hc Hdig Hv.
  rewrite (scan_reaches_token s lx valid lx1 Hpend Hs Hl).
  rewrite (scan_token_digit s lx1 valid d rest Hc Hdig Hv).
  rewrite (scan_int_literal_fails lx1 d rest Hc Hdig).
  destruct (radix_prefix_without_digit d rest);
    cbn [negb emit fail ok st lex set_result result_symbol];
    repeat split; auto; intros; discriminate.
Qed.

Lemma int_literal_fails_only_on_bare_prefix_witness :
  ok (scan create (lexer_at (cstr "0Bz") 0) (valid_of [INT_LITERAL])) = false /\
  ok (scan create (lexer_at (cstr "0z") 0) (valid_of [INT_LITERAL])) = true.
Proof.
  destruct (int_literal_fails_only_on_bare_prefix create (lexer_at (cstr "0Bz") 0)
              (valid_of [INT_LITERAL]) (lexer_at (cstr "0Bz") 0) (chr "0") (cstr "Bz")
              eq_refl eq_refl eq_refl eq_refl eq_refl eq_refl) as (H1 & _).
  destruct (int_literal_fails_only_on_bare_prefix create (lexer_at (cstr "0z") 0)
              (valid_of [INT_LITERAL]) (lexer_at (cstr "0z") 0) (chr "0") (cstr "z")
              eq_refl eq_refl eq_refl eq_refl eq_refl eq_refl) as (H2 & _).
  split; [exact H1 | exact H2].
Defined.

Lemma scan_int_literal_decimal lx d rest :
  chars lx = d :: rest ->
  is_digit d = true ->
  is_radix_prefix d rest = false ->
  fst (scan_int_literal lx) = true /\
  chars (snd (scan_int_literal lx)) = drop_while is_digit_or_underscore rest /\
  position (snd (scan_int_literal lx)) =
    position lx + 1 + Z.of_nat (List.length (take_while is_digit_or_underscore rest)) /\
  token_start (snd (scan_int_literal lx)) = token_start lx.
Proof.
  intros Hc Hdig Hpre. unfold scan_int_literal, is_radix_prefix in *.
  rewrite (lookahead_cons lx _ _ Hc), Hdig. cbn [negb].
  destruct (advance_cons lx d rest Hc) as (Ha & Hb & Hd & _).
  destruct (d =? chr "0") eqn:E0.
  - cbn [andb] in Hpre. rewrite lookahead_advance, Hc. cbn [tl].
    apply orb_false_iff in Hpre. destruct Hpre as [Hpre HB].
    apply orb_false_iff in Hpre. destruct Hpre as [Hpre Hb'].
    apply orb_false_iff in Hpre. destruct Hpre as [Hx HX].
    rewrite Hx, HX, Hb', HB. cbn [orb fst snd].
    destruct (while_advance_run is_digit_or_underscore (advance lx))
      as (W1 & W2 & W3 & _).
    rewrite W1, W2, W3, Ha, Hb, Hd. repeat split.
  - cbn [fst snd].
    destruct (while_advance_run is_digit_or_underscore lx) as (W1 & W2 & W3 & _).
    assert (Hdu : is_digit_or_underscore d = true)
      by (unfold is_digit_or_underscore; now rewrite Hdig).
    rewrite W1, W2, W3, Hc. cbn [drop_while take_while].
    rewrite Hdu. cbn [List.length].
    repeat split. lia.
Qed.

(** X20. A literal that starts with a digit and is not of the 0x / 0b form
    is a decimal literal and is always emitted: it runs over the digit and
    the longest run of digits and underscores after it.  Leading zeros and
    trailing or doubled underscores are part of the literal; a sign or a
    letter ends it. *)
Theorem decimal_literal_extent s lx valid lx1 d rest :
  pending_taken s valid = false ->
  in_string s = false ->
  scan_layout s lx valid = Continue lx1 ->
  chars lx1 = d :: rest ->
  is_digit d = true ->
  is_radix_prefix d rest = false ->
  valid INT_LITERAL = true ->
  ok (scan s lx valid) = true /\
  result_symbol (lex (scan s lx valid)) = INT_LITERAL /\
  st (scan s lx valid) = s /\
  token_start (lex (scan s lx valid)) = token_start lx1 /\
  token_end (lex (scan s lx valid)) =
    Some (position lx1 + 1
          + Z.of_nat (List.length (take_while is_digit_or_underscore rest))) /\
  chars (lex (scan s lx valid)) = drop_while is_digit_or_underscore rest.
Proof.
  intros Hpend Hs Hl Hc Hdig Hpre Hv.
  rewrite (scan_reaches_token s lx valid lx1 Hpend Hs Hl).
  rewrite (scan_token_digit s lx1 valid d rest Hc Hdig Hv).
  destruct (scan_int_literal_decimal lx1 d rest Hc Hdig Hpre) as (D1 & D2 & D3 & D4).
  rewrite D1.
  cbn [emit ok st lex set_result mark_end result_symbol token_start token_end chars].
  rewrite D2, D3, D4. repeat split.
Qed.

Lemma decimal_literal_extent_witness :
  token_end (lex (scan create (lexer_at (cstr "007__-1") 0) (valid_of [INT_LITERAL])))
  = Some 5.
Proof.
  destruct (decimal_literal_extent create (lexer_at (cstr "007__-1") 0)
              (valid_of [INT_LITERAL]) (lexer_at (cstr "007__-1") 0)
              (chr "0") (cstr "07__-1")
              eq_refl eq_refl eq_refl eq_refl eq_refl eq_refl eq_refl)
    as (_ & _ & _ & _ & Hend & _).
  exact Hend.
Defined.

(** ** Keywords *)

Lemma bytes_eqb_eq a : forall b, bytes_eqb a b = true -> a = b.
Proof.
  induction a as [|x a IH]; intros [|y b] H; simpl in H; try discriminate H.
  - reflexivity.
  - apply andb_true_iff in H. destruct H as [Hxy H].
    apply Z.eqb_eq in Hxy. subst y. f_equal. now apply IH.
Qed.

(** X21. [lookup_keyword] returns a token other than LOWER_ID exactly for
    the 26 spellings of the keyword table, each with its own token: there
    are no two entries for one spelling, nothing is matched by a prefix, and
    the comparison is case sensitive. *)
Theorem lookup_keyword_table word tok :
  tok <> LOWER_ID ->
  (lookup_keyword word = tok <-> In (word, tok) keywords).
Proof.
  intros Hne. split.
  - unfold lookup_keyword.
    destruct (find _ keywords) as [kw|] eqn:Hfind; [|intros H; congruence].
    apply find_some in Hfind. destruct Hfind as [Hin Hkw].
    apply andb_true_iff in Hkw. destruct Hkw as [_ Heq].
    apply bytes_eqb_eq in Heq. intros <-. rewrite <- Heq.
    destruct kw. exact Hin.
  - intros Hin. unfold keywords in Hin. simpl in Hin.
    repeat (destruct Hin as [Hin|Hin];
            [injection Hin as <- <-; reflexivity|]).
    contradiction.
Qed.

Lemma lookup_keyword_table_witness :
  lookup_keyword (cstr "while") = KW_WHILE /\ lookup_keyword (cstr "While") = LOWER_ID.
Proof.
  split; [|reflexivity].
  apply (lookup_keyword_table (cstr "while") KW_WHILE).
  - discriminate.
  - vm_compute. tauto.
Defined.

Lemma is_id_char_ascii c : is_id_char c = true -> to_char c = c.
Proof.
  intros H. assert (Hr : 0 <= c < 128).
  { unfold is_id_char, is_alnum, is_upper, is_lower, is_digit in H.
    repeat match goal with
           | H : _ || _ = true |- _ => apply orb_true_iff in H; destruct H as [H | H]
           | H : _ && _ = true |- _ => apply andb_true_iff in H; destruct H
           | H : (_ <=? _) = true |- _ => apply Z.leb_le in H
           | H : (_ =? _) = true |- _ => apply Z.eqb_eq in H
           end;
      repeat match goal with
             | H : context [chr ?a] |- _ =>
                 let v := eval vm_compute in (chr a) in change (chr a) with v in H
             end; lia. }
  unfold to_char. rewrite Z.mod_small by lia.
  replace (c <? 128) with true by (symmetry; apply Z.ltb_lt; lia). reflexivity.
Qed.

Lemma take_word_loop_content p (Hp0 : p 0 = false)
    (Hascii : forall c, p c = true -> to_char c = c) :
  forall fuel word lx,
    (List.length (chars lx) <= fuel)%nat ->
    fst (take_word_loop p fuel word lx)
    = word ++ firstn (63 - List.length word) (take_while p (chars lx)).
Proof.
  induction fuel as [|f IH]; intros word lx Hlen.
  - destruct (chars lx) eqn:Hc; simpl in Hlen; [|lia].
    simpl. rewrite firstn_nil. now rewrite app_nil_r.
  - cbn [take_word_loop]. destruct (chars lx) as [|c rest] eqn:Hc.
    + rewrite (lookahead_nil lx Hc), Hp0. simpl. rewrite firstn_nil.
      now rewrite app_nil_r.
    + rewrite (lookahead_cons lx c rest Hc). cbn [take_while].
      destruct (p c) eqn:Hpc; cbn [andb].
      * destruct (Z.of_nat (List.length word) <? 63) eqn:Hlt.
        -- apply Z.ltb_lt in Hlt.
           destruct (advance_cons lx c rest Hc) as (Ha & _).
           rewrite IH by (rewrite Ha; simpl in Hlen; lia).
           rewrite Ha, (Hascii c Hpc), length_app. cbn [List.length].
           replace (63 - List.length word)%nat
             with (S (63 - (List.length word + 1)))%nat by lia.
           cbn [firstn]. now rewrite <- app_assoc.
        -- apply Z.ltb_ge in Hlt.
           replace (63 - List.length word)%nat with 0%nat by lia.
           simpl. now rewrite app_nil_r.
      * simpl. rewrite firstn_nil. now rewrite app_nil_r.
Qed.

Lemma token_eqb_LOWER_ID t : token_eqb t LOWER_ID = true <-> t = LOWER_ID.
Proof. destruct t; simpl; split; intros H; try reflexivity; discriminate H. Qed.

Lemma token_eqb_TOKEN_COUNT t : token_eqb t TOKEN_COUNT = true <-> t = TOKEN_COUNT.
Proof. destruct t; simpl; split; intros H; try reflexivity; discriminate H. Qed.

(** X22. Keywords are contextual.  For a lowercase word of at most 63 bytes
    (a letter and the identifier characters after it), the call returns the
    token [lookup_keyword] gives when the bitmap accepts it; when it does
    not, the word is returned as LOWER_ID if that is accepted, and the call
    fails otherwise.  The token covers the whole word in both cases. *)
Theorem keyword_or_identifier s lx valid lx1 c rest :
  pending_taken s valid = false ->
  in_string s = false ->
  scan_layout s lx valid = Continue lx1 ->
  chars lx1 = c :: rest ->
  is_lower c = true ->
  (List.length (take_while is_id_char rest) <= 62)%nat ->
  (valid (lookup_keyword (c :: take_while is_id_char rest)) = true ->
   ok (scan s lx valid) = true /\
   result_symbol (lex (scan s lx valid))
   = lookup_keyword (c :: take_while is_id_char rest)) /\
  (valid (lookup_keyword (c :: take_while is_id_char rest)) = false ->
   valid LOWER_ID = true ->
   ok (scan s lx valid) = true /\
   result_symbol (lex (scan s lx valid)) = LOWER_ID) /\
  (valid (lookup_keyword (c :: take_while is_id_char rest)) = false ->
   valid LOWER_ID = false ->
   ok (scan s lx valid) = false) /\
  st (scan s lx valid) = s /\
  (ok (scan s lx valid) = true ->
   token_start (lex (scan s lx valid)) = token_start lx1 /\
   token_end (lex (scan s lx valid)) =
     Some (position lx1 + 1
           + Z.of_nat (List.length (take_while is_id_char rest))) /\
   chars (lex (scan s lx valid)) = drop_while is_id_char rest).
Proof.
  intros Hpend Hs Hl Hc Hlow Hfit.
  pose proof (is_lower_range c Hlow) as Hr.
  rewrite (scan_reaches_token s lx valid lx1 Hpend Hs Hl).
  rewrite (scan_token_lower s lx1 valid c rest Hc Hlow).
  unfold scan_lower_id_or_keyword.
  rewrite take_word_stop.
  2:{ rewrite (lookahead_cons lx1 _ _ Hc). unfold is_underscore.
      apply Z.eqb_neq. change (chr "_") with 95. lia. }
  rewrite (lookahead_cons lx1 _ _ Hc), Hlow. cbn [negb app].
  destruct (advance_cons lx1 c rest Hc) as (Ha & Hb & Hd & He & Hf).
  assert (Hcc : to_char c = c).
  { apply is_id_char_ascii. unfold is_id_char, is_alnum. rewrite Hlow.
    now rewrite orb_true_r. }
  rewrite Hcc.
  pose proof (take_word_loop_content is_id_char is_id_char_0 is_id_char_ascii
                (List.length (chars (advance lx1))) [c] (advance lx1)
                (le_n _)) as Hword.
  fold (take_word is_id_char [c] (advance lx1)) in Hword.
  destruct (take_word_run is_id_char is_id_char_0 [c] (advance lx1))
    as (_ & W2 & W3 & W4 & _); [simpl; lia|].
  rewrite Ha in Hword, W2, W3.
  replace (Nat.min (List.length (take_while is_id_char rest))
                   (63 - List.length [c]))
    with (List.length (take_while is_id_char rest)) in W2, W3 by (simpl; lia).
  rewrite skipn_take_while in W2.
  rewrite firstn_all2 in Hword by (simpl; lia).
  cbn [app] in Hword.
  destruct (take_word is_id_char [c] (advance lx1)) as [word lx2].
  cbn [fst snd] in *. subst word.
  set (kw := lookup_keyword (c :: take_while is_id_char rest)).
  assert (Hext : token_start (mark_end lx2) = token_start lx1 /\
                 token_end (mark_end lx2) =
                   Some (position lx1 + 1
                         + Z.of_nat (List.length (take_while is_id_char rest))) /\
                 chars (mark_end lx2) = drop_while is_id_char rest).
  { cbn [mark_end token_start token_end chars]. rewrite W2, W3, W4, Hb, Hd.
    repeat split. }
  destruct (token_eqb kw LOWER_ID) eqn:Ekw.
  - apply token_eqb_LOWER_ID in Ekw. rewrite Ekw.
    cbn [negb andb fst snd]. change (negb (token_eqb LOWER_ID TOKEN_COUNT)) with true.
    cbn [andb].
    destruct (valid LOWER_ID);
      cbn [emit fail ok st lex set_result result_symbol token_start token_end chars];
      repeat split; auto; try (intros; discriminate); try apply Hext.
  - cbn [negb andb].
    destruct (valid kw) eqn:Hvk; cbn [fst snd].
    + assert (Hnc : token_eqb kw TOKEN_COUNT = false).
      { destruct (token_eqb kw TOKEN_COUNT) eqn:E; [|reflexivity].
        apply token_eqb_TOKEN_COUNT in E.
        pose proof (lookup_keyword_plain (c :: take_while is_id_char rest)) as Hpl.
        fold kw in Hpl. rewrite E in Hpl. discriminate Hpl. }
      rewrite Hnc, Hvk.
      cbn [negb andb emit fail ok st lex set_result result_symbol token_start
           token_end chars].
      repeat split; auto; try (intros; discriminate); try apply Hext.
    + change (negb (token_eqb LOWER_ID TOKEN_COUNT)) with true. cbn [andb].
      destruct (valid LOWER_ID);
        cbn [emit fail ok st lex set_result result_symbol token_start token_end chars];
        repeat split; auto; try (intros; discriminate); try apply Hext.
Qed.

Lemma keyword_or_identifier_witness :
  result_symbol (lex (scan create (lexer_at (cstr "type x") 0) (valid_of [LOWER_ID])))
  = LOWER_ID /\
  result_symbol (lex (scan create (lexer_at (cstr "type x") 0)
                           (valid_of [LOWER_ID; KW_TYPE])))
  = KW_TYPE.
Proof.
  destruct (keyword_or_identifier create (lexer_at (cstr "type x") 0)
              (valid_of [LOWER_ID]) (lexer_at (cstr "type x") 0)
              (chr "t") (cstr "ype x") eq_refl eq_refl eq_refl eq_refl eq_refl)
    as (_ & Hident & _).
  { vm_compute. lia. }
  destruct (keyword_or_identifier create (lexer_at (cstr "type x") 0)
              (valid_of [LOWER_ID; KW_TYPE]) (lexer_at (cstr "type x") 0)
              (chr "t") (cstr "ype x") eq_refl eq_refl eq_refl eq_refl eq_refl)
    as (Hkw & _).
  { vm_compute. lia. }
  split; [apply Hident; reflexivity | apply Hkw; reflexivity].
Defined.

(** ** Identifiers that start with an underscore *)

Lemma is_underscore_id_char c : is_underscore c = true -> is_id_char c = true.
Proof.
  unfold is_underscore, is_id_char. intros ->. now rewrite orb_true_r.
Qed.

Lemma take_while_id_after_underscores l :
  List.length (take_while is_id_char l)
  = (List.length (take_while is_underscore l)
     + List.length (take_while is_id_char (drop_while is_underscore l)))%nat
  /\ drop_while is_id_char (drop_while is_underscore l) = drop_while is_id_char l.
Proof.
  induction l as [|c l [IH1 IH2]]; [now split|].
  cbn [take_while drop_while].
  destruct (is_underscore c) eqn:Hu.
  - rewrite (is_underscore_id_char c Hu). cbn [List.length]. split; [lia | exact IH2].
  - cbn [take_while drop_while List.length]. split; reflexivity.
Qed.

Lemma letter_is_id_char c :
  is_upper c || is_lower c = true -> is_id_char c = true.
Proof.
  unfold is_id_char, is_alnum. intros ->. reflexivity.
Qed.

Lemma letter_is_not_0 l :
  is_upper (hd 0 l) || is_lower (hd 0 l) = true -> exists c t, l = c :: t.
Proof.
  destruct l as [|c t]; [discriminate|]. intros _. now exists c, t.
Qed.

(** X23. An identifier that starts with an underscore is scanned without
    the word buffer: when the run of underscores is followed by a letter,
    the call returns UPPER_ID or LOWER_ID (by the case of that letter)
    covering the whole run of identifier characters, however long it is,
    and without asking the bitmap or the keyword table; when it is not,
    the call returns UNDERSCORE if the bitmap accepts it and fails
    otherwise, the token ends after the first underscore, and the other
    underscores are consumed all the same. *)
Theorem underscore_identifier s lx valid lx1 rest :
  pending_taken s valid = false ->
  in_string s = false ->
  scan_layout s lx valid = Continue lx1 ->
  chars lx1 = chr "_" :: rest ->
  st (scan s lx valid) = s /\
  (is_upper (hd 0 (drop_while is_underscore rest))
   || is_lower (hd 0 (drop_while is_underscore rest)) = true ->
   ok (scan s lx valid) = true /\
   result_symbol (lex (scan s lx valid))
   = (if is_upper (hd 0 (drop_while is_underscore rest))
      then UPPER_ID else LOWER_ID) /\
   token_end (lex (scan s lx valid))
   = Some (position lx1 + 1
           + Z.of_nat (List.length (take_while is_id_char rest))) /\
   chars (lex (scan s lx valid)) = drop_while is_id_char rest) /\
  (is_upper (hd 0 (drop_while is_underscore rest))
   || is_lower (hd 0 (drop_while is_underscore rest)) = false ->
   ok (scan s lx valid) = valid UNDERSCORE /\
   token_end (lex (scan s lx valid)) = Some (position lx1 + 1) /\
   position (lex (scan s lx valid))
   = position lx1 + 1
     + Z.of_nat (List.length (take_while is_underscore rest)) /\
   chars (lex (scan s lx valid)) = drop_while is_underscore rest /\
   (valid UNDERSCORE = true ->
    result_symbol (lex (scan s lx valid)) = UNDERSCORE)).
Proof.
  intros Hpend Hs Hl Hc.
  rewrite (scan_reaches_token s lx valid lx1 Hpend Hs Hl).
  rewrite (scan_token_underscore s lx1 valid
             (lookahead_cons lx1 _ _ Hc) (eof_cons lx1 _ _ Hc)).
  unfold scan_underscore.
  destruct (advance_cons lx1 _ _ Hc) as (Ha & Hb & _).
  destruct (while_advance_run is_underscore (mark_end (advance lx1)))
    as (U1 & U2 & _ & U4 & _).
  cbn [mark_end chars position token_end] in U1, U2, U4.
  rewrite Ha in U1, U2. rewrite Hb in U2, U4.
  set (lx2 := while_advance is_underscore (mark_end (advance lx1))) in *.
  rewrite (lookahead_hd lx2), U1.
  destruct (take_while_id_after_underscores rest) as [Hlen Hdrop].
  assert (Hletter :
            is_upper (hd 0 (drop_while is_underscore rest))
            || is_lower (hd 0 (drop_while is_underscore rest)) = true ->
            token_end (mark_end (while_advance is_id_char (advance lx2)))
            = Some (position lx1 + 1
                    + Z.of_nat (List.length (take_while is_id_char rest))) /\
            chars (mark_end (while_advance is_id_char (advance lx2)))
            = drop_while is_id_char rest).
  { intros Hlet. destruct (letter_is_not_0 _ Hlet) as (c & t & Hct).
    rewrite Hct in U1, Hlet, Hlen, Hdrop. cbn [hd] in Hlet.
    destruct (advance_cons lx2 c t U1) as (A1 & A2 & _).
    destruct (while_advance_run is_id_char (advance lx2)) as (I1 & I2 & _).
    rewrite A1 in I1, I2. rewrite A2, U2 in I2.
    cbn [take_while drop_while] in Hlen, Hdrop.
    rewrite (letter_is_id_char c Hlet) in Hlen, Hdrop.
    cbn [List.length] in Hlen.
    cbn [mark_end token_end chars]. rewrite I1, I2, Hdrop. split; [|reflexivity].
    f_equal. lia. }
  destruct (is_upper (hd 0 (drop_while is_underscore rest))) eqn:Hup.
  - destruct (Hletter eq_refl) as [He Hch].
    cbn [orb emit st ok lex set_result result_symbol token_end chars].
    repeat split; auto; intros; discriminate.
  - cbn [orb].
    destruct (is_lower (hd 0 (drop_while is_underscore rest))) eqn:Hlo.
    + destruct (Hletter eq_refl) as [He Hch].
      cbn [emit st ok lex set_result result_symbol token_end chars].
      repeat split; auto; intros; discriminate.
    + destruct (valid UNDERSCORE);
        cbn [emit fail st ok lex set_result result_symbol token_end chars position];
        repeat split; auto; intros; discriminate.
Qed.

Lemma underscore_identifier_witness :
  result_symbol (lex (scan create (lexer_at (cstr "__Foo bar") 0) (valid_of [])))
  = UPPER_ID /\
  token_end (lex (scan create (lexer_at (cstr "__Foo bar") 0) (valid_of [])))
  = Some 5.
Proof.
  destruct (underscore_identifier create (lexer_at (cstr "__Foo bar") 0)
              (valid_of []) (lexer_at (cstr "__Foo bar") 0) (cstr "_Foo bar")
              eq_refl eq_refl eq_refl eq_refl) as (_ & Hletter & _).
  destruct (Hletter eq_refl) as (_ & Hsym & Hend & _).
  split; [exact Hsym | exact Hend].
Defined.

(** ** Character literals *)

(** X24. With [CHAR_LITERAL] accepted and no label to read, a quote starts
    a character literal exactly when the bytes after it have the shape
    [char_literal_shape]: a backslash, any one byte and a quote; a byte
    other than a quote and NUL followed by a quote; or a quote at once, so
    the empty literal of two quotes is taken too. *)
Theorem char_literal_acceptance s lx valid lx1 rest :
  pending_taken s valid = false ->
  in_string s = false ->
  scan_layout s lx valid = Continue lx1 ->
  chars lx1 = SQUOTE :: rest ->
  is_lower (hd 0 rest) && valid LABEL = false ->
  valid CHAR_LITERAL = true ->
  ok (scan s lx valid) = char_literal_shape rest /\
  st (scan s lx valid) = s /\
  (ok (scan s lx valid) = true ->
   result_symbol (lex (scan s lx valid)) = CHAR_LITERAL).
Proof.
  intros Hpend Hs Hl Hc Hlab Hv.
  rewrite (scan_reaches_token s lx valid lx1 Hpend Hs Hl).
  rewrite (scan_token_quote s lx1 valid _ Hc).
  unfold scan_quote.
  destruct (advance_cons lx1 _ _ Hc) as (Ha & _).
  rewrite (lookahead_hd (advance lx1)), Ha, Hlab, Hv.
  destruct rest as [|c after].
  - cbn [hd char_literal_shape]. decide_tests.
    cbn [negb andb]. rewrite (lookahead_hd (advance lx1)), Ha. cbn [hd].
    decide_tests. cbn [fail ok st]. repeat split; intros; discriminate.
  - cbn [hd char_literal_shape].
    destruct (c =? BSLASH) eqn:Hb.
    + rewrite (lookahead_hd (advance (advance (advance lx1)))).
      rewrite !chars_advance, Hc. cbn [tl].
      destruct (hd 0 (tl after) =? SQUOTE);
        cbn [emit fail ok st lex set_result result_symbol];
        repeat split; intros; discriminate.
    + destruct (c =? SQUOTE) eqn:Hq.
      * apply Z.eqb_eq in Hq. subst c. cbn [negb andb].
        rewrite (lookahead_hd (advance lx1)), Ha. cbn [hd]. decide_tests.
        cbn [emit fail ok st lex set_result result_symbol].
        repeat split; intros; discriminate.
      * cbn [negb andb].
        destruct (c =? 0) eqn:Hz.
        -- cbn [negb]. rewrite (lookahead_hd (advance lx1)), Ha. cbn [hd].
           rewrite Hq. cbn [emit fail ok st lex set_result result_symbol].
           repeat split; intros; discriminate.
        -- cbn [negb]. rewrite (lookahead_hd (advance (advance lx1))).
           rewrite chars_advance, Ha. cbn [tl].
           destruct (hd 0 after =? SQUOTE);
             cbn [emit fail ok st lex set_result result_symbol];
             repeat split; intros; discriminate.
Qed.

Lemma char_literal_acceptance_witness :
  ok (scan create (lexer_at [SQUOTE; SQUOTE] 0) (valid_of [CHAR_LITERAL])) = true.
Proof.
  destruct (char_literal_acceptance create (lexer_at [SQUOTE; SQUOTE] 0)
              (valid_of [CHAR_LITERAL]) (lexer_at [SQUOTE; SQUOTE] 0) [SQUOTE]
              eq_refl eq_refl eq_refl eq_refl eq_refl eq_refl)
    as (Hok & _).
  exact Hok.
Defined.

Lemma scan_char_literal_result lx rest :
  chars lx = SQUOTE :: rest ->
  fst (scan_char_literal lx)
  = match rest with
    | c :: d :: _ => negb (c =? SQUOTE) && negb (c =? 0) && (d =? SQUOTE)
    | _ => false
    end /\
  (fst (scan_char_literal lx) = true ->
   position (snd (scan_char_literal lx)) = position lx + 3).
Proof.
  intros Hc. unfold scan_char_literal.
  destruct (advance_cons lx _ _ Hc) as (Ha & Hp & _).
  rewrite (lookahead_hd (advance lx)), Ha.
  destruct rest as [|c rest'].
  - cbn [hd]. decide_tests. cbn [negb andb fst]. split; [reflexivity | discriminate].
  - cbn [hd].
    destruct (advance_cons (advance lx) _ _ Ha) as (Ha' & Hp' & _).
    rewrite (lookahead_hd (advance (advance lx))), Ha'.
    assert (Hend : position (advance (advance (advance lx))) = position lx + 3
                   \/ rest' = []).
    { destruct rest' as [|d rest'']; [now right | left].
      destruct (advance_cons (advance (advance lx)) _ _ Ha') as (_ & Hp'' & _).
      lia. }
    assert (Hnil : rest' = [] -> (hd 0 rest' =? SQUOTE) = false)
      by (intros ->; reflexivity).
    assert (Hhd : (hd 0 rest' =? SQUOTE)
                  = match rest' with d :: _ => d =? SQUOTE | [] => false end)
      by (destruct rest'; reflexivity).
    destruct (c =? BSLASH) eqn:Hb.
    + apply Z.eqb_eq in Hb. subst c. decide_tests. cbn [negb andb].
      rewrite <- Hhd.
      destruct (hd 0 rest' =? SQUOTE) eqn:Hq; cbn [fst snd];
        (split; [destruct rest' as [|? [|? ?]]; cbn in *; congruence|]);
        [intros _ | discriminate].
      destruct Hend as [Hend | Hend]; [exact Hend | specialize (Hnil Hend); congruence].
    + destruct (c =? SQUOTE) eqn:Hsq; cbn [negb andb fst].
      { split; [now destruct rest' | discriminate]. }
      destruct (c =? 0) eqn:Hz; cbn [negb andb fst].
      { split; [now destruct rest' | discriminate]. }
      destruct (hd 0 rest' =? SQUOTE) eqn:Hq; cbn [fst snd];
        (split; [rewrite <- Hhd in *; destruct rest'; cbn in *; congruence|]);
        [intros _ | discriminate].
      destruct Hend as [Hend | Hend]; [exact Hend | specialize (Hnil Hend); congruence].
Qed.

(** X28. The function [scan_char_literal], which [scan] never calls,
    accepts exactly a quote, one code point other than a quote and NUL, and
    a quote, and then consumes these three code points.  A backslash counts
    as that one code point: its escape branch consumes the backslash only,
    so an escape of four code points is refused and a backslash between two
    quotes is accepted. *)
Theorem scan_char_literal_three_code_points lx rest :
  chars lx = SQUOTE :: rest ->
  (fst (scan_char_literal lx) = true <->
   exists c after, rest = c :: SQUOTE :: after /\ c <> SQUOTE /\ c <> 0) /\
  (fst (scan_char_literal lx) = true ->
   position (snd (scan_char_literal lx)) = position lx + 3).
Proof.
  intros Hc. destruct (scan_char_literal_result lx rest Hc) as [Hres Hpos].
  split; [|exact Hpos]. rewrite Hres. split.
  - destruct rest as [|c [|d after]]; try discriminate. intros H.
    apply andb_true_iff in H. destruct H as [H Hd].
    apply andb_true_iff in H. destruct H as [Hq Hz].
    apply Z.eqb_eq in Hd. subst d.
    apply negb_true_iff, Z.eqb_neq in Hq. apply negb_true_iff, Z.eqb_neq in Hz.
    now exists c, after.
  - intros (c & after & -> & Hq & Hz).
    apply Z.eqb_neq in Hq, Hz. rewrite Hq, Hz. reflexivity.
Qed.

Lemma scan_char_literal_three_code_points_witness :
  fst (scan_char_literal (lexer_at [SQUOTE; BSLASH; SQUOTE; chr "x"] 0)) = true /\
  (fst (scan_char_literal (lexer_at [SQUOTE; BSLASH; chr "n"; SQUOTE] 0)) = true ->
   False).
Proof.
  destruct (scan_char_literal_three_code_points
              (lexer_at [SQUOTE; BSLASH; SQUOTE; chr "x"] 0)
              [BSLASH; SQUOTE; chr "x"] eq_refl) as [[_ Hyes] _].
  destruct (scan_char_literal_three_code_points
              (lexer_at [SQUOTE; BSLASH; chr "n"; SQUOTE] 0)
              [BSLASH; chr "n"; SQUOTE] eq_refl) as [[Hno _] _].
  split.
  - apply Hyes. exists BSLASH, [chr "x"]. repeat split; discriminate.
  - intros H. destruct (Hno H) as (c & after & Heq & _). discriminate Heq.
Defined.

(** ** Block comments *)

Lemma block_comment_loop_body :
  forall body fuel nesting lx tail,
    0 < nesting ->
    Forall (fun c => c <> chr "#" /\ c <> chr "|" /\ c <> 0) body ->
    chars lx = body ++ tail ->
    exists lx',
      block_comment_loop (List.length body + fuel) nesting lx
      = block_comment_loop fuel nesting lx' /\
      chars lx' = tail /\
      position lx' = position lx + Z.of_nat (List.length body) /\
      token_start lx' = token_start lx.
Proof.
  induction body as [|c body IH]; intros fuel nesting lx tail Hn Hclean Hc.
  - exists lx. cbn [List.length Nat.add]. repeat split; [exact Hc | simpl; lia].
  - apply Forall_cons_iff in Hclean. destruct Hclean as [(H1 & H2 & H3) Hclean].
    cbn [app] in Hc.
    destruct (advance_cons lx c (body ++ tail) Hc) as (Ha & Hb & Hd & _).
    destruct (IH fuel nesting (advance lx) tail Hn Hclean Ha)
      as (lx' & Hloop & Hch & Hpos & Hts).
    exists lx'. cbn [List.length Nat.add block_comment_loop].
    rewrite (lookahead_cons lx c _ Hc).
    replace (0 <? nesting) with true by (symmetry; now apply Z.ltb_lt).
    apply Z.eqb_neq in H1, H2, H3. rewrite H1, H2, H3. cbn [negb andb].
    repeat split; [exact Hloop | exact Hch | | congruence].
    rewrite Hpos, Hb. lia.
Qed.

(** X25. A block comment without inner comment marks.  For [#|], a body in
    which no [#], [|] or 0 occurs, and then either the closing [|#] or the
    end of the input, a call with BLOCK_COMMENT valid returns BLOCK_COMMENT
    from the [#] to the end of the closing mark.  An unterminated comment is
    no failure: the token then runs to the end of the input.  The state is
    untouched. *)
Theorem block_comment_extent s lx valid lx1 body tail :
  pending_taken s valid = false ->
  in_string s = false ->
  scan_layout s lx valid = Continue lx1 ->
  chars lx1 = chr "#" :: chr "|" :: body ++ tail ->
  Forall (fun c => c <> chr "#" /\ c <> chr "|" /\ c <> 0) body ->
  tail = [] \/ (exists after, tail = chr "|" :: chr "#" :: after) ->
  valid BLOCK_COMMENT = true ->
  ok (scan s lx valid) = true /\
  result_symbol (lex (scan s lx valid)) = BLOCK_COMMENT /\
  st (scan s lx valid) = s /\
  token_start (lex (scan s lx valid)) = token_start lx1 /\
  token_end (lex (scan s lx valid)) =
    Some (position lx1 + 2 + Z.of_nat (List.length body)
          + Z.of_nat (Nat.min 2 (List.length tail))) /\
  chars (lex (scan s lx valid)) = skipn 2 tail.
Proof.
  intros Hpend Hs Hl Hc Hclean Htail Hv.
  rewrite (scan_reaches_token s lx valid lx1 Hpend Hs Hl).
  rewrite (scan_token_hash s lx1 valid _ Hc).
  unfold scan_comment.
  assert (Hc' : chars (mark_end lx1) = chr "#" :: chr "|" :: body ++ tail) by exact Hc.
  destruct (advance_cons (mark_end lx1) _ _ Hc') as (Ha & Hb & Hd & _).
  destruct (advance_cons (advance (mark_end lx1)) _ _ Ha) as (Ha2 & Hb2 & Hd2 & _).
  rewrite (lookahead_cons (advance (mark_end lx1)) _ _ Ha), Hv.
  decide_tests. rewrite Ha2, length_app.
  destruct (block_comment_loop_body body (List.length tail) 1
              (advance (advance (mark_end lx1))) tail ltac:(lia) Hclean Ha2)
    as (lx' & Hloop & Hch & Hpos & Hts).
  rewrite Hloop. rewrite Hb2, Hb in Hpos. rewrite Hd2, Hd in Hts.
  cbn [mark_end position token_start] in Hpos, Hts.
  destruct Htail as [-> | (after & ->)].
  - cbn [List.length block_comment_loop Nat.min skipn].
    cbn [emit ok st lex set_result mark_end result_symbol token_start token_end chars].
    repeat split; auto. f_equal. lia.
  - destruct (advance_cons lx' _ _ Hch) as (A1 & A2 & A3 & _).
    destruct (advance_cons (advance lx') _ _ A1) as (B1 & B2 & B3 & _).
    cbn [List.length block_comment_loop].
    rewrite (lookahead_cons lx' _ _ Hch), (lookahead_cons (advance lx') _ _ A1).
    decide_tests. cbn [negb andb].
    replace (1 - 1) with 0 by lia.
    change (0 <? 0) with false. change (0 <? 1) with true. cbn [andb].
    cbn [emit ok st lex set_result mark_end result_symbol token_start token_end
         chars skipn].
    repeat split; auto; try congruence.
    f_equal. rewrite B2, A2, Hpos. simpl. lia.
Qed.

Lemma block_comment_extent_witness :
  ok (scan create (lexer_at (cstr "#| never closed") 0) (valid_of [BLOCK_COMMENT]))
  = true /\
  token_end (lex (scan create (lexer_at (cstr "#| never closed") 0)
                       (valid_of [BLOCK_COMMENT])))
  = Some 15.
Proof.
  destruct (block_comment_extent create (lexer_at (cstr "#| never closed") 0)
              (valid_of [BLOCK_COMMENT]) (lexer_at (cstr "#| never closed") 0)
              (cstr " never closed") [] eq_refl eq_refl eq_refl eq_refl)
    as (Hok & _ & _ & _ & Hend & _).
  - repeat (apply Forall_cons; [repeat split; discriminate|]). apply Forall_nil.
  - now left.
  - reflexivity.
  - split; [exact Hok | exact Hend].
Defined.

(** ** Strings and interpolation holes *)

Lemma Effect_string_inv s t s' :
  Effect s true t s' ->
  (t = BEGIN_STR -> s' = set_in_string s true /\ in_string s = false) /\
  (t = END_STR -> s' = set_in_string s false) /\
  (t = END_INTERPOLATION ->
   s' = set_in_string
          (if FrameKind_eqb (kind (top_frame s)) FRAME_INTERPOLATION
           then pop_frame s else s) true).
Proof.
  intros Heff.
  split; [|split]; intros Ht; subst t; inversion Heff; subst;
    try match goal with H : plain_token _ = true |- _ => discriminate H end;
    try reflexivity.
  split; [reflexivity | assumption].
Qed.

(** X26. String delimiters balance.  If one call emits BEGIN_STR and the
    next END_STR, the state after the two is the state before them.  If,
    below MAX_DEPTH, one call emits BEGIN_INTERPOLATION and the next
    END_INTERPOLATION, the scanner is back in string mode with the depth,
    the pending dedents, the end-of-input flag and every live frame as they
    were before the hole was opened. *)
Theorem string_delimiters_balance s lx1 valid1 lx2 valid2 :
  Scanner_wf s ->
  ok (scan s lx1 valid1) = true ->
  ok (scan (st (scan s lx1 valid1)) lx2 valid2) = true ->
  (result_symbol (lex (scan s lx1 valid1)) = BEGIN_STR ->
   result_symbol (lex (scan (st (scan s lx1 valid1)) lx2 valid2)) = END_STR ->
   st (scan (st (scan s lx1 valid1)) lx2 valid2) = s) /\
  (depth s < MAX_DEPTH ->
   result_symbol (lex (scan s lx1 valid1)) = BEGIN_INTERPOLATION ->
   result_symbol (lex (scan (st (scan s lx1 valid1)) lx2 valid2))
   = END_INTERPOLATION ->
   live_eq (set_in_string s true)
           (st (scan (st (scan s lx1 valid1)) lx2 valid2))).
Proof.
  intros Hwf Hok1 Hok2.
  pose proof (scan_effect s lx1 valid1) as Heff1.
  pose proof (scan_effect (st (scan s lx1 valid1)) lx2 valid2) as Heff2.
  unfold effect_of in Heff1, Heff2. rewrite Hok1 in Heff1. rewrite Hok2 in Heff2.
  destruct (Effect_string_inv _ _ _ Heff1) as (Hbegin & _ & _).
  destruct (Effect_string_inv _ _ _ Heff2) as (_ & Hend & Hhole).
  destruct (Effect_opening_inv _ _ _ Heff1) as (_ & _ & _ & _ & Hopen).
  split.
  - intros H1 H2. destruct (Hbegin H1) as [Hs1 Hin].
    rewrite (Hend H2), Hs1. destruct s. cbn in *. now subst.
  - intros Hroom H1 H2. rewrite (Hhole H2), (Hopen H1).
    assert (Hwf0 : Scanner_wf (set_in_string s false)) by exact Hwf.
    assert (Hroom0 : depth (set_in_string s false) < MAX_DEPTH) by exact Hroom.
    rewrite (top_frame_push _ FRAME_INTERPOLATION 0 Hwf0 Hroom0).
    cbn [kind FrameKind_eqb].
    destruct (pop_push_live_eq _ FRAME_INTERPOLATION 0 Hwf0 Hroom0)
      as (L1 & L2 & _ & L4 & L5).
    unfold live_eq. cbn [set_in_string depth pending_end_blocks in_string
                         eof_newline_emitted stack] in *.
    repeat split; auto.
Qed.

Lemma string_delimiters_balance_witness :
  st (scan (st (scan create (lexer_at [DQUOTE; DQUOTE] 0) (valid_of [BEGIN_STR])))
           (lexer_at [DQUOTE] 1) (valid_of [END_STR]))
  = create.
Proof.
  destruct (string_delimiters_balance create
              (lexer_at [DQUOTE; DQUOTE] 0) (valid_of [BEGIN_STR])
              (lexer_at [DQUOTE] 1) (valid_of [END_STR])) as [Hstr _].
  - repeat split; vm_compute; congruence.
  - reflexivity.
  - reflexivity.
  - apply Hstr; reflexivity.
Defined.

(** ** Line breaks inside delimiters *)

Lemma skip_all_ws_chars lx :
  chars (skip_all_ws lx) = drop_while is_space (chars lx).
Proof. apply while_step_skip_chars. lia. Qed.

(** X27. Inside a paren, bracket or interpolation frame line breaks are
    not layout.  When NEWLINE is not asked for (and no dedent is drained),
    a call that succeeds returns neither NEWLINE nor END_BLOCK, whatever
    blanks and line breaks lie ahead; and when it returns START_BLOCK, it
    was asked for, all blanks and line breaks ahead were skipped, the lexer
    does not stand at a [#], and the frame pushed has the column where the
    lexer stands. *)
Theorem line_breaks_inside_delimiters s lx valid :
  in_non_indented s = true ->
  pending_taken s valid = false ->
  in_string s = false ->
  valid NEWLINE = false ->
  ok (scan s lx valid) = true ->
  result_symbol (lex (scan s lx valid)) <> NEWLINE /\
  result_symbol (lex (scan s lx valid)) <> END_BLOCK /\
  (result_symbol (lex (scan s lx valid)) = START_BLOCK ->
   valid START_BLOCK = true /\
   chars (lex (scan s lx valid)) = drop_while is_space (chars lx) /\
   lookahead (lex (scan s lx valid)) <> chr "#" /\
   st (scan s lx valid)
   = push_frame s FRAME_INDENTED (u16 (get_column (lex (scan s lx valid))))).
Proof.
  intros Hni Hp Hs Hnl. unfold scan. rewrite Hp, Hs.
  unfold scan_layout. rewrite Hni. unfold layout_non_indented.
  rewrite Hnl. cbn [andb].
  pose proof (skip_all_ws_chars (skip_horizontal_ws lx)) as Hch.
  rewrite skip_horizontal_ws_chars, drop_while_space_after_hspace in Hch.
  set (lx2 := skip_all_ws (skip_horizontal_ws lx)) in *.
  destruct (valid START_BLOCK && negb (lookahead lx2 =? chr "#")) eqn:Hsb.
  - apply andb_true_iff in Hsb. destruct Hsb as [Hv Hhash].
    apply negb_true_iff, Z.eqb_neq in Hhash.
    cbn [finish open_block emit ok st lex set_result result_symbol chars].
    intros _. repeat split; try discriminate; auto.
  - cbn [finish]. destruct (eof lx2) eqn:Heof.
    + unfold scan_token. rewrite Heof. unfold eof_rule. rewrite Hnl.
      unfold in_non_indented in Hni. apply negb_true_iff in Hni. rewrite Hni.
      rewrite andb_false_r. cbn [andb fail ok]. discriminate.
    + intros Hok.
      pose proof (no_layout_scan_token s lx2 valid Heof Hok) as Hlay.
      split; [|split]; intros Hsym; rewrite Hsym in Hlay; discriminate Hlay.
Qed.

Lemma line_breaks_inside_delimiters_witness :
  result_symbol (lex (scan in_paren (lexer_at (chr " " :: LF :: LF :: cstr "  x") 3)
                           (valid_of [LOWER_ID; END_BLOCK])))
  <> END_BLOCK.
Proof.
  apply (line_breaks_inside_delimiters in_paren
           (lexer_at (chr " " :: LF :: LF :: cstr "  x") 3)
           (valid_of [LOWER_ID; END_BLOCK]));
    reflexivity.
Defined.
